(** * myprice: the heuristic receipt reconstruction path

    A shallow embedding of the Go code that turns Textract lines into a
    receipt: the normalizers of package [receipt] (normalize.go), the
    helpers of package [server] (parse helpers and
    [parseTextractToReceipt]) and the ordering step of
    [tools.HandleLoadTextract].

    Go strings are byte sequences: they are modelled by [string], whose
    characters are the 8-bit [ascii].  A [float64] is an IEEE 754 binary64
    value, modelled by [spec_float] at precision 53 and maximal exponent
    1024.  The receipt is a [map[string]any], modelled by a [gmap]. *)

From Stdlib Require Import ZArith Bool Ascii String List Lia SpecFloat.
From Stdlib Require Import Sorting.Permutation Sorting.Sorted.
From stdpp Require Import gmap strings list.

Set Warnings "-register-all".
Local Open Scope string_scope.

(** ** Bytes and strings *)

Module GoString.

Definition code (c : ascii) : nat := nat_of_ascii c.

Definition between (lo hi : nat) (c : ascii) : bool :=
  (lo <=? code c)%nat && (code c <=? hi)%nat.

Definition isDigit (c : ascii) : bool := between 48 57 c.
Definition isUpper (c : ascii) : bool := between 65 90 c.
Definition isLowerAlpha (c : ascii) : bool := between 97 122 c.

Definition len (s : string) : nat := String.length s.

Fixpoint HasPrefix (s p : string) : bool :=
  match p, s with
  | EmptyString, _ => true
  | String a p', String b s' => Ascii.eqb a b && HasPrefix s' p'
  | String _ _, EmptyString => false
  end.

(** strings.Contains *)
Fixpoint Contains (s sub : string) : bool :=
  HasPrefix s sub ||
  match s with
  | EmptyString => false
  | String _ s' => Contains s' sub
  end.

Definition TrimPrefix (s p : string) : string :=
  if HasPrefix s p then String.substring (len p) (len s - len p) s else s.

Fixpoint rev (s : string) : string :=
  match s with
  | EmptyString => EmptyString
  | String c s' => rev s' ++ String c EmptyString
  end.

Definition HasSuffix (s p : string) : bool := HasPrefix (rev s) (rev p).

Definition TrimSuffix (s p : string) : string :=
  if HasSuffix s p then String.substring 0 (len s - len p) s else s.

(** strings.ReplaceAll for a non-empty [old]: the occurrences are taken
    from the left and do not overlap; [skip] counts the bytes of an
    occurrence still to be dropped.  Every call of the program passes a
    one-byte [old] and an empty [new]; for an empty [old] the string is
    returned as it is, which is what Go does when [new] is empty too. *)
Fixpoint replaceFrom (old new : string) (skip : nat) (s : string) : string :=
  match s with
  | EmptyString => EmptyString
  | String c s' =>
      match skip with
      | S k => replaceFrom old new k s'
      | O =>
          if HasPrefix s old
          then new ++ replaceFrom old new (len old - 1) s'
          else String c (replaceFrom old new 0 s')
      end
  end.

Definition ReplaceAll (s old new : string) : string :=
  match old with
  | EmptyString => s
  | _ => replaceFrom old new 0 s
  end.

(** unicode.IsSpace on the ASCII range: tab, line feed, vertical tab, form
    feed, carriage return and space. *)
Definition asciiSpace (c : ascii) : bool :=
  between 9 13 c || (code c =? 32)%nat.

(** The other white-space runes, by their UTF-8 encodings: U+0085 and
    U+00A0 (C2 85, C2 A0), U+1680 (E1 9A 80), U+2000..U+200A, U+2028,
    U+2029, U+202F (E2 80 xx), U+205F (E2 81 9F) and U+3000 (E3 80 80). *)
Definition space2 (a b : ascii) : bool :=
  (code a =? 194)%nat && ((code b =? 133)%nat || (code b =? 160)%nat).

Definition space3 (a b c : ascii) : bool :=
  ((code a =? 225)%nat && (code b =? 154)%nat && (code c =? 128)%nat)
  || ((code a =? 226)%nat && (code b =? 128)%nat
      && (between 128 138 c || (code c =? 168)%nat || (code c =? 169)%nat
          || (code c =? 175)%nat))
  || ((code a =? 226)%nat && (code b =? 129)%nat && (code c =? 159)%nat)
  || ((code a =? 227)%nat && (code b =? 128)%nat && (code c =? 128)%nat).

(** TrimLeftFunc(s, unicode.IsSpace): the leading white-space runes go. *)
Fixpoint trimLeft (s : string) : string :=
  match s with
  | EmptyString => EmptyString
  | String a s1 =>
      if asciiSpace a then trimLeft s1
      else
        match s1 with
        | String b s2 =>
            if space2 a b then trimLeft s2
            else
              match s2 with
              | String c s3 => if space3 a b c then trimLeft s3 else s
              | EmptyString => s
              end
        | EmptyString => s
        end
  end.

(** The same from the right, on the reversed string: the last rune is
    decoded from the nearest byte that starts a rune, so the encodings are
    read back to front. *)
Fixpoint trimLeftRev (s : string) : string :=
  match s with
  | EmptyString => EmptyString
  | String a s1 =>
      if asciiSpace a then trimLeftRev s1
      else
        match s1 with
        | String b s2 =>
            if space2 b a then trimLeftRev s2
            else
              match s2 with
              | String c s3 => if space3 c b a then trimLeftRev s3 else s
              | EmptyString => s
              end
        | EmptyString => s
        end
  end.

Definition trimRight (s : string) : string := rev (trimLeftRev (rev s)).

(** strings.TrimSpace *)
Definition TrimSpace (s : string) : string := trimRight (trimLeft s).

(** strings.ToLower on the ASCII letters.  The program only looks for the
    ASCII words "subtotal", "tax" and "total" in the result; the letters
    that Unicode lower-casing adds to the ASCII range are k and i (from
    U+212A and U+0130), which occur in none of the three words, so the
    byte-wise lowering decides the same containment tests. *)
Definition lowerByte (c : ascii) : ascii :=
  if isUpper c then ascii_of_nat (code c + 32) else c.

Fixpoint ToLower (s : string) : string :=
  match s with
  | EmptyString => EmptyString
  | String c s' => String (lowerByte c) (ToLower s')
  end.

End GoString.

Import GoString.

(** ** Regular expressions

    The patterns of the program are concatenations and alternations of
    repeated one-byte classes, with at most one capture group.  Matching
    follows Go's regexp: the leftmost match, and among the matches at that
    position the one a backtracking search finds first (greedy
    repetitions, left alternative first).  The classes \d, \w and \s are
    the ASCII ones, as in Go. *)

Module Regexp.

Inductive cls :=
| CDigit                      (* \d *)
| CWord                       (* \w *)
| CSpace                      (* \s *)
| CByte (c : ascii)           (* a literal *)
| COr (a b : cls).            (* [ab] *)

Fixpoint inCls (k : cls) (c : ascii) : bool :=
  match k with
  | CDigit => isDigit c
  | CWord => isDigit c || isUpper c || isLowerAlpha c || (code c =? 95)%nat
  | CSpace => (code c =? 9)%nat || (code c =? 10)%nat || (code c =? 12)%nat
              || (code c =? 13)%nat || (code c =? 32)%nat
  | CByte a => Ascii.eqb a c
  | COr a b => inCls a c || inCls b c
  end.

Inductive regex :=
| RRep (k : cls) (lo : nat) (hi : option nat)   (* k{lo,hi}; no hi: unbounded *)
| RCat (r1 r2 : regex)
| RAlt (r1 r2 : regex)
| RCap (r : regex).                             (* the capture group *)

Definition one (k : cls) : regex := RRep k 1 (Some 1).
Definition opt (k : cls) : regex := RRep k 0 (Some 1).
Definition star (k : cls) : regex := RRep k 0 None.
Definition plus (k : cls) : regex := RRep k 1 None.
Definition lit (c : ascii) : regex := one (CByte c).

(** A group is a pair of byte offsets. *)
Definition span : Type := nat * nat.

Definition cont (A : Type) : Type := string -> nat -> option span -> option A.

Definition mayTake (hi : option nat) : bool :=
  match hi with Some O => false | _ => true end.

Definition decHi (hi : option nat) : option nat :=
  match hi with Some n => Some (Nat.pred n) | None => None end.

(** A greedy repetition takes a byte when it can and gives it back when
    the rest of the pattern fails. *)
Fixpoint rep {A} (k : cls) (lo : nat) (hi : option nat)
    (s : string) (i : nat) (cap : option span) (kt : cont A) : option A :=
  let stop := if (lo =? 0)%nat then kt s i cap else None in
  match s with
  | EmptyString => stop
  | String c s' =>
      if mayTake hi && inCls k c then
        match rep k (Nat.pred lo) (decHi hi) s' (S i) cap kt with
        | Some x => Some x
        | None => stop
        end
      else stop
  end.

Fixpoint exec {A} (r : regex) (s : string) (i : nat) (cap : option span)
    (kt : cont A) : option A :=
  match r with
  | RRep k lo hi => rep k lo hi s i cap kt
  | RCat r1 r2 => exec r1 s i cap (fun s' i' cap' => exec r2 s' i' cap' kt)
  | RAlt r1 r2 =>
      match exec r1 s i cap kt with
      | Some x => Some x
      | None => exec r2 s i cap kt
      end
  | RCap r1 => exec r1 s i cap (fun s' i' _ => kt s' i' (Some (i, i')))
  end.

(** The match that starts at offset [i], where [s] is the input from [i]
    on: its end and its group. *)
Definition matchAt (r : regex) (s : string) (i : nat) : option (nat * option span) :=
  exec r s i None (fun _ j cap => Some (j, cap)).

(** The leftmost match: start, end and group. *)
Fixpoint search (r : regex) (s : string) (i : nat) : option (nat * nat * option span) :=
  match matchAt r s i with
  | Some (j, cap) => Some (i, j, cap)
  | None =>
      match s with
      | EmptyString => None
      | String _ s' => search r s' (S i)
      end
  end.

Definition slice (s : string) (sp : span) : string :=
  String.substring (fst sp) (snd sp - fst sp) s.

Definition MatchString (r : regex) (s : string) : bool :=
  match search r s 0 with Some _ => true | None => false end.

(** MatchString for a pattern written between ^ and $: the match starts
    at the first byte and ends at the last. *)
Definition MatchWhole (r : regex) (s : string) : bool :=
  match exec r s 0 None
          (fun rest _ _ => match rest with EmptyString => Some tt | _ => None end)
  with Some _ => true | None => false end.

(** FindString: the text of the leftmost match, empty when there is none. *)
Definition FindString (r : regex) (s : string) : string :=
  match search r s 0 with
  | Some (i, j, _) => slice s (i, j)
  | None => EmptyString
  end.

(** FindStringSubmatch: the match and its group, or nil. *)
Definition FindStringSubmatch (r : regex) (s : string) : list string :=
  match search r s 0 with
  | Some (i, j, cap) =>
      [slice s (i, j);
       match cap with Some sp => slice s sp | None => EmptyString end]
  | None => []
  end.

(** ReplaceAllString with an empty replacement: the successive leftmost
    matches are dropped;
    [skip] counts the bytes of the current match still to be dropped.  An
    empty match removes nothing. *)
Fixpoint removeFrom (r : regex) (skip : nat) (s : string) (i : nat) : string :=
  match s with
  | EmptyString => EmptyString
  | String c s' =>
      match skip with
      | S k => removeFrom r k s' (S i)
      | O =>
          match matchAt r s i with
          | Some (j, _) =>
              if (i <? j)%nat then removeFrom r (j - i - 1) s' (S i)
              else String c (removeFrom r 0 s' (S i))
          | None => String c (removeFrom r 0 s' (S i))
          end
      end
  end.

Definition RemoveAllString (r : regex) (s : string) : string := removeFrom r 0 s 0.

End Regexp.

Import Regexp.

(** ** strconv

    [strconv.ParseFloat(s, 64)] and [strconv.Atoi] are library functions.
    Their syntax is modelled after the library's scanner (sign, decimal or
    hexadecimal mantissa, exponent, underscores, the special values); the
    value is the one the library documents: the nearest binary64 value,
    ties to even, infinite with a range error when it overflows. *)

Module Strconv.

Local Open Scope Z_scope.

Inductive error := ErrSyntax | ErrRange.

Definition float64 : Type := spec_float.
Definition prec : Z := 53.
Definition emax : Z := 1024.

Definition zero : float64 := S754_zero false.

Definition isByte (c : ascii) (n : nat) : bool := (code c =? n)%nat.

Definition digitVal (c : ascii) : Z := Z.of_nat (code c - 48).

(** 'a' <= lower(c) && lower(c) <= 'f' *)
Definition isHexLetter (c : ascii) : bool := between 65 70 c || between 97 102 c.
Definition hexVal (c : ascii) : Z :=
  if isDigit c then digitVal c else Z.of_nat (code (lowerByte c) - 87).

Fixpoint commonPrefixLenIgnoreCase (s prefix : string) : nat :=
  match s, prefix with
  | String c s', String p prefix' =>
      if Ascii.eqb (lowerByte c) p then S (commonPrefixLenIgnoreCase s' prefix') else 0%nat
  | _, _ => 0%nat
  end.

Definition infinity (s : string) (sign : bool) (nsign : nat) : option (float64 * nat) :=
  let n := commonPrefixLenIgnoreCase s "infinity" in
  let n := if (3 <? n)%nat && (n <? 8)%nat then 3%nat else n in
  if (n =? 3)%nat || (n =? 8)%nat then Some (S754_infinity sign, (nsign + n)%nat) else None.

(** special: the infinities, with an optional sign, and NaN, without. *)
Definition special (s : string) : option (float64 * nat) :=
  match s with
  | EmptyString => None
  | String c s' =>
      if isByte c 43 then infinity s' false 1
      else if isByte c 45 then infinity s' true 1
      else if isByte c 105 || isByte c 73 then infinity s false 0
      else if isByte c 110 || isByte c 78 then
        if (commonPrefixLenIgnoreCase s "nan" =? 3)%nat then Some (S754_nan, 3%nat) else None
      else None
  end.

(** The mantissa loop of readFloat.  The library keeps 19 digits and a
    truncation flag and recovers the exact value later; here the whole
    mantissa [m] is kept, with the number [frac] of digits after the
    point. *)
Record mantissa := {
  m_val : Z;
  m_frac : Z;
  m_sawdigits : bool;
  m_underscores : bool;
  m_rest : string
}.

Fixpoint readMantissa (hex : bool) (s : string) (m frac : Z)
    (sawdot sawdigits us : bool) : mantissa :=
  let stop := {| m_val := m; m_frac := frac; m_sawdigits := sawdigits;
                 m_underscores := us; m_rest := s |} in
  match s with
  | EmptyString => stop
  | String c s' =>
      if isByte c 95 then readMantissa hex s' m frac sawdot sawdigits true
      else if isByte c 46 then
        if sawdot then stop else readMantissa hex s' m frac true sawdigits us
      else if isDigit c then
        readMantissa hex s' (m * (if hex then 16 else 10) + digitVal c)
          (if sawdot then frac + 1 else frac) sawdot true us
      else if hex && isHexLetter c then
        readMantissa hex s' (m * 16 + hexVal c)
          (if sawdot then frac + 1 else frac) sawdot true us
      else stop
  end.

(** The digits of the exponent; the library stops adding them up at
    10000. *)
Fixpoint readExpDigits (s : string) (e : Z) (us : bool) : Z * bool * string :=
  match s with
  | EmptyString => (e, us, s)
  | String c s' =>
      if isByte c 95 then readExpDigits s' e true
      else if isDigit c then
        readExpDigits s' (if e <? 10000 then e * 10 + digitVal c else e) us
      else (e, us, s)
  end.

(** lower(c) == expChar: e for a decimal mantissa, p for a hexadecimal one *)
Definition isExpChar (hex : bool) (c : ascii) : bool :=
  if hex then isByte c 112 || isByte c 80 else isByte c 101 || isByte c 69.

Definition readExponent (hex : bool) (s : string) (us : bool)
    : option (Z * bool * string) :=
  let none := if hex then None else Some (0, us, s) in
  match s with
  | EmptyString => none
  | String c s1 =>
      if isExpChar hex c then
        match s1 with
        | EmptyString => None
        | String d s2 =>
            let '(esign, s3) :=
              if isByte d 43 then (1, s2)
              else if isByte d 45 then (-1, s2) else (1, s1) in
            match s3 with
            | EmptyString => None
            | String x _ =>
                if isDigit x then
                  let '(e, us', rest) := readExpDigits s3 0 us in
                  Some (esign * e, us', rest)
                else None
            end
        end
      else none
  end.

(** underscoreOK: an underscore stands between digits, or between a base
    prefix and a digit. *)
Inductive saw := SawStart | SawDigit | SawUnderscore | SawOther.

Fixpoint underscoreLoop (hex : bool) (sw : saw) (s : string) : bool :=
  match s with
  | EmptyString => match sw with SawUnderscore => false | _ => true end
  | String c s' =>
      if isDigit c || (hex && isHexLetter c) then underscoreLoop hex SawDigit s'
      else if isByte c 95 then
        match sw with SawDigit => underscoreLoop hex SawUnderscore s' | _ => false end
      else
        match sw with SawUnderscore => false | _ => underscoreLoop hex SawOther s' end
  end.

Definition isX (c : ascii) : bool := isByte c 120 || isByte c 88.

Definition underscoreOK (s : string) : bool :=
  let s :=
    match s with
    | String c s' => if isByte c 43 || isByte c 45 then s' else s
    | EmptyString => s
    end in
  match s with
  | String a (String b s') =>
      if isByte a 48
         && (isByte b 98 || isByte b 66 || isByte b 111 || isByte b 79 || isX b)
      then underscoreLoop (isX b) SawDigit s'
      else underscoreLoop false SawStart s
  | _ => underscoreLoop false SawStart s
  end.

(** What readFloat hands on: the mantissa, the exponent of the base (ten,
    or two for a hexadecimal mantissa), the sign, and the bytes read. *)
Record number := {
  n_mant : Z;
  n_exp : Z;
  n_neg : bool;
  n_hex : bool;
  n_read : nat
}.

Definition readFloat (s : string) : option number :=
  match s with
  | EmptyString => None
  | String c s' =>
      let '(neg, s1) :=
        if isByte c 43 then (false, s')
        else if isByte c 45 then (true, s') else (false, s) in
      let '(hex, s2) :=
        match s1 with
        | String a (String b (String d s3)) =>
            if isByte a 48 && isX b then (true, String d s3) else (false, s1)
        | _ => (false, s1)
        end in
      let m := readMantissa hex s2 0 0 false false false in
      if negb (m_sawdigits m) then None
      else
        match readExponent hex (m_rest m) (m_underscores m) with
        | None => None
        | Some (e, us, rest) =>
            let n := (len s - len rest)%nat in
            if us && negb (underscoreOK (String.substring 0 n s)) then None
            else
              Some {| n_mant := m_val m;
                      n_exp := if hex then e - 4 * m_frac m else e - m_frac m;
                      n_neg := neg; n_hex := hex; n_read := n |}
        end
  end.

(** The nearest binary64 value of m * 10^e, ties to even: an integer is
    rounded as it is, a quotient by a power of ten through the division
    of its two integers. *)
Definition decimalToFloat (neg : bool) (m : Z) (e : Z) : float64 :=
  match m with
  | Zpos p =>
      if 0 <=? e then binary_round prec emax neg (p * Z.to_pos (10 ^ e)) 0
      else SFdiv prec emax (S754_finite neg p 0) (S754_finite false (Z.to_pos (10 ^ (- e))) 0)
  | _ => S754_zero neg
  end.

(** The nearest binary64 value of m * 2^e. *)
Definition hexToFloat (neg : bool) (m : Z) (e : Z) : float64 :=
  match m with
  | Zpos p => binary_round prec emax neg p e
  | _ => S754_zero neg
  end.

Definition isInf (f : float64) : bool :=
  match f with S754_infinity _ => true | _ => false end.

Definition ParseFloat (s : string) : float64 * option error :=
  match special s with
  | Some (f, n) => if (n =? len s)%nat then (f, None) else (zero, Some ErrSyntax)
  | None =>
      match readFloat s with
      | None => (zero, Some ErrSyntax)
      | Some nb =>
          let f := if n_hex nb then hexToFloat (n_neg nb) (n_mant nb) (n_exp nb)
                   else decimalToFloat (n_neg nb) (n_mant nb) (n_exp nb) in
          if negb (n_read nb =? len s)%nat then (zero, Some ErrSyntax)
          else (f, if isInf f then Some ErrRange else None)
      end
  end.

(** Atoi, for a 64-bit int: an optional sign and decimal digits; a value
    out of range comes back clamped, with a range error. *)
Fixpoint readDigits (s : string) (acc : Z) : option Z :=
  match s with
  | EmptyString => Some acc
  | String c s' => if isDigit c then readDigits s' (acc * 10 + digitVal c) else None
  end.

Definition Atoi (s : string) : Z * option error :=
  let '(neg, body) :=
    match s with
    | String c s' =>
        if isByte c 43 then (false, s')
        else if isByte c 45 then (true, s') else (false, s)
    | EmptyString => (false, s)
    end in
  match body with
  | EmptyString => (0, Some ErrSyntax)
  | _ =>
      match readDigits body 0 with
      | None => (0, Some ErrSyntax)
      | Some v =>
          let v := if neg then - v else v in
          if v <? - 2 ^ 63 then (- 2 ^ 63, Some ErrRange)
          else if 2 ^ 63 - 1 <? v then (2 ^ 63 - 1, Some ErrRange)
          else (v, None)
      end
  end.

(** Comparisons of float64 values: NaN compares false with everything,
    and [!=] is the negation of [==]. *)
Definition flt (a b : float64) : bool := SFltb a b.
Definition feq (a b : float64) : bool := SFeqb a b.
Definition fne (a b : float64) : bool := negb (SFeqb a b).

End Strconv.

Import Strconv.

(** ** Package receipt: normalize.go *)

Module Receipt.

Definition digits (lo hi : nat) : regex := RRep CDigit lo (Some hi).

(** The five date shapes, in the order of the source. *)
Definition datePatterns : list regex :=
  [ (* \d{1,2}/\d{1,2}/\d{2,4} *)
    RCat (digits 1 2) (RCat (lit "/") (RCat (digits 1 2) (RCat (lit "/") (digits 2 4))));
    (* \d{1,2}-\d{1,2}-\d{2,4} *)
    RCat (digits 1 2) (RCat (lit "-") (RCat (digits 1 2) (RCat (lit "-") (digits 2 4))));
    (* \d{4}-\d{2}-\d{2} *)
    RCat (digits 4 4) (RCat (lit "-") (RCat (digits 2 2) (RCat (lit "-") (digits 2 2))));
    (* \w{3}\s+\d{1,2},?\s+\d{4} *)
    RCat (RRep CWord 3 (Some 3))
      (RCat (plus CSpace) (RCat (digits 1 2) (RCat (opt (CByte ","))
        (RCat (plus CSpace) (digits 4 4)))));
    (* \d{1,2}\s+\w{3}\s+\d{4} *)
    RCat (digits 1 2)
      (RCat (plus CSpace) (RCat (RRep CWord 3 (Some 3))
        (RCat (plus CSpace) (digits 4 4)))) ].

(** pricePattern, between ^ and $: an optional dollar sign, digits or
    commas, an optional point, further digits. *)
Definition pricePattern : regex :=
  RCat (opt (CByte "$"))
       (RCat (plus (COr CDigit (CByte ",")))
             (RCat (opt (CByte ".")) (star CDigit))).

Definition NormalizePrice (s : string) : float64 :=
  let cleaned := TrimSpace s in
  let cleaned := TrimPrefix cleaned "$" in
  let cleaned := ReplaceAll cleaned "," EmptyString in
  match ParseFloat cleaned with
  | (_, Some _) => zero
  | (val, None) => val
  end.

Definition IsPrice (s : string) : bool :=
  let cleaned := TrimSpace s in
  MatchWhole pricePattern cleaned.

Fixpoint firstMatch (patterns : list regex) (text : string) : string :=
  match patterns with
  | [] => EmptyString
  | pattern :: rest =>
      let m := FindString pattern text in
      if negb (String.eqb m EmptyString) then m else firstMatch rest text
  end.

Definition ExtractDate (text : string) : string := firstMatch datePatterns text.

Definition NormalizeVendorName (s : string) : string := TrimSpace s.

Definition NormalizeItemName (s : string) : string :=
  let cleaned := TrimSpace s in
  let cleaned := TrimPrefix cleaned "*" in
  TrimSuffix cleaned "*".

Definition ParseQuantity (s : string) : Z :=
  let cleaned := TrimSpace s in
  match Atoi cleaned with
  | (_, Some _) => 1
  | (qty, None) => if qty <? 1 then 1 else qty
  end%Z.

End Receipt.

(** ** Package tools: the lines of load_textract.go and their ordering *)

Module Tools.

Record TextractLine := {
  Text : string;
  Confidence : float64;
  Top : float64;
  Left : float64
}.

Record LoadTextractOutput := {
  PageCount : Z;
  Lines : list TextractLine;
  TotalLines : Z;
  FilePath : string
}.

(** The comparison handed to sort.Slice. *)
Definition less (a b : TextractLine) : bool :=
  if fne (Top a) (Top b) then flt (Top a) (Top b) else flt (Left a) (Left b).

(** sort.Slice is the library's sort; it is modelled by the insertion sort
    it runs on a slice of at most twelve elements: each element moves
    towards the front while it is less than the one before it.  [acc] is
    the sorted part, last element first.  On a longer slice the library
    switches to a quicksort, which may leave lines of equal key in another
    order; no statement below depends on that order. *)
Fixpoint insertLine (x : TextractLine) (acc : list TextractLine) : list TextractLine :=
  match acc with
  | [] => [x]
  | y :: acc' => if less x y then y :: insertLine x acc' else x :: acc
  end.

Definition sortLines (lines : list TextractLine) : list TextractLine :=
  List.rev (fold_left (fun acc x => insertLine x acc) lines []).

(** What HandleLoadTextract returns for the LINE blocks [lines] of a
    document of [pages] pages read from [path]. *)
Definition loadOutput (pages : Z) (path : string) (lines : list TextractLine)
    : LoadTextractOutput :=
  let lines := sortLines lines in
  {| PageCount := pages; Lines := lines;
     TotalLines := Z.of_nat (length lines); FilePath := path |}.

End Tools.

Import Tools.

(** ** Package server: the parse helpers and parseTextractToReceipt *)

Module Server.

(** The price pattern: an optional dollar sign, then the group [\d,]+ \.? \d* (digits or
    commas, an optional point, further digits). *)
Definition priceRegex : regex :=
  RCat (opt (CByte "$"))
       (RCap (RCat (plus (COr CDigit (CByte ",")))
                   (RCat (opt (CByte ".")) (star CDigit)))).

(** The date pattern: \d{1,2}/\d{1,2}/\d{2,4} or else \d{4}-\d{2}-\d{2}. *)
Definition dateRegex : regex :=
  RAlt (RCat (Receipt.digits 1 2) (RCat (lit "/") (RCat (Receipt.digits 1 2)
          (RCat (lit "/") (Receipt.digits 2 4)))))
       (RCat (Receipt.digits 4 4) (RCat (lit "-") (RCat (Receipt.digits 2 2)
          (RCat (lit "-") (Receipt.digits 2 2))))).

Definition containsPrice (s : string) : bool :=
  Contains s "$" || MatchString priceRegex s.

Definition containsDate (s : string) : bool := MatchString dateRegex s.

Definition extractPrice (s : string) : float64 :=
  match FindStringSubmatch priceRegex s with
  | _ :: group :: _ =>
      let priceStr := ReplaceAll group "," EmptyString in
      match ParseFloat priceStr with
      | (_, Some _) => zero
      | (price, None) => price
      end
  | _ => zero
  end.

Definition extractItemName (s : string) : string :=
  let name := RemoveAllString priceRegex s in
  let name := ReplaceAll name "$" EmptyString in
  let name := TrimSpace name in
  if (len name <? 2)%nat then EmptyString else name.

(** The values stored in a map[string]any by this program. *)
Inductive any :=
| AString (s : string)
| AInt (n : Z)
| AFloat (f : float64)
| AStrings (l : list string)
| AMaps (l : list (gmap string any)).

(** The local variables of parseTextractToReceipt. *)
Record locals := {
  vendor : string;
  date : string;
  subtotal : float64;
  tax : float64;
  total : float64;
  items : list (gmap string any)
}.

Definition setVendor (v : string) (st : locals) : locals :=
  {| vendor := v; date := date st; subtotal := subtotal st; tax := tax st;
     total := total st; items := items st |}.
Definition setDate (d : string) (st : locals) : locals :=
  {| vendor := vendor st; date := d; subtotal := subtotal st; tax := tax st;
     total := total st; items := items st |}.
Definition setSubtotal (p : float64) (st : locals) : locals :=
  {| vendor := vendor st; date := date st; subtotal := p; tax := tax st;
     total := total st; items := items st |}.
Definition setTax (p : float64) (st : locals) : locals :=
  {| vendor := vendor st; date := date st; subtotal := subtotal st; tax := p;
     total := total st; items := items st |}.
Definition setTotal (p : float64) (st : locals) : locals :=
  {| vendor := vendor st; date := date st; subtotal := subtotal st; tax := tax st;
     total := p; items := items st |}.
Definition appendItem (it : gmap string any) (st : locals) : locals :=
  {| vendor := vendor st; date := date st; subtotal := subtotal st; tax := tax st;
     total := total st; items := items st ++ [it] |}.

Definition isEmpty (s : string) : bool := String.eqb s EmptyString.

(** The constant 90 of the confidence test. *)
Definition ninety : float64 := binary_normalize prec emax 90 0 false.

Definition newItem (name : string) (price : float64) : gmap string any :=
  <["price" := AFloat price]> (<["qty" := AInt 1]> (<["name" := AString name]> ∅)).

(** The body of the loop, for the line at index [i]. *)
Definition body (i : nat) (line : TextractLine) (st : locals) : locals :=
  let text := Text line in
  let st :=
    if (i <? 3)%nat && flt ninety (Confidence line) && isEmpty (vendor st)
       && (3 <? len text)%nat
    then setVendor text st else st in
  let st :=
    if containsDate text && isEmpty (date st) then setDate text st else st in
  if containsPrice text then
    let lowerText := ToLower text in
    let price := extractPrice text in
    if Contains lowerText "subtotal" then setSubtotal price st
    else if Contains lowerText "tax" then setTax price st
    else if Contains lowerText "total" && negb (Contains lowerText "subtotal")
    then setTotal price st
    else if flt zero price then
      let name := extractItemName text in
      if negb (isEmpty name) && (1 <? len name)%nat
      then appendItem (newItem name price) st else st
    else st
  else st.

Fixpoint loop (i : nat) (lines : list TextractLine) (st : locals) : locals :=
  match lines with
  | [] => st
  | line :: rest => loop (S i) rest (body i line st)
  end.

Definition initLocals : locals :=
  {| vendor := EmptyString; date := EmptyString; subtotal := zero; tax := zero;
     total := zero; items := [] |}.

Definition confidenceNotes : string := "Parsed from Textract OCR output".

(** The map the function starts from. *)
Definition newReceipt : gmap string any :=
  <["anomalies" := AStrings []]>
  (<["confidence_notes" := AString confidenceNotes]>
  (<["total" := AFloat zero]>
  (<["tax" := AFloat zero]>
  (<["subtotal" := AFloat zero]>
  (<["items" := AMaps []]>
  (<["date" := AString EmptyString]>
  (<["vendor" := AString EmptyString]> ∅))))))).

Definition store (st : locals) (receipt : gmap string any) : gmap string any :=
  <["total" := AFloat (total st)]>
  (<["tax" := AFloat (tax st)]>
  (<["subtotal" := AFloat (subtotal st)]>
  (<["items" := AMaps (items st)]>
  (<["date" := AString (date st)]>
  (<["vendor" := AString (vendor st)]> receipt))))).

Definition parseTextractToReceipt (textract : LoadTextractOutput) : gmap string any :=
  store (loop 0 (Lines textract) initLocals) newReceipt.

End Server.

Import Server.

(** ** Package tools: the blocks of load_textract.go and HandleLoadTextract

    The document that Textract returns, the loop that keeps its LINE
    blocks, and the handler around it.  The two calls that leave the
    program, os.ReadFile and json.Unmarshal, are arguments of the
    handler. *)

Module Textract.

(** The record types keep the field names of the source; BoundingBox and
    Type are taken in Rocq, so the field BoundingBox of BlockGeometry is
    Box here and the field Type of Relationship is Type'. *)
Record BoundingBox := {
  Width : float64;
  Height : float64;
  Left : float64;
  Top : float64
}.

(** Geometry and BoundingBox are pointers in the source: nil is None. *)
Record BlockGeometry := {
  Box : option BoundingBox
}.

Record Relationship := {
  Type' : string;
  IDs : list string
}.

Record TextractBlock := {
  BlockType : string;
  Confidence : float64;
  Text : string;
  ID : string;
  Geometry : option BlockGeometry;
  Relationships : list Relationship
}.

(** The anonymous struct of the field DocumentMetadata. *)
Record Metadata := {
  Pages : Z
}.

Record TextractDocument := {
  DocumentMetadata : Metadata;
  Blocks : list TextractBlock
}.

(** The line made from a block: the position stays zero unless the block
    has a geometry with a bounding box. *)
Definition lineOf (block : TextractBlock) : TextractLine :=
  let line := {| Tools.Text := Text block; Tools.Confidence := Confidence block;
                 Tools.Top := zero; Tools.Left := zero |} in
  match Geometry block with
  | Some geometry =>
      match Box geometry with
      | Some box =>
          {| Tools.Text := Tools.Text line; Tools.Confidence := Tools.Confidence line;
             Tools.Top := Top box; Tools.Left := Left box |}
      | None => line
      end
  | None => line
  end.

(** The test of the loop: a block of type LINE whose text is not empty. *)
Definition isLine (block : TextractBlock) : bool :=
  String.eqb (BlockType block) "LINE" && negb (String.eqb (Text block) EmptyString).

(** The loop over the blocks; [lines] is the slice built so far. *)
Fixpoint extractLines (blocks : list TextractBlock) (lines : list TextractLine)
    : list TextractLine :=
  match blocks with
  | [] => lines
  | block :: rest =>
      extractLines rest (if isLine block then lines ++ [lineOf block] else lines)%list
  end.

(** The errors of HandleLoadTextract, the second and the third with the
    message of the error they wrap. *)
Inductive loadError :=
| PathRequired
| ReadFailed (cause : string)
| ParseFailed (cause : string).

(** The zero value LoadTextractOutput{}. *)
Definition noOutput : LoadTextractOutput :=
  {| PageCount := 0; Lines := []; TotalLines := 0; FilePath := EmptyString |}.

(** HandleLoadTextract, over the two calls that leave the program:
    [readFile] is os.ReadFile and [unmarshal] is json.Unmarshal into a
    TextractDocument, each returning its result or the message of its
    error. *)
Definition HandleLoadTextract
    (readFile : string -> string + string)
    (unmarshal : string -> TextractDocument + string)
    (path : string) : LoadTextractOutput * option loadError :=
  if String.eqb path EmptyString then (noOutput, Some PathRequired)
  else
    match readFile path with
    | inr err => (noOutput, Some (ReadFailed err))
    | inl data =>
        match unmarshal data with
        | inr err => (noOutput, Some (ParseFailed err))
        | inl doc =>
            (loadOutput (Pages (DocumentMetadata doc)) path (extractLines (Blocks doc) []),
             None)
        end
    end.

End Textract.

(** ** Package server: the text handed to json.Unmarshal in llm.go

    ParseReceiptWithLLM cleans the text of the reply before it parses it:
    the white space and the code fences around it go, and when the text
    has both braces the part from the first opening brace to the last
    closing brace is kept. *)

Module LLM.

Local Open Scope Z_scope.

(** strings.Index: the offset of the first occurrence of [sub] in [s], or
    -1; [i] is the offset of [s] in the whole string. *)
Fixpoint indexFrom (s sub : string) (i : Z) : Z :=
  if HasPrefix s sub then i
  else
    match s with
    | EmptyString => -1
    | String _ s' => indexFrom s' sub (i + 1)
    end.

Definition Index (s sub : string) : Z := indexFrom s sub 0.

(** strings.LastIndex: the offset of the last occurrence, or -1. *)
Fixpoint lastIndexFrom (s sub : string) (i : Z) : Z :=
  let later :=
    match s with
    | EmptyString => -1
    | String _ s' => lastIndexFrom s' sub (i + 1)
    end in
  if 0 <=? later then later else if HasPrefix s sub then i else -1.

Definition LastIndex (s sub : string) : Z := lastIndexFrom s sub 0.

(** The slice expression s[start:stop]; None stands for the panic that Go
    raises when the bounds are out of range. *)
Definition sliced (s : string) (start stop : Z) : option string :=
  if (0 <=? start) && (start <=? stop) && (stop <=? Z.of_nat (len s))
  then Some (String.substring (Z.to_nat start) (Z.to_nat (stop - start)) s)
  else None.

(** The variable jsonText of ParseReceiptWithLLM when it reaches
    json.Unmarshal, as a function of the text of the reply. *)
Definition jsonText (text : string) : option string :=
  let jsonText := TrimSpace text in
  let jsonText := TrimPrefix jsonText "```json" in
  let jsonText := TrimPrefix jsonText "```" in
  let jsonText := TrimSuffix jsonText "```" in
  let jsonText := TrimSpace jsonText in
  if Contains jsonText "{" && Contains jsonText "}" then
    let start := Index jsonText "{" in
    let stop := LastIndex jsonText "}" + 1 in
    if (0 <=? start) && (start <? stop) then sliced jsonText start stop
    else Some jsonText
  else Some jsonText.

End LLM.

(** ** Instrumentation of the loop body *)

(** The local variables that end up in the receipt. *)
Inductive field := FVendor | FDate | FSubtotal | FTax | FTotal | FItems.

Definition get (f : field) (st : locals) : any :=
  match f with
  | FVendor => AString (vendor st)
  | FDate => AString (date st)
  | FSubtotal => AFloat (subtotal st)
  | FTax => AFloat (tax st)
  | FTotal => AFloat (total st)
  | FItems => AMaps (items st)
  end.

(** The assignments the body executes for the line at index [i], in
    program order: one list per [if] statement of the body. *)
Definition vendorAssigned (i : nat) (line : TextractLine) (st : locals) : list field :=
  if (i <? 3)%nat && flt ninety (Confidence line) && isEmpty (vendor st)
     && (3 <? len (Text line))%nat
  then [FVendor] else [].

Definition dateAssigned (line : TextractLine) (st : locals) : list field :=
  if containsDate (Text line) && isEmpty (date st) then [FDate] else [].

Definition amountAssigned (line : TextractLine) : list field :=
  let text := Text line in
  if containsPrice text then
    let lowerText := ToLower text in
    if Contains lowerText "subtotal" then [FSubtotal]
    else if Contains lowerText "tax" then [FTax]
    else if Contains lowerText "total" && negb (Contains lowerText "subtotal")
    then [FTotal]
    else if flt zero (extractPrice text) then
      let name := extractItemName text in
      if negb (isEmpty name) && (1 <? len name)%nat then [FItems] else []
    else []
  else [].

Definition assigned (i : nat) (line : TextractLine) (st : locals) : list field :=
  vendorAssigned i line st ++ dateAssigned line st ++ amountAssigned line.

(** The assignments of a whole run, with the index of the line. *)
Fixpoint trace (i : nat) (lines : list TextractLine) (st : locals) : list (nat * field) :=
  match lines with
  | [] => []
  | line :: rest =>
      map (pair i) (assigned i line st) ++ trace (S i) rest (body i line st)
  end.

(** ** Literals and selections used in the statements *)

(** The float64 value of a decimal literal, as a JSON number or a Go
    constant denotes it. *)
Definition f64 (s : string) : float64 := fst (ParseFloat s).

Definition fragment (text confidence top left : string) : TextractLine :=
  {| Text := text; Confidence := f64 confidence; Top := f64 top; Left := f64 left |}.

(** The last element of [l] that satisfies [p]. *)
Definition findLast {A} (p : A -> bool) (l : list A) : option A :=
  List.find p (List.rev l).

Definition textOf (o : option TextractLine) : string :=
  match o with Some l => Text l | None => EmptyString end.

Definition amountOf (o : option TextractLine) : float64 :=
  match o with Some l => extractPrice (Text l) | None => zero end.

(** A line the vendor rule accepts, its position apart. *)
Definition vendorCandidate (l : TextractLine) : bool :=
  flt ninety (Confidence l) && (3 <? len (Text l))%nat.

Definition hasDate (l : TextractLine) : bool := containsDate (Text l).

(** The lines classified as tax, and as total, by the chain of tests. *)
Definition taxLine (l : TextractLine) : bool :=
  containsPrice (Text l)
  && negb (Contains (ToLower (Text l)) "subtotal")
  && Contains (ToLower (Text l)) "tax".

Definition totalLine (l : TextractLine) : bool :=
  containsPrice (Text l)
  && negb (Contains (ToLower (Text l)) "subtotal")
  && negb (Contains (ToLower (Text l)) "tax")
  && Contains (ToLower (Text l)) "total".

(** A price-bearing line that contains "total" without "subtotal". *)
Definition totalWord (l : TextractLine) : bool :=
  containsPrice (Text l)
  && Contains (ToLower (Text l)) "total"
  && negb (Contains (ToLower (Text l)) "subtotal").

(** The five fragments of the end-to-end scenario. *)
Definition scenario : list TextractLine :=
  [ fragment "STORE NAME" "97" "0.05" "0.1";
    fragment "Milk $4.99" "95" "0.30" "0.1";
    fragment "Subtotal $4.99" "96" "0.50" "0.1";
    fragment "Tax $0.40" "96" "0.55" "0.1";
    fragment "Total $5.39" "97" "0.60" "0.1" ].

Definition scenarioReceipt : gmap string any :=
  {[ "vendor" := AString "STORE NAME";
     "date" := AString EmptyString;
     "items" := AMaps [ {[ "name" := AString "Milk"; "qty" := AInt 1;
                           "price" := AFloat (f64 "4.99") ]} ];
     "subtotal" := AFloat (f64 "4.99");
     "tax" := AFloat (f64 "0.40");
     "total" := AFloat (f64 "5.39");
     "confidence_notes" := AString "Parsed from Textract OCR output";
     "anomalies" := AStrings [] ]}.

(** ** Notions used in the statements *)

Local Open Scope Z_scope.

(** The token that NormalizePrice hands to ParseFloat. *)
Definition cleanedToken (s : string) : string :=
  ReplaceAll (TrimPrefix (TrimSpace s) "$") "," EmptyString.

Definition isNaN (f : float64) : bool :=
  match f with S754_nan => true | _ => false end.

(** A value that is not NaN, as three integers compared lexicographically:
    the class, then the exponent and the mantissa, both negated below zero. *)
Definition rank (f : float64) : Z * Z * Z :=
  match f with
  | S754_nan => (0, 0, 0)
  | S754_zero _ => (0, 0, 0)
  | S754_infinity true => (-2, 0, 0)
  | S754_infinity false => (2, 0, 0)
  | S754_finite false m e => (1, e, Zpos m)
  | S754_finite true m e => (-1, - e, - Zpos m)
  end.

Definition lexLt (a b : Z * Z * Z) : Prop :=
  a.1.1 < b.1.1 \/ (a.1.1 = b.1.1 /\ (a.1.2 < b.1.2 \/ (a.1.2 = b.1.2 /\ a.2 < b.2))).

Definition lexEq (a b : Z * Z * Z) : Prop :=
  a.1.1 = b.1.1 /\ a.1.2 = b.1.2 /\ a.2 = b.2.

Definition ofCmp (c : comparison) (a b : Z * Z * Z) : Prop :=
  match c with
  | Lt => lexLt a b
  | Eq => a = b
  | Gt => lexLt b a
  end.

(** The sign of a value, NaN apart. *)
Definition signed (s : bool) (f : float64) : Prop :=
  match f with
  | S754_nan => True
  | S754_zero b | S754_infinity b | S754_finite b _ _ => b = s
  end.

(** The coordinates of a line are numbers. *)
Definition positioned (l : TextractLine) : Prop :=
  isNaN (Top l) = false /\ isNaN (Left l) = false.

(** The key (top, left) of [a] is at most that of [b]: a smaller top, or
    an equal top and a smaller or equal left. *)
Definition keyLe (a b : TextractLine) : Prop :=
  flt (Top a) (Top b) = true
  \/ (feq (Top a) (Top b) = true /\ SFleb (Left a) (Left b) = true).

Definition keyLt (a b : TextractLine) : Prop :=
  lexLt (rank (Top a)) (rank (Top b))
  \/ (lexEq (rank (Top a)) (rank (Top b)) /\ lexLt (rank (Left a)) (rank (Left b))).

Definition notLess (a b : TextractLine) : Prop := less a b = false.

(** The mantissa has the digits its exponent asks for, or more. *)
Definition precise (m e : Z) : Prop :=
  0 <= m /\ e <= fexp prec emax (Zdigits2 m + e).

(** The quotient of two integers, as SFdiv computes it. *)
Definition divExp (p q : positive) : Z :=
  Z.min (fexp prec emax (Zdigits2 (Zpos p) - Zdigits2 (Zpos q))) 0.

(** The exponent is the one a mantissa of that many digits has. *)
Definition canonical (p : positive) (E : Z) : Prop :=
  fexp prec emax (Zdigits2 (Zpos p) + E) = E.

(** ** The rendering of an amount *)

Definition digitChar (d : Z) : ascii := ascii_of_nat (48 + Z.to_nat d).

(** The last [w] decimal digits of [n], most significant first. *)
Fixpoint fixedDigits (w : nat) (n : Z) : string :=
  match w with
  | O => EmptyString
  | S w' => fixedDigits w' (n / 10) ++ String (digitChar (n mod 10)) EmptyString
  end.

(** The number of decimal digits of [n], at least one. *)
Fixpoint countDigits (fuel : nat) (n : Z) : nat :=
  match fuel with
  | O => 1
  | S fuel' => if (n <? 10)%Z then 1%nat else S (countDigits fuel' (n / 10))
  end.

Definition decimal (n : Z) : string :=
  fixedDigits (countDigits (Z.to_nat (Z.log2 n)) n) n.

Definition signText (neg : bool) : string := if neg then "-" else EmptyString.

(** The quotient a / b rounded to the nearest integer, a tie to the even
    one; b is positive. *)
Definition roundHalfEven (a b : Z) : Z :=
  let q := a / b in
  match 2 * (a mod b) ?= b with
  | Lt => q
  | Eq => if Z.even q then q else q + 1
  | Gt => q + 1
  end.

(** The amount m * 2^e in hundredths. *)
Definition cents (m : positive) (e : Z) : Z :=
  if 0 <=? e then 100 * (Zpos m * 2 ^ e) else roundHalfEven (100 * Zpos m) (2 ^ (- e)).

(** A number of hundredths, written with its two decimals. *)
Definition twoDecimals (n : Z) : string :=
  decimal (n / 100) ++ "." ++ fixedDigits 2 (n mod 100).

(** Modelled from the spec: toString, the string rendering of an amount,
    which the code does not have.  The spec gives an amount a two-decimal
    canonical form: the amount is rounded to the nearest hundredth, a tie
    to the even one, and written with its sign, its integer digits, the
    point and two decimals, as Go's FormatFloat(v, 'f', 2, 64) does; the
    special values as Go prints them. *)
Definition toString (v : float64) : string :=
  match v with
  | S754_nan => "NaN"
  | S754_infinity false => "+Inf"
  | S754_infinity true => "-Inf"
  | S754_zero s => signText s ++ twoDecimals 0
  | S754_finite s m e => signText s ++ twoDecimals (cents m e)
  end.

(** A digit or the point. *)
Definition numeric (c : ascii) : bool := isDigit c || isByte c 46.

Fixpoint allNumeric (s : string) : bool :=
  match s with
  | EmptyString => true
  | String c s' => numeric c && allNumeric s'
  end.

Definition headDigit (s : string) : bool :=
  match s with String c _ => isDigit c | EmptyString => false end.

(** [n] is the integer nearest to a / b, the even one of the two when
    a / b lies half way. *)
Definition nearest (a b n : Z) : Prop :=
  Z.abs (2 * a - 2 * n * b) < b
  \/ (Z.abs (2 * a - 2 * n * b) = b /\ Z.even n = true).

(** The record stands for the quotient a / b: the mantissa is its integer
    part, the round bit and the sticky bit place the rest against one
    half. *)
Definition placed (mrs : shr_record) (a b : Z) : Prop :=
  let m := shr_m mrs in
  match shr_r mrs, shr_s mrs with
  | false, false => a = m * b
  | false, true => m * b < a /\ 2 * a < (2 * m + 1) * b
  | true, false => 2 * a = (2 * m + 1) * b
  | true, true => (2 * m + 1) * b < 2 * a /\ a < (m + 1) * b
  end.

(** The weight of the exponent [E], in units of 2^-1074, the smallest
    weight a binary64 number has. *)
Definition weight (E : Z) : Z := 2 ^ (E + 1074).

(** A byte that the cleaning of NormalizePrice leaves alone wherever it
    stands: an ASCII byte that is neither white space, nor the dollar sign,
    nor the comma. *)
Definition plain (c : ascii) : bool :=
  (code c <? 128)%nat && negb (asciiSpace c)
  && negb (Ascii.eqb "$" c) && negb (Ascii.eqb "," c).

Fixpoint allPlain (s : string) : bool :=
  match s with
  | EmptyString => true
  | String c s' => plain c && allPlain s'
  end.

Local Close Scope Z_scope.

(** ** Notions used in the further properties *)

(** Every byte of [s] satisfies [p]; some byte of [s] does. *)
Fixpoint allBytes (p : ascii -> bool) (s : string) : bool :=
  match s with
  | EmptyString => true
  | String c s' => p c && allBytes p s'
  end.

Fixpoint someByte (p : ascii -> bool) (s : string) : bool :=
  match s with
  | EmptyString => false
  | String c s' => p c || someByte p s'
  end.

Definition headIs (p : ascii -> bool) (s : string) : bool :=
  match s with String c _ => p c | EmptyString => false end.

(** [w] occurs in [s]. *)
Definition occursIn (w s : string) : Prop := exists a b, s = a ++ w ++ b.

(** The longest prefix of [s] whose bytes satisfy [p], and the rest. *)
Fixpoint takeWhile (p : ascii -> bool) (s : string) : string :=
  match s with
  | String c s' => if p c then String c (takeWhile p s') else EmptyString
  | EmptyString => EmptyString
  end.

Fixpoint dropWhile (p : ascii -> bool) (s : string) : string :=
  match s with
  | String c s' => if p c then dropWhile p s' else s
  | EmptyString => EmptyString
  end.

(** The words of a pattern: a repetition k{lo,hi} stands for the strings
    of lo to hi bytes of the class k, a concatenation for the words of
    the first pattern followed by the words of the second, an alternation
    for the words of either; a group does not change the words. *)
Definition within (hi : option nat) (n : nat) : Prop :=
  match hi with Some h => (n <= h)%nat | None => True end.

Fixpoint lang (r : regex) (w : string) : Prop :=
  match r with
  | RRep k lo hi => allBytes (inCls k) w = true /\ (lo <= len w)%nat /\ within hi (len w)
  | RCat r1 r2 => exists a b, w = a ++ b /\ lang r1 a /\ lang r2 b
  | RAlt r1 r2 => lang r1 w \/ lang r2 w
  | RCap r1 => lang r1 w
  end.

(** The least length of a word of the pattern. *)
Fixpoint minLen (r : regex) : nat :=
  match r with
  | RRep _ lo _ => lo
  | RCat r1 r2 => minLen r1 + minLen r2
  | RAlt r1 r2 => Nat.min (minLen r1) (minLen r2)
  | RCap r1 => minLen r1
  end.

(** The five date patterns of normalize.go, by name. *)
Definition slashDate : regex :=
  RCat (Receipt.digits 1 2) (RCat (lit "/") (RCat (Receipt.digits 1 2)
    (RCat (lit "/") (Receipt.digits 2 4)))).
Definition dashDate : regex :=
  RCat (Receipt.digits 1 2) (RCat (lit "-") (RCat (Receipt.digits 1 2)
    (RCat (lit "-") (Receipt.digits 2 4)))).
Definition isoDate : regex :=
  RCat (Receipt.digits 4 4) (RCat (lit "-") (RCat (Receipt.digits 2 2)
    (RCat (lit "-") (Receipt.digits 2 2)))).
Definition monthDate : regex :=
  RCat (RRep CWord 3 (Some 3))
    (RCat (plus CSpace) (RCat (Receipt.digits 1 2) (RCat (opt (CByte ","))
      (RCat (plus CSpace) (Receipt.digits 4 4))))).
Definition dayMonthDate : regex :=
  RCat (Receipt.digits 1 2)
    (RCat (plus CSpace) (RCat (RRep CWord 3 (Some 3))
      (RCat (plus CSpace) (Receipt.digits 4 4)))).

(** A digit or a comma, the class of the price pattern; the dollar sign; a
    byte that makes containsPrice hold. *)
Definition priceByte (c : ascii) : bool := isDigit c || Ascii.eqb "," c.
Definition dollar (c : ascii) : bool := Ascii.eqb "$" c.
Definition priceMark (c : ascii) : bool := dollar c || priceByte c.

(** A point and the digits after it, at the start of [r]. *)
Definition fraction (r : string) : string :=
  match r with
  | String c r' => if Ascii.eqb "." c then String c (takeWhile isDigit r') else EmptyString
  | EmptyString => EmptyString
  end.

(** The number at the start of [s]: the digits and commas, then the
    fraction. *)
Definition number (s : string) : string :=
  takeWhile priceByte s ++ fraction (dropWhile priceByte s).

(** The first number of a line: the number that starts at the first digit
    or comma; empty when there is none. *)
Fixpoint firstNumber (s : string) : string :=
  match s with
  | String c s' => if priceByte c then number s else firstNumber s'
  | EmptyString => EmptyString
  end.

(** The string starts with a white-space rune, as TrimSpace reads it: an
    ASCII one, or the two or three bytes of another. *)
Definition leadSpace (s : string) : bool :=
  match s with
  | String a s1 =>
      asciiSpace a
      || match s1 with
         | String b s2 =>
             space2 a b
             || match s2 with String c _ => space3 a b c | EmptyString => false end
         | EmptyString => false
         end
  | EmptyString => false
  end.

(** The string ends with a white-space rune: the same test on the bytes
    read from the end. *)
Definition trailSpace (s : string) : bool :=
  match rev s with
  | String a s1 =>
      asciiSpace a
      || match s1 with
         | String b s2 =>
             space2 b a
             || match s2 with String c _ => space3 c b a | EmptyString => false end
         | EmptyString => false
         end
  | EmptyString => false
  end.

(** An ASCII byte that is not white space. *)
Definition visible (c : ascii) : bool := (code c <? 128)%nat && negb (asciiSpace c).

(** The lines classified as subtotal, and as item, by the chain of tests. *)
Definition subtotalLine (l : TextractLine) : bool :=
  containsPrice (Text l) && Contains (ToLower (Text l)) "subtotal".

Definition itemLine (l : TextractLine) : bool :=
  containsPrice (Text l)
  && negb (Contains (ToLower (Text l)) "subtotal")
  && negb (Contains (ToLower (Text l)) "tax")
  && negb (Contains (ToLower (Text l)) "total")
  && flt zero (extractPrice (Text l))
  && (1 <? len (extractItemName (Text l)))%nat.

(** The item appended for a line. *)
Definition itemOf (l : TextractLine) : gmap string any :=
  newItem (extractItemName (Text l)) (extractPrice (Text l)).

(** An amount of a receipt: a finite value that is not negative. *)
Definition amountOk (v : float64) : Prop := SFleb zero v = true /\ isInf v = false.

(** An item as the pass builds it: the three keys, the quantity 1, a name
    of two bytes or more without digit, comma, dollar sign and surrounding
    white space, and a finite price above zero. *)
Definition itemOk (it : gmap string any) : Prop :=
  exists name price,
    it = newItem name price
    /\ (2 <= len name)%nat /\ someByte priceMark name = false
    /\ leadSpace name = false /\ trailSpace name = false
    /\ flt zero price = true /\ isInf price = false.

(** Two lines of [l] that the comparison does not tell apart are the same
    line: no two different lines have the same key. *)
Definition sameKeySameLine (l : list TextractLine) : Prop :=
  forall a b, In a l -> In b l -> less a b = false -> less b a = false -> a = b.

(** A byte of a white-space rune: an ASCII white space, or a byte that is
    not ASCII. *)
Definition spaceByte (c : ascii) : bool := asciiSpace c || (128 <=? code c)%nat.

(** The object of a reply: an opening brace, anything, a closing brace. *)
Definition object (body : string) : string := "{" ++ body ++ "}".

(** The text holds the object, with no opening brace before it and no
    closing brace after it. *)
Definition holds (body t : string) : Prop :=
  exists P Q, t = P ++ object body ++ Q
    /\ someByte (Ascii.eqb "{") P = false /\ someByte (Ascii.eqb "}") Q = false.

(** * Properties *)

(** ** The loop body and its instrumentation *)

Ltac split_ifs :=
  repeat match goal with
         | |- context [if ?b then _ else _] => destruct b eqn:?
         end.

(** A field the body does not assign keeps its value. *)
Lemma body_frame i line st f :
  f ∉ assigned i line st -> get f (body i line st) = get f st.
Proof.
  unfold assigned, vendorAssigned, dateAssigned, amountAssigned, body.
  intros Hf. cbn zeta in *.
  destruct ((i <? 3)%nat && flt ninety (Confidence line) && isEmpty (vendor st)
            && (3 <? len (Text line))%nat) eqn:Hv;
  cbn [date setVendor] in *;
  destruct (containsDate (Text line) && isEmpty (date st)) eqn:Hd;
  destruct (containsPrice (Text line)) eqn:Hp;
  split_ifs; destruct f; try reflexivity;
  exfalso; apply Hf; cbn; repeat constructor.
Qed.

(** No assignment at all leaves the locals as they are. *)
Lemma body_idle i line st : assigned i line st = [] -> body i line st = st.
Proof.
  unfold assigned, vendorAssigned, dateAssigned, amountAssigned, body.
  cbn zeta.
  destruct ((i <? 3)%nat && flt ninety (Confidence line) && isEmpty (vendor st)
            && (3 <? len (Text line))%nat) eqn:Hv;
  cbn [date setVendor];
  destruct (containsDate (Text line) && isEmpty (date st)) eqn:Hd;
  destruct (containsPrice (Text line)) eqn:Hp;
  split_ifs; cbn; intros H; try discriminate H; reflexivity.
Qed.

Lemma loop_app i l1 l2 st :
  loop i (l1 ++ l2) st = loop (i + length l1) l2 (loop i l1 st).
Proof.
  revert i st. induction l1 as [|x l1 IH]; intros i st; cbn.
  - by rewrite Nat.add_0_r.
  - rewrite IH. f_equal. lia.
Qed.

Lemma loop_snoc i l x st :
  loop i (l ++ [x]) st = body (i + length l) x (loop i l st).
Proof. by rewrite loop_app. Qed.

(** ** The receipt map *)

Lemma receipt_lookup_vendor t :
  parseTextractToReceipt t !! "vendor" = Some (AString (vendor (loop 0 (Lines t) initLocals))).
Proof. reflexivity. Qed.

Lemma receipt_lookup_date t :
  parseTextractToReceipt t !! "date" = Some (AString (date (loop 0 (Lines t) initLocals))).
Proof. reflexivity. Qed.

Lemma receipt_lookup_tax t :
  parseTextractToReceipt t !! "tax" = Some (AFloat (tax (loop 0 (Lines t) initLocals))).
Proof. reflexivity. Qed.

Lemma receipt_lookup_total t :
  parseTextractToReceipt t !! "total" = Some (AFloat (total (loop 0 (Lines t) initLocals))).
Proof. reflexivity. Qed.

(** The amounts of the scenario, as binary64 values: mantissa and binary
    exponent. *)
Example scenario_amounts :
  f64 "4.99" = S754_finite false 5618240535144694 (-50)
  /\ f64 "0.40" = S754_finite false 7205759403792794 (-54)
  /\ f64 "5.39" = S754_finite false 6068600497881743 (-50)
  /\ f64 "90" = ninety.
Proof. vm_compute. repeat split. Qed.

(** C1: on the five fragments of the end-to-end scenario, ordering followed
    by classification and assembly yields the receipt with vendor
    "STORE NAME", the single item Milk (quantity 1, price 4.99), subtotal
    4.99, tax 0.40 and total 5.39; the date is empty, the notes are the
    fixed string and there is no anomaly. *)
Theorem end_to_end_scenario (pages : Z) (path : string) :
  parseTextractToReceipt (loadOutput pages path scenario) = scenarioReceipt.
Proof. vm_compute. reflexivity. Qed.

(** ** Vendor *)

Lemma isEmpty_true s : isEmpty s = true -> s = EmptyString.
Proof. apply String.eqb_eq. Qed.

Lemma isEmpty_long s n : (n <? len s)%nat = true -> isEmpty s = false.
Proof. destruct s; [destruct n; discriminate | reflexivity]. Qed.

Lemma body_vendor i line st :
  vendor (body i line st) =
  if (i <? 3)%nat && vendorCandidate line && isEmpty (vendor st)
  then Text line else vendor st.
Proof.
  unfold body, vendorCandidate. cbn zeta.
  destruct (i <? 3)%nat, (flt ninety (Confidence line)), (isEmpty (vendor st)),
    (3 <? len (Text line))%nat; cbn [andb]; split_ifs; reflexivity.
Qed.

Lemma loop_vendor lines : forall i st,
  vendor (loop i lines st) =
  if isEmpty (vendor st)
  then textOf (List.find vendorCandidate (List.firstn (3 - i) lines))
  else vendor st.
Proof.
  induction lines as [|line rest IH]; intros i st; cbn [loop].
  - destruct (isEmpty (vendor st)) eqn:E; [|reflexivity].
    apply isEmpty_true in E. rewrite E. by destruct (3 - i)%nat.
  - rewrite IH, body_vendor.
    destruct (isEmpty (vendor st)) eqn:E.
    + destruct (i <? 3)%nat eqn:Hi.
      * apply Nat.ltb_lt in Hi.
        replace (3 - i)%nat with (S (3 - S i)) by lia. cbn [List.firstn List.find].
        destruct (vendorCandidate line) eqn:Hc; cbn [andb].
        -- unfold vendorCandidate in Hc. apply andb_prop in Hc as [_ Hl].
           by rewrite (isEmpty_long _ _ Hl).
        -- by rewrite E.
      * apply Nat.ltb_ge in Hi. cbn [andb]. rewrite E.
        replace (3 - S i)%nat with 0%nat by lia.
        replace (3 - i)%nat with 0%nat by lia. reflexivity.
    + rewrite andb_false_r. by rewrite E.
Qed.

(** C8: the vendor of the receipt is the text of the first line, among the
    first three of the sequence, whose confidence exceeds 90 and whose text
    is longer than 3 bytes (empty when there is none); at an index of 3 or
    more the body neither assigns nor changes the vendor, whatever the
    confidence. *)
Theorem vendor_among_first_three (t : LoadTextractOutput) :
  parseTextractToReceipt t !! "vendor"
  = Some (AString (textOf (List.find vendorCandidate (List.firstn 3 (Lines t)))))
  /\ (forall i line st, (3 <= i)%nat ->
        (FVendor ∉ assigned i line st) /\ vendor (body i line st) = vendor st).
Proof.
  split.
  - rewrite receipt_lookup_vendor, loop_vendor. reflexivity.
  - intros i line st Hi. apply Nat.ltb_ge in Hi. split.
    + unfold assigned, vendorAssigned. rewrite Hi. cbn [andb app].
      intros H. apply elem_of_app in H as [H|H].
      * unfold dateAssigned in H. destruct (_ && _) in H; inversion H; subst.
        inversion H2.
      * unfold amountAssigned in H. cbn zeta in H.
        repeat match type of H with
               | context [if ?b then _ else _] => destruct b
               end; inversion H; subst; try inversion H2.
    + rewrite body_vendor, Hi. reflexivity.
Qed.

(** The vendor rule at a fragment in fifth position with confidence 99. *)
Lemma vendor_among_first_three_witness :
  (FVendor ∉ assigned 4 (fragment "LATE VENDOR" "99" "0.9" "0.1") initLocals)
  /\ vendor (body 4 (fragment "LATE VENDOR" "99" "0.9" "0.1") initLocals)
     = vendor initLocals.
Proof.
  apply (proj2 (vendor_among_first_three (loadOutput 1 "receipt.json" []))).
  lia.
Defined.

(** ** Date *)

Lemma containsDate_nonempty s : containsDate s = true -> isEmpty s = false.
Proof. destruct s; [discriminate | reflexivity]. Qed.

Lemma body_date i line st :
  date (body i line st) =
  if hasDate line && isEmpty (date st) then Text line else date st.
Proof.
  unfold body, hasDate. cbn zeta.
  destruct ((i <? 3)%nat && flt ninety (Confidence line) && isEmpty (vendor st)
            && (3 <? len (Text line))%nat); cbn [date setVendor];
  destruct (containsDate (Text line) && isEmpty (date st)); split_ifs; reflexivity.
Qed.

Lemma loop_date lines : forall i st,
  date (loop i lines st) =
  if isEmpty (date st) then textOf (List.find hasDate lines) else date st.
Proof.
  induction lines as [|line rest IH]; intros i st; cbn [loop List.find].
  - destruct (isEmpty (date st)) eqn:E; [|reflexivity].
    by apply isEmpty_true in E.
  - rewrite IH, body_date.
    destruct (isEmpty (date st)) eqn:E.
    + destruct (hasDate line) eqn:Hd; cbn [andb].
      * unfold hasDate in Hd. by rewrite (containsDate_nonempty _ Hd).
      * by rewrite E.
    + rewrite andb_false_r. by rewrite E.
Qed.

(** C3, as the code has it: the date of the receipt is the whole text of
    the first line whose text contains a match of the date pattern (M/D/Y
    or Y-M-D), and empty when no line does. *)
Theorem date_is_whole_text (t : LoadTextractOutput) :
  parseTextractToReceipt t !! "date"
  = Some (AString (textOf (List.find hasDate (Lines t)))).
Proof. rewrite receipt_lookup_date, loop_date. reflexivity. Qed.

(** C3 as stated fails: for the single fragment "Date: 03/15/2024" the
    matched substring is "03/15/2024", for ExtractDate and for the
    pattern of containsDate alike, and the date of the receipt is the
    whole text. *)
Lemma date_not_matched_substring :
  let text := "Date: 03/15/2024" in
  let t := loadOutput 1 "receipt.json" [fragment text "99" "0.2" "0.1"] in
  Receipt.ExtractDate text = "03/15/2024"
  /\ FindString dateRegex text = "03/15/2024"
  /\ parseTextractToReceipt t !! "date" = Some (AString text)
  /\ parseTextractToReceipt t !! "date" <> Some (AString (Receipt.ExtractDate text)).
Proof. vm_compute. repeat split; discriminate. Qed.

(** ** Amounts *)

Lemma findLast_snoc {A} (p : A -> bool) l x :
  findLast p (l ++ [x]) = if p x then Some x else findLast p l.
Proof. unfold findLast. rewrite List.rev_app_distr. reflexivity. Qed.

Lemma body_tax i line st :
  tax (body i line st) = if taxLine line then extractPrice (Text line) else tax st.
Proof.
  unfold body, taxLine. cbn zeta.
  destruct (containsPrice (Text line)),
    (Contains (ToLower (Text line)) "subtotal"),
    (Contains (ToLower (Text line)) "tax"); cbn [andb negb];
  split_ifs; reflexivity.
Qed.

Lemma body_total i line st :
  total (body i line st) = if totalLine line then extractPrice (Text line) else total st.
Proof.
  unfold body, totalLine. cbn zeta.
  destruct (containsPrice (Text line)),
    (Contains (ToLower (Text line)) "subtotal"),
    (Contains (ToLower (Text line)) "tax"),
    (Contains (ToLower (Text line)) "total"); cbn [andb negb];
  split_ifs; reflexivity.
Qed.

Lemma loop_tax lines :
  tax (loop 0 lines initLocals) = amountOf (findLast taxLine lines).
Proof.
  induction lines as [|x l IH] using rev_ind; [reflexivity|].
  rewrite loop_snoc, body_tax, findLast_snoc, IH.
  by destruct (taxLine x).
Qed.

Lemma loop_total lines :
  total (loop 0 lines initLocals) = amountOf (findLast totalLine lines).
Proof.
  induction lines as [|x l IH] using rev_ind; [reflexivity|].
  rewrite loop_snoc, body_total, findLast_snoc, IH.
  by destruct (totalLine x).
Qed.

(** C10, as the code has it: the last match wins for tax and for total.
    The tax of the receipt is the amount of the last price-bearing line
    whose lower-cased text contains "tax" and not "subtotal"; the total is
    the amount of the last price-bearing line whose lower-cased text
    contains "total" and neither "subtotal" nor "tax".  Without such a
    line the field is zero. *)
Theorem tax_total_last_match (t : LoadTextractOutput) :
  parseTextractToReceipt t !! "tax"
    = Some (AFloat (amountOf (findLast taxLine (Lines t))))
  /\ parseTextractToReceipt t !! "total"
    = Some (AFloat (amountOf (findLast totalLine (Lines t)))).
Proof.
  rewrite receipt_lookup_tax, receipt_lookup_total, loop_tax, loop_total.
  split; reflexivity.
Qed.

(** C10 as stated fails for the total: in the sequence below two lines
    bear a price and contain "tax" without "subtotal", and the tax is the
    amount of the last of them; but the last line that contains "total"
    without "subtotal" is "Total Tax $0.40", which the chain of tests
    classifies as tax, so the total stays 5.39 and not its amount 0.40. *)
Lemma total_not_last_total_word :
  let lines := [ fragment "Total $5.39" "97" "0.60" "0.1";
                 fragment "Tax $0.10" "96" "0.65" "0.1";
                 fragment "Total Tax $0.40" "96" "0.70" "0.1" ] in
  let t := loadOutput 1 "receipt.json" lines in
  map Text (List.filter taxLine (Lines t)) = ["Tax $0.10"; "Total Tax $0.40"]
  /\ parseTextractToReceipt t !! "tax" = Some (AFloat (f64 "0.40"))
  /\ textOf (findLast totalWord (Lines t)) = "Total Tax $0.40"
  /\ amountOf (findLast totalWord (Lines t)) = f64 "0.40"
  /\ parseTextractToReceipt t !! "total" = Some (AFloat (f64 "5.39"))
  /\ parseTextractToReceipt t !! "total"
     <> Some (AFloat (amountOf (findLast totalWord (Lines t)))).
Proof. vm_compute. repeat split; discriminate. Qed.

(** ** One fragment, several fields *)

(** C2, as the code has it: the body tests the vendor rule, then the date
    rule, then the amount rules, each in an [if] of its own.  The amount
    rules exclude one another: a fragment is assigned to at most one of
    subtotal, tax, total and the items.  The vendor and the date
    assignments come before and on top of it, each at most once, so a
    fragment is assigned to at most three fields, and every field it is
    not assigned to keeps its value. *)
Theorem amount_rules_exclusive (i : nat) (line : TextractLine) (st : locals) :
  (exists v d a : list field,
      assigned i line st = (v ++ d ++ a)%list
      /\ (v = [] \/ v = [FVendor])
      /\ (d = [] \/ d = [FDate])
      /\ (a = [] \/ a = [FSubtotal] \/ a = [FTax] \/ a = [FTotal] \/ a = [FItems]))
  /\ (forall f, (f ∉ assigned i line st) -> get f (body i line st) = get f st).
Proof.
  split; [|intros f; apply body_frame].
  exists (vendorAssigned i line st), (dateAssigned line st), (amountAssigned line).
  split; [reflexivity|]. repeat split.
  - unfold vendorAssigned. destruct (_ && _); auto.
  - unfold dateAssigned. destruct (_ && _); auto.
  - unfold amountAssigned. cbn zeta. split_ifs; auto 6.
Qed.

Lemma amount_rules_exclusive_witness :
  get FTotal (body 3 (fragment "Tax $0.40" "96" "0.55" "0.1") initLocals)
  = get FTotal initLocals.
Proof.
  apply (proj2 (amount_rules_exclusive 3 (fragment "Tax $0.40" "96" "0.55" "0.1")
                  initLocals)).
  vm_compute. intros H. inversion H; subst. inversion H2.
Defined.

(** C2 as stated fails: the first fragment below, read with confidence 99,
    is assigned to the vendor, to the date and to the items at once, and
    the three fields of the receipt come from it. *)
Lemma one_fragment_three_fields :
  let line := fragment "12/25/2024 $5.00" "99" "0.05" "0.1" in
  let t := loadOutput 1 "receipt.json" [line] in
  assigned 0 line initLocals = [FVendor; FDate; FItems]
  /\ ~ (length (assigned 0 line initLocals) <= 1)%nat
  /\ parseTextractToReceipt t !! "vendor" = Some (AString "12/25/2024 $5.00")
  /\ parseTextractToReceipt t !! "date" = Some (AString "12/25/2024 $5.00")
  /\ parseTextractToReceipt t !! "items"
     = Some (AMaps [ {[ "name" := AString "//"; "qty" := AInt 1;
                        "price" := AFloat (f64 "12") ]} ]).
Proof. vm_compute. repeat split. lia. Qed.

(** ** The shape of the receipt *)

Lemma trace_idle lines : forall i st,
  trace i lines st = [] -> loop i lines st = st.
Proof.
  induction lines as [|line rest IH]; intros i st; cbn [trace loop]; [done|].
  intros H. apply app_eq_nil in H as [Ha Hr].
  apply map_eq_nil in Ha. rewrite (body_idle _ _ _ Ha) in *. by apply IH.
Qed.

(** C5: the pass is a total function of the lines.  Whatever they are, the
    receipt has exactly the eight keys of the schema, with a string for
    the vendor and for the date, a list of items, a number for the
    subtotal, the tax and the total, the fixed notes and no anomaly; when
    no line was classified the six computed fields have their empty or
    zero defaults. *)
Theorem receipt_fully_formed (t : LoadTextractOutput) :
  dom (parseTextractToReceipt t)
    = ({[ "vendor"; "date"; "items"; "subtotal"; "tax"; "total";
          "confidence_notes"; "anomalies" ]} : gset string)
  /\ (exists v d its s x tt,
        parseTextractToReceipt t !! "vendor" = Some (AString v)
        /\ parseTextractToReceipt t !! "date" = Some (AString d)
        /\ parseTextractToReceipt t !! "items" = Some (AMaps its)
        /\ parseTextractToReceipt t !! "subtotal" = Some (AFloat s)
        /\ parseTextractToReceipt t !! "tax" = Some (AFloat x)
        /\ parseTextractToReceipt t !! "total" = Some (AFloat tt))
  /\ parseTextractToReceipt t !! "confidence_notes"
       = Some (AString "Parsed from Textract OCR output")
  /\ parseTextractToReceipt t !! "anomalies" = Some (AStrings [])
  /\ (trace 0 (Lines t) initLocals = [] ->
      parseTextractToReceipt t
      = {[ "vendor" := AString EmptyString; "date" := AString EmptyString;
           "items" := AMaps []; "subtotal" := AFloat zero; "tax" := AFloat zero;
           "total" := AFloat zero;
           "confidence_notes" := AString "Parsed from Textract OCR output";
           "anomalies" := AStrings [] ]}).
Proof.
  split; [|split; [|split; [|split]]].
  - unfold parseTextractToReceipt, store, newReceipt.
    rewrite !dom_insert_L, dom_empty_L. set_solver.
  - set (st := loop 0 (Lines t) initLocals).
    exists (vendor st), (date st), (items st), (subtotal st), (tax st), (total st).
    repeat split; reflexivity.
  - reflexivity.
  - reflexivity.
  - intros H. unfold parseTextractToReceipt. rewrite (trace_idle _ _ _ H).
    vm_compute. reflexivity.
Qed.

Lemma receipt_fully_formed_witness :
  parseTextractToReceipt (loadOutput 1 "receipt.json" [fragment "hi" "50" "0.1" "0.1"])
  = {[ "vendor" := AString EmptyString; "date" := AString EmptyString;
       "items" := AMaps []; "subtotal" := AFloat zero; "tax" := AFloat zero;
       "total" := AFloat zero;
       "confidence_notes" := AString "Parsed from Textract OCR output";
       "anomalies" := AStrings [] ]}.
Proof.
  apply (proj2 (proj2 (proj2 (proj2 (receipt_fully_formed
    (loadOutput 1 "receipt.json" [fragment "hi" "50" "0.1" "0.1"])))))).
  vm_compute. reflexivity.
Defined.

(** ** Quantities *)

(** C9: a token whose trimmed form Atoi rejects, or reads as an integer
    below 1, has the default quantity 1; so have the empty token, "abc",
    "0" and "-3", and "4" has the quantity 4. *)
Theorem parse_quantity_default :
  (forall s,
      snd (Atoi (TrimSpace s)) <> None \/ (fst (Atoi (TrimSpace s)) < 1)%Z ->
      Receipt.ParseQuantity s = 1%Z)
  /\ Receipt.ParseQuantity EmptyString = 1%Z
  /\ Receipt.ParseQuantity "abc" = 1%Z
  /\ Receipt.ParseQuantity "0" = 1%Z
  /\ Receipt.ParseQuantity "-3" = 1%Z
  /\ Receipt.ParseQuantity "4" = 4%Z.
Proof.
  split; [|repeat split; reflexivity].
  intros s H. unfold Receipt.ParseQuantity.
  destruct (Atoi (TrimSpace s)) as [qty [e|]]; cbn [fst snd] in H; [reflexivity|].
  destruct H as [H|H]; [congruence|].
  apply Z.ltb_lt in H. by rewrite H.
Qed.

Lemma parse_quantity_default_witness : Receipt.ParseQuantity " -3 " = 1%Z.
Proof.
  apply (proj1 parse_quantity_default " -3 "). right. vm_compute. reflexivity.
Defined.

(** ** The order of float64 values *)

Local Open Scope Z_scope.

Lemma compare_rank a b :
  isNaN a = false -> isNaN b = false ->
  exists c, SFcompare a b = Some c /\ ofCmp c (rank a) (rank b).
Proof.
  destruct a as [sa|sa| |sa ma ea], b as [sb|sb| |sb mb eb];
    try discriminate; intros _ _; cbn [SFcompare rank].
  all: try (destruct sa); try (destruct sb).
  all: try (eexists; split; [reflexivity|]; cbv [ofCmp lexLt fst snd]; first [reflexivity | lia]).
  all: rewrite ?Pos.compare_cont_spec.
  all: change (Pos.compare ma mb) with (Z.compare (Zpos ma) (Zpos mb)).
  all: destruct (Z.compare_spec ea eb), (Z.compare_spec (Zpos ma) (Zpos mb)).
  all: eexists; (split; [reflexivity|]); cbn [CompOpp Pos.switch_Eq]; cbv [ofCmp lexLt fst snd].
  all: first [lia | congruence].
Qed.

Lemma flt_rank a b : isNaN a = false -> isNaN b = false ->
  (flt a b = true <-> lexLt (rank a) (rank b)).
Proof.
  intros Ha Hb. destruct (compare_rank a b Ha Hb) as (c & Hc & Ho).
  unfold flt, SFltb. rewrite Hc.
  destruct (rank a) as [[a1 a2] a3], (rank b) as [[b1 b2] b3].
  destruct c; cbv [ofCmp lexLt fst snd] in *; split; intros H; try discriminate; try reflexivity.
  all: try (inversion Ho; subst; lia). all: lia.
Qed.

Lemma feq_rank a b : isNaN a = false -> isNaN b = false ->
  (feq a b = true <-> rank a = rank b).
Proof.
  intros Ha Hb. destruct (compare_rank a b Ha Hb) as (c & Hc & Ho).
  unfold feq, SFeqb. rewrite Hc.
  destruct (rank a) as [[a1 a2] a3], (rank b) as [[b1 b2] b3].
  destruct c; cbv [ofCmp lexLt fst snd] in *; split; intros H; try discriminate; try reflexivity; try assumption.
  all: inversion H; subst; lia.
Qed.

Lemma fle_rank a b : isNaN a = false -> isNaN b = false ->
  (SFleb a b = true <-> (lexLt (rank a) (rank b) \/ rank a = rank b)).
Proof.
  intros Ha Hb. destruct (compare_rank a b Ha Hb) as (c & Hc & Ho).
  unfold SFleb. rewrite Hc.
  destruct (rank a) as [[a1 a2] a3], (rank b) as [[b1 b2] b3].
  destruct c; cbv [ofCmp lexLt fst snd] in *; split; intros H; try discriminate; try reflexivity; auto.
  all: destruct H as [H|H]; [|inversion H; subst]; lia.
Qed.

(** ** Ordering *)

Lemma lexEq_eq a b : a = b <-> lexEq a b.
Proof.
  destruct a as [[a1 a2] a3], b as [[b1 b2] b3]. cbv [lexEq fst snd].
  split; [intros H; inversion H; auto | intros (-> & -> & ->); reflexivity].
Qed.

Ltac ranks :=
  repeat match goal with
         | |- context [rank ?f] =>
             let a := fresh "a" in let b := fresh "b" in let c := fresh "c" in
             destruct (rank f) as [[a b] c]
         | H : context [rank ?f] |- _ =>
             let a := fresh "a" in let b := fresh "b" in let c := fresh "c" in
             destruct (rank f) as [[a b] c]
         end;
  cbv [lexLt lexEq fst snd] in *.

Lemma less_keyLt a b : positioned a -> positioned b ->
  (less a b = true <-> keyLt a b).
Proof.
  intros [Ha1 Ha2] [Hb1 Hb2]. unfold less, fne, keyLt.
  pose proof (feq_rank _ _ Ha1 Hb1) as He. rewrite lexEq_eq in He.
  pose proof (flt_rank _ _ Ha1 Hb1) as Ht.
  pose proof (flt_rank _ _ Ha2 Hb2) as Hl.
  unfold feq in He.
  destruct (SFeqb (Top a) (Top b)); cbn [negb]; cbv iota.
  - rewrite Hl. destruct He as [He _]. specialize (He eq_refl).
    ranks. lia.
  - rewrite Ht. destruct He as [_ He].
    split; [auto|]. intros [H|[H _]]; [done|]. by specialize (He H).
Qed.

Lemma keyLt_asym a b : keyLt a b -> keyLt b a -> False.
Proof. unfold keyLt. ranks. lia. Qed.

Lemma keyLt_cotrans a b c : keyLt a c -> keyLt a b \/ keyLt b c.
Proof. unfold keyLt. ranks. lia. Qed.

Lemma keyLe_of_not_less a b : positioned a -> positioned b ->
  less b a = false -> keyLe a b.
Proof.
  intros Ha Hb H. pose proof (less_keyLt b a Hb Ha) as Hk.
  assert (~ keyLt b a) as Hn by (rewrite <- Hk; congruence).
  destruct Ha as [Ha1 Ha2], Hb as [Hb1 Hb2]. unfold keyLe.
  rewrite (flt_rank _ _ Ha1 Hb1), (feq_rank _ _ Ha1 Hb1), (fle_rank _ _ Ha2 Hb2).
  rewrite !lexEq_eq. unfold keyLt in Hn. ranks. lia.
Qed.

Lemma insertLine_perm x acc : Permutation (x :: acc) (insertLine x acc).
Proof.
  induction acc as [|y acc IH]; cbn [insertLine]; [reflexivity|].
  destruct (less x y); [|reflexivity].
  rewrite perm_swap. by apply perm_skip.
Qed.

Lemma fold_insert_perm lines : forall acc,
  Permutation (lines ++ acc) (fold_left (fun acc x => insertLine x acc) lines acc).
Proof.
  induction lines as [|x lines IH]; intros acc; cbn [fold_left app]; [reflexivity|].
  rewrite <- IH, <- insertLine_perm. by rewrite Permutation_middle.
Qed.

Lemma sortLines_perm lines : Permutation lines (sortLines lines).
Proof.
  unfold sortLines. rewrite <- Permutation_rev, <- fold_insert_perm.
  by rewrite app_nil_r.
Qed.

Lemma notLess_trans x y z :
  positioned x -> positioned y -> positioned z ->
  notLess x y -> notLess y z -> notLess x z.
Proof.
  unfold notLess. intros Hx Hy Hz Hxy Hyz.
  destruct (less x z) eqn:E; [|reflexivity].
  apply (less_keyLt _ _ Hx Hz) in E.
  destruct (keyLt_cotrans x y z E) as [H|H].
  - apply (less_keyLt _ _ Hx Hy) in H. congruence.
  - apply (less_keyLt _ _ Hy Hz) in H. congruence.
Qed.

Lemma less_notLess x y :
  positioned x -> positioned y -> less x y = true -> notLess y x.
Proof.
  unfold notLess. intros Hx Hy H. destruct (less y x) eqn:E; [|reflexivity].
  apply (less_keyLt _ _ Hx Hy) in H. apply (less_keyLt _ _ Hy Hx) in E.
  destruct (keyLt_asym _ _ H E).
Qed.

Lemma insertLine_sorted x acc :
  positioned x -> Forall positioned acc ->
  StronglySorted notLess acc -> StronglySorted notLess (insertLine x acc).
Proof.
  intros Hx. induction acc as [|y acc IH]; intros Hp Hs; cbn [insertLine].
  - repeat constructor.
  - apply Forall_cons in Hp as [Hy Hp]. apply StronglySorted_inv in Hs as [Hs Hall].
    destruct (less x y) eqn:E.
    + constructor; [by apply IH|].
      rewrite <- insertLine_perm. constructor; [by apply less_notLess|done].
    + constructor; [by constructor|].
      constructor; [done|].
      rewrite List.Forall_forall in Hall, Hp |- *. intros z Hz.
      apply (notLess_trans x y z); [done|done|by apply Hp|done|by apply Hall].
Qed.

Lemma fold_insert_sorted lines : forall acc,
  Forall positioned lines -> Forall positioned acc ->
  StronglySorted notLess acc ->
  StronglySorted notLess (fold_left (fun acc x => insertLine x acc) lines acc).
Proof.
  induction lines as [|x lines IH]; intros acc Hl Hd Hs; cbn [fold_left]; [done|].
  apply Forall_cons in Hl as [Hx Hl]. apply IH; [done| |by apply insertLine_sorted].
  rewrite <- insertLine_perm. by constructor.
Qed.

Lemma sorted_snoc {A} (R : A -> A -> Prop) l x :
  StronglySorted R l -> Forall (fun y => R y x) l -> StronglySorted R (l ++ [x]).
Proof.
  induction l as [|y l IH]; intros Hs Hall; cbn [app]; [repeat constructor|].
  apply StronglySorted_inv in Hs as [Hs Hy]. apply Forall_cons in Hall as [Hyx Hall].
  constructor; [by apply IH|]. apply Forall_app. split; [done|by constructor].
Qed.

Lemma sorted_rev {A} (R : A -> A -> Prop) l :
  StronglySorted R l -> StronglySorted (fun a b => R b a) (List.rev l).
Proof.
  induction l as [|y l IH]; intros Hs; cbn [List.rev]; [constructor|].
  apply StronglySorted_inv in Hs as [Hs Hy].
  apply sorted_snoc; [by apply IH|]. 
  rewrite List.Forall_forall in Hy |- *. intros z Hz. apply Hy. by apply in_rev.
Qed.

Lemma sorted_keyLe l :
  Forall positioned l -> StronglySorted (fun a b => notLess b a) l ->
  StronglySorted keyLe l.
Proof.
  induction l as [|x l IH]; intros Hp Hs; [constructor|].
  apply Forall_cons in Hp as [Hx Hp]. apply StronglySorted_inv in Hs as [Hs Hall].
  constructor; [by apply IH|].
  rewrite List.Forall_forall in Hall, Hp |- *. intros z Hz.
  apply keyLe_of_not_less; auto. by apply Hall.
Qed.

(** C6: for lines whose coordinates are numbers (none is NaN), the
    ordering step returns a permutation of its input in which every line
    precedes only lines of a greater or equal key (top, left): a smaller
    top, or an equal top and a smaller or equal left.  Run again on the
    same input, it returns the same sequence. *)
Theorem ordering_sorted_permutation (lines : list TextractLine) :
  Forall positioned lines ->
  Permutation lines (sortLines lines)
  /\ StronglySorted keyLe (sortLines lines)
  /\ (forall again, again = lines -> sortLines again = sortLines lines).
Proof.
  intros Hp. split; [apply sortLines_perm|]. split; [|by intros ? ->].
  apply sorted_keyLe.
  - by rewrite <- sortLines_perm.
  - unfold sortLines. apply sorted_rev, fold_insert_sorted; [done|constructor|constructor].
Qed.

Lemma ordering_sorted_permutation_witness :
  Permutation (List.rev scenario) (sortLines (List.rev scenario))
  /\ StronglySorted keyLe (sortLines (List.rev scenario))
  /\ (forall again, again = List.rev scenario ->
       sortLines again = sortLines (List.rev scenario)).
Proof.
  apply (ordering_sorted_permutation (List.rev scenario)).
  repeat constructor.
Defined.

Example ordering_scenario : sortLines (List.rev scenario) = scenario.
Proof. vm_compute. reflexivity. Qed.

(** ** Price normalization *)

Lemma binary_round_aux_signed s m e l : signed s (binary_round_aux prec emax s m e l).
Proof.
  unfold binary_round_aux.
  destruct (shr_fexp prec emax m e l) as [mrs e'].
  destruct (shr_fexp prec emax _ e' loc_Exact) as [mrs' e''].
  destruct (shr_m mrs'); [reflexivity| |exact I].
  destruct (e'' <=? emax - prec); reflexivity.
Qed.

Lemma binary_round_signed s m e : signed s (binary_round prec emax s m e).
Proof.
  unfold binary_round. destruct (shl_align _ _ _). apply binary_round_aux_signed.
Qed.

Lemma decimalToFloat_signed s m e : signed s (decimalToFloat s m e).
Proof.
  unfold decimalToFloat. destruct m; try reflexivity.
  destruct (0 <=? e); [apply binary_round_signed|].
  unfold SFdiv. destruct (SFdiv_core_binary _ _ _ _ _ _) as [[mz ez] lz].
  rewrite xorb_false_r. apply binary_round_aux_signed.
Qed.

Lemma hexToFloat_signed s m e : signed s (hexToFloat s m e).
Proof. unfold hexToFloat. destruct m; try reflexivity. apply binary_round_signed. Qed.

Lemma isByte_eqb c n : (n < 256)%nat -> isByte c n = Ascii.eqb (ascii_of_nat n) c.
Proof.
  intros Hn. unfold isByte, code.
  destruct (Ascii.eqb_spec (ascii_of_nat n) c) as [<-|Hne].
  - rewrite nat_ascii_embedding by done. apply Nat.eqb_refl.
  - apply Nat.eqb_neq. intros H. apply Hne. rewrite <- H. apply ascii_nat_embedding.
Qed.

Lemma infinity_signed s sign nsign f n :
  infinity s sign nsign = Some (f, n) -> signed sign f.
Proof.
  unfold infinity. cbv zeta. destruct (_ || _); [|discriminate].
  intros H. by simplify_eq.
Qed.

Lemma special_signed s f n :
  special s = Some (f, n) -> HasPrefix s "-" = false -> signed false f.
Proof.
  destruct s as [|c s]; [discriminate|]. cbn [special HasPrefix].
  rewrite (isByte_eqb c 45) by lia. change (ascii_of_nat 45) with "-"%char.
  destruct (isByte c 43); [intros H _; by apply infinity_signed in H|].
  destruct (Ascii.eqb "-" c); [intros _ H; destruct s; discriminate H|].
  destruct (_ || _); [intros H _; by apply infinity_signed in H|].
  destruct (_ || _); [|discriminate].
  destruct (_ =? _)%nat; [|discriminate]. intros H _. by simplify_eq.
Qed.

Lemma readFloat_neg s nb :
  readFloat s = Some nb -> HasPrefix s "-" = false -> n_neg nb = false.
Proof.
  destruct s as [|c s]; [discriminate|]. cbn [readFloat HasPrefix].
  rewrite (isByte_eqb c 45) by lia. change (ascii_of_nat 45) with "-"%char.
  destruct (isByte c 43).
  - intros H _. repeat case_match; by simplify_eq.
  - destruct (Ascii.eqb "-" c); [intros _ H; destruct s; discriminate H|].
    intros H _. repeat case_match; by simplify_eq.
Qed.

Lemma ParseFloat_signed s :
  HasPrefix s "-" = false -> signed false (fst (ParseFloat s)).
Proof.
  intros Hs. unfold ParseFloat.
  destruct (special s) as [[f n]|] eqn:Hsp.
  - destruct (_ =? _)%nat; cbn [fst]; [|reflexivity]. by apply (special_signed s f n).
  - destruct (readFloat s) as [nb|] eqn:Hr; [|reflexivity].
    rewrite (readFloat_neg s nb Hr Hs).
    destruct (negb _); [reflexivity|]. cbn [fst].
    destruct (n_hex nb); [apply hexToFloat_signed|apply decimalToFloat_signed].
Qed.

Lemma signed_false_nonneg f :
  signed false f -> isNaN f = true \/ SFleb zero f = true.
Proof. destruct f as [b|b| |b m e]; cbn; intros H; subst; auto. Qed.

(** C4, as the code has it: NormalizePrice trims the white space, strips
    one leading dollar sign and every comma, and hands the rest to
    ParseFloat; when ParseFloat fails the result is exactly zero and no
    error is raised.  The result is not negative (it is NaN, or zero is
    less than or equal to it) whenever the cleaned token does not start
    with a minus sign. *)
Theorem normalize_price_contract (s : string) :
  Receipt.NormalizePrice s
    = match ParseFloat (cleanedToken s) with
      | (_, Some _) => zero
      | (val, None) => val
      end
  /\ (snd (ParseFloat (cleanedToken s)) <> None -> Receipt.NormalizePrice s = zero)
  /\ (HasPrefix (cleanedToken s) "-" = false ->
      isNaN (Receipt.NormalizePrice s) = true
      \/ SFleb zero (Receipt.NormalizePrice s) = true).
Proof.
  split; [reflexivity|]. unfold Receipt.NormalizePrice. fold (cleanedToken s). split.
  - destruct (ParseFloat (cleanedToken s)) as [v [e|]]; [reflexivity|]. by intros H.
  - intros H. apply signed_false_nonneg. apply ParseFloat_signed in H.
    destruct (ParseFloat (cleanedToken s)) as [v [e|]]; [reflexivity|exact H].
Qed.

Lemma normalize_price_contract_witness :
  Receipt.NormalizePrice "N/A" = zero
  /\ (isNaN (Receipt.NormalizePrice "  $1,234.56  ") = true
      \/ SFleb zero (Receipt.NormalizePrice "  $1,234.56  ") = true).
Proof.
  split.
  - apply (proj1 (proj2 (normalize_price_contract "N/A"))).
    vm_compute. discriminate.
  - apply (proj2 (proj2 (normalize_price_contract "  $1,234.56  "))).
    vm_compute. reflexivity.
Defined.

(** C4 as stated fails: the token "-5" is parsed with its sign, and the
    amount returned is minus five, which is below zero. *)
Lemma normalize_price_negative :
  Receipt.NormalizePrice "-5" = S754_finite true 5629499534213120 (-50)
  /\ flt (Receipt.NormalizePrice "-5") zero = true
  /\ SFleb zero (Receipt.NormalizePrice "-5") = false.
Proof. vm_compute. repeat split. Qed.

Example is_price_examples :
  map Receipt.IsPrice ["$12.99"; "1,234.56"; " $5 "; "12.9.9"; "abc"; "$"; "Tax $1.42"]
  = [true; true; true; false; false; false; false].
Proof. reflexivity. Qed.

(** The literal cases of the price table. *)
Example price_table :
  Receipt.NormalizePrice "$12.99" = f64 "12.99"
  /\ Receipt.NormalizePrice "1,234.56" = f64 "1234.56"
  /\ Receipt.NormalizePrice "$0" = zero
  /\ Receipt.NormalizePrice "N/A" = zero
  /\ Receipt.NormalizePrice "  $3.50  " = f64 "3.50".
Proof. vm_compute. repeat split. Qed.

(** ** Rounding to binary64

    The rounding of SpecFloat, at precision 53: what it returns is a
    well-formed binary64 value, and the quotient of two integers comes
    out as the binary64 value nearest to it. *)

Lemma fexp_unfold e : fexp prec emax e = Z.max (e - 53) (-1074).
Proof. reflexivity. Qed.

Lemma digits2_size p : digits2_pos p = Pos.size p.
Proof. induction p; cbn; congruence. Qed.

Lemma Zdigits2_log2 m : 0 < m -> Zdigits2 m = Z.log2 m + 1.
Proof.
  destruct m as [|p|p]; try lia. intros _. cbn [Zdigits2]. rewrite digits2_size.
  destruct p; cbn [Pos.size Z.log2]; lia.
Qed.

Lemma Zdigits2_nonneg m : 0 <= Zdigits2 m.
Proof. destruct m; cbn; lia. Qed.

Lemma Zdigits2_mono a b : 0 <= a <= b -> Zdigits2 a <= Zdigits2 b.
Proof.
  intros [Ha Hab]. destruct (Z.eq_dec a 0) as [->|Hn].
  - apply Zdigits2_nonneg.
  - rewrite !Zdigits2_log2 by lia. pose proof (Z.log2_le_mono a b Hab). lia.
Qed.

Lemma shr_1_m mrs : 0 <= shr_m mrs -> shr_m (shr_1 mrs) = Z.div2 (shr_m mrs).
Proof. destruct mrs as [[|[p|p|]|p] r s]; cbn; intros H; try reflexivity; lia. Qed.

Lemma shr_1_nonneg mrs : 0 <= shr_m mrs -> 0 <= shr_m (shr_1 mrs).
Proof. intros H. rewrite shr_1_m by done. apply Z.div2_nonneg. done. Qed.

Lemma iter_shr_m p : forall mrs, 0 <= shr_m mrs ->
  shr_m (SpecFloat.iter_pos shr_1 p mrs) = Z.shiftr (shr_m mrs) (Zpos p).
Proof.
  induction p as [p IH|p IH|]; intros mrs Hm; cbn [SpecFloat.iter_pos].
  - pose proof (shr_1_nonneg mrs Hm) as H1.
    pose proof (IH _ H1) as E1.
    assert (0 <= shr_m (SpecFloat.iter_pos shr_1 p (shr_1 mrs))) as H2
      by (rewrite E1; apply Z.shiftr_nonneg; done).
    rewrite (IH _ H2), E1, shr_1_m, Z.div2_spec by done.
    rewrite !Z.shiftr_shiftr by lia. f_equal. lia.
  - pose proof (IH _ Hm) as E1.
    assert (0 <= shr_m (SpecFloat.iter_pos shr_1 p mrs)) as H2
      by (rewrite E1; apply Z.shiftr_nonneg; done).
    rewrite (IH _ H2), E1. rewrite !Z.shiftr_shiftr by lia. f_equal. lia.
  - rewrite shr_1_m, Z.div2_spec by lia. reflexivity.
Qed.

Lemma shr_record_m m l : shr_m (shr_record_of_loc m l) = m.
Proof. destruct l as [|[]]; reflexivity. Qed.

Lemma shr_fexp_spec m e l :
  precise m e ->
  snd (shr_fexp prec emax m e l) = fexp prec emax (Zdigits2 m + e)
  /\ shr_m (fst (shr_fexp prec emax m e l))
     = Z.shiftr m (fexp prec emax (Zdigits2 m + e) - e).
Proof.
  intros [Hm He]. unfold shr_fexp, shr.
  destruct (fexp prec emax (Zdigits2 m + e) - e) as [|p|p] eqn:E; cbn [fst snd].
  - rewrite shr_record_m, Z.shiftr_0_r. split; [lia|reflexivity].
  - rewrite iter_shr_m, shr_record_m by (rewrite shr_record_m; lia).
    split; [lia|reflexivity].
  - lia.
Qed.

Lemma shifted_canonical m e :
  precise m e ->
  let E := fexp prec emax (Zdigits2 m + e) in
  let m' := Z.shiftr m (E - e) in
  0 <= m' /\ (0 < m' -> fexp prec emax (Zdigits2 m' + E) = E) /\ (m' = 0 -> E = -1074).
Proof.
  intros [Hm He] E m'. 
  assert (0 <= m') as Hm' by (apply Z.shiftr_nonneg; lia).
  split; [done|]. split.
  - intros Hpos. destruct (Z.eq_dec m 0) as [->|Hn].
    { subst m'. rewrite Z.shiftr_0_l in Hpos. lia. }
    assert (Z.log2 m' = Z.log2 m - (E - e)) as Hl.
    { subst m'. rewrite Z.log2_shiftr by lia.
      destruct (Z.shiftr_eq_0_iff m (E - e)) as [_ H0].
      destruct (Z_lt_le_dec (Z.log2 m) (E - e)) as [Hlt|Hge]; [|lia].
      rewrite H0 in Hpos by (right; lia). lia. }
    rewrite (Zdigits2_log2 m') by lia. rewrite Hl.
    subst E. rewrite (Zdigits2_log2 m) by lia.
    f_equal. lia.
  - intros H0. subst m'. apply Z.shiftr_eq_0_iff in H0 as [->|[Hpos Hlt]].
    + subst E. cbn [Zdigits2] in *. rewrite fexp_unfold in *. lia.
    + subst E. rewrite Zdigits2_log2 in * by lia. rewrite fexp_unfold in *. lia.
Qed.

Lemma round_nearest_even_cases m l :
  round_nearest_even m l = m \/ round_nearest_even m l = m + 1.
Proof. destruct l as [|[]]; cbn; auto. destruct (Z.even m); auto. Qed.

Lemma rounded_precise m e l :
  precise m e ->
  let E := fexp prec emax (Zdigits2 m + e) in
  precise (round_nearest_even (Z.shiftr m (E - e)) l) E.
Proof.
  intros Hp E. destruct (shifted_canonical m e Hp) as (H0 & Hpos & Hzero).
  fold E in H0, Hpos, Hzero. set (m' := Z.shiftr m (E - e)) in *.
  destruct (round_nearest_even_cases m' l) as [-> | ->]; split; try lia.
  - destruct (Z.eq_dec m' 0) as [Hz|Hn].
    + rewrite Hz. cbn [Zdigits2]. rewrite fexp_unfold. specialize (Hzero Hz). lia.
    + rewrite Hpos by lia. lia.
  - destruct (Z.eq_dec m' 0) as [Hz|Hn].
    + rewrite Hz. cbn [Z.add Zdigits2 digits2_pos]. rewrite fexp_unfold.
      specialize (Hzero Hz). lia.
    + pose proof (Zdigits2_mono m' (m' + 1) ltac:(lia)) as Hd.
      specialize (Hpos ltac:(lia)). rewrite fexp_unfold in *. lia.
Qed.

(** What binary_round_aux returns, spelled out. *)
Lemma binary_round_aux_unfold s m e l :
  precise m e ->
  let E := fexp prec emax (Zdigits2 m + e) in
  let m1 := round_nearest_even (Z.shiftr m (E - e))
              (loc_of_shr_record (fst (shr_fexp prec emax m e l))) in
  let E1 := fexp prec emax (Zdigits2 m1 + E) in
  binary_round_aux prec emax s m e l =
  match Z.shiftr m1 (E1 - E) with
  | Z0 => S754_zero s
  | Zpos p => if E1 <=? emax - prec then S754_finite s p E1 else S754_infinity s
  | Zneg _ => S754_nan
  end.
Proof.
  intros Hp E m1 E1. unfold binary_round_aux.
  destruct (shr_fexp_spec m e l Hp) as [He Hm].
  destruct (shr_fexp prec emax m e l) as [mrs e'] eqn:Eq1. cbn [fst snd] in *.
  subst e'. fold E in Hm |- *. rewrite Hm. fold m1.
  assert (precise m1 E) as Hp1 by (apply rounded_precise; done).
  destruct (shr_fexp_spec m1 E loc_Exact Hp1) as [He1 Hm1].
  destruct (shr_fexp prec emax m1 E loc_Exact) as [mrs1 e1]. cbn [fst snd] in *.
  subst e1. fold E1 in Hm1 |- *. rewrite Hm1. reflexivity.
Qed.

Lemma binary_round_aux_valid s m e l :
  precise m e -> valid_binary prec emax (binary_round_aux prec emax s m e l) = true.
Proof.
  intros Hp. rewrite binary_round_aux_unfold by done. cbv zeta.
  set (E := fexp prec emax (Zdigits2 m + e)).
  set (m1 := round_nearest_even _ _).
  assert (precise m1 E) as Hp1 by (apply rounded_precise; done).
  destruct (shifted_canonical m1 E Hp1) as (H0 & Hpos & _).
  set (E1 := fexp prec emax (Zdigits2 m1 + E)) in *.
  destruct (Z.shiftr m1 (E1 - E)) as [|p|p] eqn:Es; try reflexivity.
  destruct (E1 <=? emax - prec) eqn:Hle; [|reflexivity].
  cbn [valid_binary]. unfold bounded, canonical_mantissa. rewrite Hle, andb_true_r.
  apply Z.eqb_eq. apply (Hpos ltac:(lia)).
Qed.

Lemma fexp_mono a b : a <= b -> fexp prec emax a <= fexp prec emax b.
Proof. rewrite !fexp_unfold. lia. Qed.

Lemma Zdigits2_mul_pow2 p n :
  0 <= n -> Zdigits2 (Zpos p * 2 ^ n) = Zdigits2 (Zpos p) + n.
Proof.
  intros Hn. assert (0 < Zpos p * 2 ^ n) by (apply Z.mul_pos_pos; [lia|apply Z.pow_pos_nonneg; lia]).
  rewrite !Zdigits2_log2 by lia. rewrite Z.log2_mul_pow2 by lia. lia.
Qed.

Lemma iter_xO p d : Zpos (Pos.iter xO p d) = Zpos p * 2 ^ Zpos d.
Proof.
  change (Pos.iter xO p d) with (shift_pos d p).
  rewrite shift_pos_correct, Z.pow_pos_fold. lia.
Qed.

Lemma binary_round_valid s p e :
  valid_binary prec emax (binary_round prec emax s p e) = true.
Proof.
  unfold binary_round, shl_align.
  set (E := fexp prec emax (Zpos (digits2_pos p) + e)).
  destruct (E - e) as [|d|d] eqn:Ed; apply binary_round_aux_valid; split; try lia.
  - change (Zdigits2 (Zpos p)) with (Zpos (digits2_pos p)). fold E. lia.
  - change (Zdigits2 (Zpos p)) with (Zpos (digits2_pos p)). fold E. lia.
  - rewrite iter_xO, Zdigits2_mul_pow2 by lia.
    change (Zdigits2 (Zpos p)) with (Zpos (digits2_pos p)).
    replace (Zpos (digits2_pos p) + Zpos d + E) with (Zpos (digits2_pos p) + e) by lia.
    fold E. lia.
Qed.

Lemma div_eucl_pair a b : Z.div_eucl a b = (a / b, a mod b).
Proof. unfold Z.div, Z.modulo. by destruct (Z.div_eucl a b). Qed.

Lemma div_core_unfold p q :
  SFdiv_core_binary prec emax (Zpos p) 0 (Zpos q) 0
  = (Zpos p * 2 ^ (- divExp p q) / Zpos q, divExp p q,
     new_location (Zpos q) ((Zpos p * 2 ^ (- divExp p q)) mod Zpos q)).
Proof.
  unfold SFdiv_core_binary. rewrite !Z.add_0_r, !Z.sub_0_r.
  fold (divExp p q). set (e' := divExp p q).
  assert (e' <= 0) as He by (unfold e', divExp; lia).
  assert (match 0 - e' with
          | Z0 => Zpos p
          | Zpos _ => Z.shiftl (Zpos p) (0 - e')
          | Zneg _ => 0
          end = Zpos p * 2 ^ (- e')) as ->.
  { replace (0 - e') with (- e') by lia.
    destruct (- e') as [|n|n] eqn:En; [lia| |lia].
    rewrite Z.shiftl_mul_pow2 by lia. reflexivity. }
  rewrite div_eucl_pair. reflexivity.
Qed.

Lemma div_core_precise p q :
  precise (Zpos p * 2 ^ (- divExp p q) / Zpos q) (divExp p q).
Proof.
  set (e' := divExp p q).
  assert (e' <= 0) as He by (unfold e', divExp; lia).
  assert (e' <= fexp prec emax (Zdigits2 (Zpos p) - Zdigits2 (Zpos q))) as Hf
    by (unfold e', divExp; lia).
  assert (0 < 2 ^ (- e')) as Hpow by (apply Z.pow_pos_nonneg; lia).
  set (n := Zpos p * 2 ^ (- e')). assert (0 < n) as Hn by (unfold n; lia).
  assert (Z.log2 n = - e' + Z.log2 (Zpos p)) as Hlog
    by (unfold n; apply Z.log2_mul_pow2; lia).
  rewrite !Zdigits2_log2 in Hf by lia.
  assert (0 <= n / Zpos q) as Hq by (apply Z.div_pos; lia).
  split; [done|].
  destruct (Z.eq_dec (n / Zpos q) 0) as [Hz|Hnz].
  - rewrite Hz. cbn [Zdigits2].
    apply Z.div_small_iff in Hz as [Hz|Hz]; [|lia|lia].
    pose proof (Z.log2_le_mono n (Zpos q) ltac:(lia)).
    rewrite fexp_unfold in *. lia.
  - rewrite Zdigits2_log2 by lia.
    assert (Z.log2 n - Z.log2 (Zpos q) - 1 <= Z.log2 (n / Zpos q)) as Hlow.
    { destruct (Z_lt_le_dec (Z.log2 n) (Z.log2 (Zpos q) + 1)) as [Hlt|Hge].
      - pose proof (Z.log2_nonneg (n / Zpos q)). lia.
      - apply Z.log2_le_pow2; [lia|].
        apply Z.div_le_lower_bound; [lia|].
        pose proof (Z.log2_spec n Hn) as [Hn1 _].
        pose proof (Z.log2_spec (Zpos q) ltac:(lia)) as [_ Hq2].
        apply Z.le_trans with (2 ^ Z.log2 n); [|done].
        replace (Z.log2 n) with ((Z.log2 n - Z.log2 (Zpos q) - 1) + Z.succ (Z.log2 (Zpos q))) at 2 by lia.
        rewrite Z.pow_add_r by (pose proof (Z.log2_nonneg (Zpos q)); lia).
        rewrite Z.mul_comm. apply Z.mul_le_mono_nonneg_l; [|lia].
        apply Z.pow_nonneg. lia. }
    apply Z.le_trans with (1 := Hf). apply fexp_mono. lia.
Qed.

Lemma div_valid s p q :
  valid_binary prec emax
    (SFdiv prec emax (S754_finite s p 0) (S754_finite false q 0)) = true.
Proof.
  unfold SFdiv. rewrite div_core_unfold.
  apply binary_round_aux_valid, div_core_precise.
Qed.

Lemma decimalToFloat_valid s m e : valid_binary prec emax (decimalToFloat s m e) = true.
Proof.
  unfold decimalToFloat. destruct m; try reflexivity.
  destruct (0 <=? e); [apply binary_round_valid|apply div_valid].
Qed.

Lemma hexToFloat_valid s m e : valid_binary prec emax (hexToFloat s m e) = true.
Proof. unfold hexToFloat. destruct m; try reflexivity. apply binary_round_valid. Qed.

Lemma infinity_valid s sign nsign f n :
  infinity s sign nsign = Some (f, n) -> valid_binary prec emax f = true.
Proof.
  unfold infinity. cbv zeta. destruct (_ || _); [|discriminate].
  intros H. by simplify_eq.
Qed.

Lemma special_valid s f n : special s = Some (f, n) -> valid_binary prec emax f = true.
Proof.
  destruct s as [|c s]; [discriminate|]. cbn [special].
  repeat case_match; try discriminate; try apply infinity_valid.
  intros Heq. by simplify_eq.
Qed.

Lemma ParseFloat_valid s : valid_binary prec emax (fst (ParseFloat s)) = true.
Proof.
  unfold ParseFloat. destruct (special s) as [[f n]|] eqn:Hsp.
  - destruct (_ =? _)%nat; cbn [fst]; [|reflexivity]. by apply (special_valid s f n).
  - destruct (readFloat s) as [nb|]; [|reflexivity].
    destruct (negb _); [reflexivity|]. cbn [fst].
    destruct (n_hex nb); [apply hexToFloat_valid|apply decimalToFloat_valid].
Qed.

Lemma NormalizePrice_valid s : valid_binary prec emax (Receipt.NormalizePrice s) = true.
Proof.
  unfold Receipt.NormalizePrice.
  pose proof (ParseFloat_valid (ReplaceAll (TrimPrefix (TrimSpace s) "$") "," EmptyString)) as H.
  destruct (ParseFloat _) as [v [e|]]; [reflexivity|exact H].
Qed.

Lemma bounded_canonical p E :
  bounded prec emax p E = true -> canonical p E /\ E <= emax - prec.
Proof.
  unfold bounded, canonical_mantissa. intros H. apply andb_prop in H as [H1 H2].
  apply Z.eqb_eq in H1. apply Z.leb_le in H2. done.
Qed.

(** *** The round bit and the sticky bit *)

Lemma placed_bounds mrs a b : 0 < b -> placed mrs a b ->
  shr_m mrs * b <= a < (shr_m mrs + 1) * b.
Proof. destruct mrs as [m [] []]; unfold placed; cbn [shr_m shr_r shr_s]; lia. Qed.

Lemma shr_1_placed mrs a b :
  0 <= shr_m mrs -> 0 < b -> placed mrs a b -> placed (shr_1 mrs) a (2 * b).
Proof.
  destruct mrs as [m r s]. cbn [shr_m]. intros Hm Hb.
  destruct m as [|[p|p|]|p]; [| | | |lia]; destruct r, s;
    unfold placed; cbn [shr_1 shr_m shr_r shr_s orb]; lia.
Qed.

Lemma iter_shr_placed p a : forall mrs b,
  0 <= shr_m mrs -> 0 < b -> placed mrs a b ->
  placed (SpecFloat.iter_pos shr_1 p mrs) a (b * 2 ^ Zpos p).
Proof.
  induction p as [p IH|p IH|]; intros mrs b Hm Hb H; cbn [SpecFloat.iter_pos].
  - pose proof (shr_1_nonneg mrs Hm) as H1.
    pose proof (shr_1_placed mrs a b Hm Hb H) as P1.
    assert (0 < 2 ^ Zpos p) as Hp by (apply Z.pow_pos_nonneg; lia).
    assert (0 < 2 * b * 2 ^ Zpos p) as Hb2 by (apply Z.mul_pos_pos; lia).
    pose proof (IH (shr_1 mrs) (2 * b) H1 ltac:(lia) P1) as P2.
    assert (0 <= shr_m (SpecFloat.iter_pos shr_1 p (shr_1 mrs))) as H2
      by (rewrite iter_shr_m by done; apply Z.shiftr_nonneg; done).
    pose proof (IH _ (2 * b * 2 ^ Zpos p) H2 Hb2 P2) as P3.
    replace (b * 2 ^ Zpos p~1) with (2 * b * 2 ^ Zpos p * 2 ^ Zpos p); [exact P3|].
    replace (Zpos p~1) with (1 + Zpos p + Zpos p) by lia.
    rewrite !Z.pow_add_r by lia. ring.
  - assert (0 < 2 ^ Zpos p) as Hp by (apply Z.pow_pos_nonneg; lia).
    assert (0 < b * 2 ^ Zpos p) as Hb2 by (apply Z.mul_pos_pos; lia).
    pose proof (IH _ _ Hm Hb H) as P1.
    assert (0 <= shr_m (SpecFloat.iter_pos shr_1 p mrs)) as H2
      by (rewrite iter_shr_m by done; apply Z.shiftr_nonneg; done).
    pose proof (IH _ (b * 2 ^ Zpos p) H2 Hb2 P1) as P2.
    replace (b * 2 ^ Zpos p~0) with (b * 2 ^ Zpos p * 2 ^ Zpos p); [exact P2|].
    replace (Zpos p~0) with (Zpos p + Zpos p) by lia.
    rewrite !Z.pow_add_r by lia. ring.
  - rewrite Z.pow_1_r, Z.mul_comm. by apply shr_1_placed.
Qed.

Lemma new_location_placed a b :
  0 <= a -> 0 < b ->
  placed (shr_record_of_loc (a / b) (new_location b (a mod b))) a b.
Proof.
  intros Ha Hb. pose proof (Z.div_mod a b ltac:(lia)) as Hd.
  pose proof (Z.mod_pos_bound a b Hb) as Hr.
  unfold new_location, new_location_even, new_location_odd.
  destruct (Z.even b) eqn:Ev.
  - destruct (a mod b =? 0) eqn:E0.
    + apply Z.eqb_eq in E0. unfold placed. cbn. lia.
    + apply Z.eqb_neq in E0.
      destruct (Z.compare_spec (2 * (a mod b)) b); unfold placed; cbn; lia.
  - destruct (a mod b =? 0) eqn:E0.
    + apply Z.eqb_eq in E0. unfold placed. cbn. lia.
    + apply Z.eqb_neq in E0.
      assert (Z.odd b = true) as Ho by (rewrite <- Z.negb_even, Ev; reflexivity).
      apply Z.odd_spec in Ho as [k Hk].
      destruct (Z.compare_spec (2 * (a mod b) + 1) b); unfold placed; cbn; lia.
Qed.

Lemma roundHalfEven_placed mrs a b :
  0 < b -> placed mrs a b ->
  round_nearest_even (shr_m mrs) (loc_of_shr_record mrs) = roundHalfEven a b.
Proof.
  intros Hb H. pose proof (placed_bounds mrs a b Hb H) as Hbd.
  assert (a / b = shr_m mrs) as Hq by (symmetry; apply (Z.div_unique a b _ (a - shr_m mrs * b)); lia).
  assert (a mod b = a - shr_m mrs * b) as Hr
    by (pose proof (Z.div_mod a b ltac:(lia)); rewrite Hq in *; lia).
  unfold roundHalfEven. rewrite Hq, Hr.
  destruct mrs as [m [] []]; unfold placed in H; cbn [shr_m shr_r shr_s] in *;
    cbn [loc_of_shr_record round_nearest_even].
  - replace (2 * (a - m * b) ?= b) with Gt; [reflexivity|]. symmetry. apply Z.compare_gt_iff. lia.
  - replace (2 * (a - m * b) ?= b) with Eq; [reflexivity|]. symmetry. apply Z.compare_eq_iff. lia.
  - replace (2 * (a - m * b) ?= b) with Lt; [reflexivity|]. symmetry. apply Z.compare_lt_iff. lia.
  - replace (2 * (a - m * b) ?= b) with Lt; [reflexivity|]. symmetry. apply Z.compare_lt_iff. lia.
Qed.

Lemma shr_fexp_placed m e l a b :
  precise m e -> 0 < b -> placed (shr_record_of_loc m l) a b ->
  placed (fst (shr_fexp prec emax m e l)) a
    (b * 2 ^ (fexp prec emax (Zdigits2 m + e) - e)).
Proof.
  intros [Hm He] Hb H. unfold shr_fexp, shr.
  destruct (fexp prec emax (Zdigits2 m + e) - e) as [|p|p] eqn:E; cbn [fst].
  - by rewrite Z.pow_0_r, Z.mul_1_r.
  - apply iter_shr_placed; [by rewrite shr_record_m|done..].
  - lia.
Qed.

(** The quotient of two integers, as SFdiv rounds it: the nearest integer
    to the quotient of the value by two to the power that its size asks
    for, then the value as a number of at most 53 bits. *)
Lemma div_round s P Q :
  let e0 := divExp P Q in
  let a := Zpos P * 2 ^ (- e0) in
  let E := fexp prec emax (Zdigits2 (a / Zpos Q) + e0) in
  let m1 := roundHalfEven a (Zpos Q * 2 ^ (E - e0)) in
  let E1 := fexp prec emax (Zdigits2 m1 + E) in
  SFdiv prec emax (S754_finite s P 0) (S754_finite false Q 0)
  = match Z.shiftr m1 (E1 - E) with
    | Z0 => S754_zero s
    | Zpos p => if E1 <=? emax - prec then S754_finite s p E1 else S754_infinity s
    | Zneg _ => S754_nan
    end.
Proof.
  intros e0 a E m1 E1. unfold SFdiv. rewrite div_core_unfold, xorb_false_r.
  fold e0. fold a.
  pose proof (div_core_precise P Q) as Hp. fold e0 in Hp. fold a in Hp.
  rewrite binary_round_aux_unfold by done. cbv zeta. fold E.
  assert (0 < 2 ^ (- e0)) as Hpow
    by (apply Z.pow_pos_nonneg; [lia|unfold e0, divExp; lia]).
  assert (round_nearest_even (Z.shiftr (a / Zpos Q) (E - e0))
            (loc_of_shr_record
               (fst (shr_fexp prec emax (a / Zpos Q) e0 (new_location (Zpos Q) (a mod Zpos Q)))))
          = m1) as ->; [|reflexivity].
  destruct (shr_fexp_spec (a / Zpos Q) e0 (new_location (Zpos Q) (a mod Zpos Q)) Hp) as [_ Hm].
  fold E in Hm. rewrite <- Hm. apply roundHalfEven_placed.
  - apply Z.mul_pos_pos; [lia|]. apply Z.pow_pos_nonneg; [lia|]. destruct Hp. fold E in H0. lia.
  - apply (shr_fexp_placed _ _ _ a (Zpos Q) Hp); [lia|].
    apply new_location_placed; [|lia]. unfold a. lia.
Qed.

(** *** The nearest integer *)

Lemma roundHalfEven_nearest a b : 0 < b -> nearest a b (roundHalfEven a b).
Proof.
  intros Hb. unfold roundHalfEven, nearest.
  pose proof (Z.div_mod a b ltac:(lia)) as Hd.
  pose proof (Z.mod_pos_bound a b Hb) as Hr.
  set (q := a / b) in *. set (r := a mod b) in *.
  assert (a = q * b + r) as Ha by lia. clearbody q r.
  destruct (Z.compare_spec (2 * r) b) as [He|Hl|Hg].
  - destruct (Z.even q) eqn:Ev.
    + right. split; [|done]. subst a. lia.
    + right. split; [subst a; lia|].
      rewrite Z.even_add, Ev. reflexivity.
  - left. subst a. lia.
  - left. subst a. lia.
Qed.

Lemma nearest_unique a b n n' : 0 < b -> nearest a b n -> nearest a b n' -> n = n'.
Proof.
  intros Hb H H'. unfold nearest in *.
  assert (Z.abs (2 * n * b - 2 * n' * b) <= 2 * b) as Hd by lia.
  assert (n = n' \/ n = n' + 1 \/ n' = n + 1) as [->|[->| ->]]; [nia|done| |].
  - destruct H as [H|[H Hev]], H' as [H'|[H' Hev']]; try lia.
    rewrite Z.even_add, Hev' in Hev. discriminate.
  - destruct H as [H|[H Hev]], H' as [H'|[H' Hev']]; try lia.
    rewrite Z.even_add, Hev in Hev'. discriminate.
Qed.

Lemma nearest_roundHalfEven a b n : 0 < b -> nearest a b n -> roundHalfEven a b = n.
Proof.
  intros Hb H. apply (nearest_unique a b); [done| |done]. by apply roundHalfEven_nearest.
Qed.

Lemma nearest_scale a b n c : 0 < c -> nearest (a * c) (b * c) n <-> nearest a b n.
Proof.
  intros Hc. unfold nearest.
  assert (2 * (a * c) - 2 * n * (b * c) = (2 * a - 2 * n * b) * c) as -> by ring.
  rewrite Z.abs_mul, (Z.abs_eq c) by lia.
  split; intros [H|[H Hev]]; [left|right|left|right]; try (split; [|done]); nia.
Qed.

(** *** Numbers of 53 bits *)

Lemma weight_pos E : -1074 <= E -> 0 < weight E.
Proof. intros H. unfold weight. apply Z.pow_pos_nonneg; lia. Qed.

Lemma weight_add E k : -1074 <= E -> 0 <= k -> weight (E + k) = weight E * 2 ^ k.
Proof. intros HE Hk. unfold weight. rewrite <- Z.pow_add_r by lia. f_equal. lia. Qed.

Lemma weight_succ E : -1074 <= E -> weight (E + 1) = weight E * 2.
Proof. intros H. by rewrite weight_add by lia. Qed.

Lemma weight_le E E' : -1074 <= E <= E' -> weight E <= weight E'.
Proof. intros H. unfold weight. apply Z.pow_le_mono_r; lia. Qed.

Lemma digits_small x : 0 < x -> Zdigits2 x <= 53 -> x < 2 ^ 53.
Proof.
  intros Hx H. rewrite Zdigits2_log2 in H by done.
  apply Z.log2_lt_pow2; [done|lia].
Qed.

Lemma digits_large x : 0 < x -> 53 <= Zdigits2 x -> 2 ^ 52 <= x.
Proof.
  intros Hx H. rewrite Zdigits2_log2 in H by done.
  apply Z.log2_le_pow2; [done|lia].
Qed.

Lemma digits_of_small x : 0 < x -> x < 2 ^ 53 -> Zdigits2 x <= 53.
Proof.
  intros Hx H. rewrite Zdigits2_log2 by done.
  apply Z.log2_lt_pow2 in H; [lia|done].
Qed.

Lemma digits_of_large x : 2 ^ 53 <= x -> 54 <= Zdigits2 x.
Proof.
  intros H. assert (0 < x) as Hx by (pose proof (Z.pow_pos_nonneg 2 53); lia).
  rewrite Zdigits2_log2 by done.
  apply Z.log2_le_pow2 in H; [lia|done].
Qed.

(** A number with its exponent as its size asks for: at most 53 bits, and
    53 of them unless the exponent is the smallest. *)
Lemma canonical_size x E :
  0 < x -> fexp prec emax (Zdigits2 x + E) = E ->
  -1074 <= E /\ x < 2 ^ 53 /\ (-1074 < E -> 2 ^ 52 <= x).
Proof.
  intros Hx H. rewrite fexp_unfold in H.
  split; [lia|]. split.
  - apply digits_small; [done|lia].
  - intros HE. apply digits_large; [done|lia].
Qed.

(** No binary64 number lies strictly between two neighbours of the grid
    that the size of a value asks for. *)
Lemma no_float_inside m e f E :
  canonical m e -> 0 <= f ->
  (0 < f -> fexp prec emax (Zdigits2 f + E) = E) -> (f = 0 -> E = -1074) ->
  Zpos m * weight e <= f * weight E \/ (f + 1) * weight E <= Zpos m * weight e.
Proof.
  intros Hc Hf Hpos Hzero. unfold canonical in Hc.
  destruct (canonical_size (Zpos m) e ltac:(lia) Hc) as (He & Hm & _).
  assert (-1074 <= E) as HE.
  { destruct (Z.eq_dec f 0) as [H0|H0]; [rewrite Hzero by done; lia|].
    by destruct (canonical_size f E ltac:(lia) (Hpos ltac:(lia))). }
  pose proof (weight_pos e He) as Ue. pose proof (weight_pos E HE) as UE.
  destruct (Z_lt_le_dec e E) as [Hlt|Hge].
  - left. assert (0 < f) as Hf0 by (destruct (Z.eq_dec f 0); [specialize (Hzero ltac:(done))|]; lia).
    destruct (canonical_size f E Hf0 (Hpos Hf0)) as (_ & _ & Hlarge).
    specialize (Hlarge ltac:(lia)).
    assert (weight E = weight e * 2 ^ (E - e)) as ->
      by (rewrite <- weight_add by lia; f_equal; lia).
    assert (2 <= 2 ^ (E - e)) as H2
      by (change 2 with (2 ^ 1) at 1; apply Z.pow_le_mono_r; lia).
    change (2 ^ 53) with (2 ^ 52 * 2) in Hm.
    apply Z.le_trans with (2 ^ 52 * 2 * weight e); [nia|].
    apply Z.le_trans with (2 ^ 52 * (weight e * 2 ^ (E - e))); [nia|].
    apply Z.mul_le_mono_nonneg_r; [|done]. nia.
  - assert (weight e = weight E * 2 ^ (e - E)) as ->
      by (rewrite <- weight_add by lia; f_equal; lia).
    assert (0 < 2 ^ (e - E)) as H2 by (apply Z.pow_pos_nonneg; lia).
    set (j := Zpos m * 2 ^ (e - E)).
    replace (Zpos m * (weight E * 2 ^ (e - E))) with (j * weight E) by (unfold j; ring).
    destruct (Z_le_gt_dec j f) as [H|H]; [left|right]; nia.
Qed.

(** *** A value between two neighbours *)

Lemma nearest_transfer S U V f m1 n :
  0 < S -> 0 < U ->
  100 * (f * U) <= n * S < 100 * ((f + 1) * U) ->
  nearest (n * S) (100 * U) m1 ->
  V <= f * U \/ (f + 1) * U <= V ->
  nearest (100 * V) S n ->
  (m1 = f \/ m1 = f + 1) /\ nearest (100 * (m1 * U)) S n.
Proof.
  intros HS HU Hbr Hm HV Hn.
  assert (m1 = f \/ m1 = f + 1) as Hcase.
  { unfold nearest in Hm.
    destruct (Z_lt_le_dec m1 f) as [H1|H1].
    - assert (m1 * U <= f * U - U) by nia. lia.
    - destruct (Z_lt_le_dec (f + 1) m1) as [H2|H2]; [|lia].
      assert ((f + 1) * U + U <= m1 * U) by nia. lia. }
  split; [done|]. unfold nearest in Hm, Hn.
  assert (Z.abs (2 * (n * S) - 2 * m1 * (100 * U)) <= 100 * U) as Hm' by lia.
  assert (Z.abs (2 * (100 * (m1 * U)) - 2 * n * S) <= Z.abs (2 * (100 * V) - 2 * n * S)) as Hle.
  { clear Hm Hn. destruct Hcase as [->| ->]; lia. }
  unfold nearest. destruct Hn as [Hn|[Hn Hev]]; [left; lia|].
  destruct (Z_lt_le_dec (Z.abs (2 * (100 * (m1 * U)) - 2 * n * S)) S); [by left|].
  right. split; [lia|done].
Qed.

(** *** The hundredths of a binary64 number *)

Lemma cents_nearest m e :
  -1074 <= e -> nearest (100 * (Zpos m * weight e)) (weight 0) (cents m e).
Proof.
  intros He. unfold cents. destruct (0 <=? e) eqn:E.
  - apply Z.leb_le in E. left.
    assert (weight e = weight 0 * 2 ^ e) as -> by (rewrite <- weight_add by lia; f_equal).
    replace (2 * (100 * (Zpos m * (weight 0 * 2 ^ e))) - 2 * (100 * (Zpos m * 2 ^ e)) * weight 0)
      with 0 by ring.
    pose proof (weight_pos 0 ltac:(lia)). lia.
  - apply Z.leb_gt in E.
    assert (0 < 2 ^ (- e)) as Hp by (apply Z.pow_pos_nonneg; lia).
    pose proof (roundHalfEven_nearest (100 * Zpos m) (2 ^ (- e)) Hp) as H.
    apply (nearest_scale _ _ _ (weight e) (weight_pos e He)) in H.
    assert (2 ^ (- e) * weight e = weight 0) as Hu.
    { rewrite Z.mul_comm, <- weight_add by lia. f_equal. lia. }
    rewrite Hu in H. by replace (100 * (Zpos m * weight e)) with (100 * Zpos m * weight e) by ring.
Qed.

Lemma nearest_cents m e n :
  -1074 <= e -> nearest (100 * (Zpos m * weight e)) (weight 0) n -> cents m e = n.
Proof.
  intros He H. apply (nearest_unique (100 * (Zpos m * weight e)) (weight 0));
    [apply weight_pos; lia|by apply cents_nearest|done].
Qed.

Lemma fexp_same x E :
  0 < x < 2 ^ 53 -> (-1074 < E -> 2 ^ 52 <= x) -> -1074 <= E ->
  fexp prec emax (Zdigits2 x + E) = E.
Proof.
  intros [Hx Hlt] Hlarge HE. rewrite fexp_unfold.
  pose proof (digits_of_small x Hx Hlt) as Hd.
  destruct (Z.eq_dec E (-1074)) as [->|Hn]; [lia|].
  specialize (Hlarge ltac:(lia)).
  assert (53 <= Zdigits2 x); [|lia].
  rewrite Zdigits2_log2 by done. apply Z.log2_le_pow2 in Hlarge; [lia|done].
Qed.

(** The rounded mantissa, brought to 53 bits: nothing of it is lost. *)
Lemma final_shift f E m1 :
  0 <= f -> (0 < f -> fexp prec emax (Zdigits2 f + E) = E) -> (f = 0 -> E = -1074) ->
  m1 = f \/ m1 = f + 1 -> 0 < m1 ->
  exists p,
    Z.shiftr m1 (fexp prec emax (Zdigits2 m1 + E) - E) = Zpos p
    /\ Zpos p * weight (fexp prec emax (Zdigits2 m1 + E)) = m1 * weight E
    /\ -1074 <= E <= fexp prec emax (Zdigits2 m1 + E)
    /\ (971 < fexp prec emax (Zdigits2 m1 + E) -> 2 ^ 53 * weight 971 <= m1 * weight E).
Proof.
  intros Hf Hpos Hzero Hcase Hm1.
  assert (-1074 <= E /\ f < 2 ^ 53 /\ (-1074 < E -> 2 ^ 52 <= f)) as (HE & Hlt & Hlarge).
  { destruct (Z.eq_dec f 0) as [H0|H0].
    - rewrite (Hzero H0), H0. split; [lia|]. split; [reflexivity|lia].
    - apply canonical_size; [lia|apply Hpos; lia]. }
  destruct (Z_lt_le_dec m1 (2 ^ 53)) as [Hs|Hs].
  - rewrite (fexp_same m1 E) by (try split; try lia; intros HE'; specialize (Hlarge HE'); lia).
    rewrite Z.sub_diag, Z.shiftr_0_r. exists (Z.to_pos m1).
    rewrite Z2Pos.id by done. split; [done|]. split; [done|]. split; [lia|].
    intros Hbig. specialize (Hlarge ltac:(lia)).
    pose proof (weight_le 972 E ltac:(lia)) as Hu.
    assert (weight 972 = weight 971 * 2) as Hu' by (apply (weight_succ 971); lia).
    pose proof (weight_pos 971 ltac:(lia)).
    change (2 ^ 53) with (2 ^ 52 * 2).
    apply Z.le_trans with (2 ^ 52 * weight 972); [lia|].
    apply Z.le_trans with (2 ^ 52 * weight E); [apply Z.mul_le_mono_nonneg_l; lia|].
    apply Z.mul_le_mono_nonneg_r; lia.
  - assert (m1 = 2 ^ 53) as -> by lia.
    change (Zdigits2 (2 ^ 53)) with 54. rewrite fexp_unfold.
    replace (Z.max (54 + E - 53) (-1074)) with (E + 1) by lia.
    replace (E + 1 - E) with 1 by lia.
    exists (Z.to_pos (2 ^ 52)). split; [reflexivity|]. split.
    + rewrite (weight_succ E) by lia. change (Zpos (Z.to_pos (2 ^ 52))) with (2 ^ 52).
      change (2 ^ 53) with (2 ^ 52 * 2). ring.
    + split; [lia|]. intros Hbig.
      apply Z.mul_le_mono_nonneg_l; [lia|]. apply weight_le. lia.
Qed.

(** The hundredths of a binary64 number, divided by one hundred and
    rounded to binary64, have the same hundredths again. *)
Lemma div_cents s m e N :
  bounded prec emax m e = true -> Zpos N = cents m e ->
  exists mw ew,
    SFdiv prec emax (S754_finite s N 0) (S754_finite false 100 0) = S754_finite s mw ew
    /\ cents mw ew = cents m e.
Proof.
  intros Hb HN. destruct (bounded_canonical m e Hb) as [Hc Hle].
  destruct (canonical_size (Zpos m) e ltac:(lia) Hc) as (He & Hm & _).
  change (emax - prec) with 971 in Hle.
  rewrite div_round. cbv zeta.
  pose proof (div_core_precise N 100) as Hp.
  set (e0 := divExp N 100) in *. set (a := Zpos N * 2 ^ (- e0)) in *.
  set (E := fexp prec emax (Zdigits2 (a / 100) + e0)).
  set (m1 := roundHalfEven a (100 * 2 ^ (E - e0))).
  assert (-1074 <= e0 <= 0) as He0 by (unfold e0, divExp; rewrite fexp_unfold; lia).
  assert (e0 <= E) as HeE by (destruct Hp as [_ Hp]; exact Hp).
  assert (0 < 2 ^ (- e0)) as Hp0 by (apply Z.pow_pos_nonneg; lia).
  assert (0 < 2 ^ (E - e0)) as HpE by (apply Z.pow_pos_nonneg; lia).
  assert (0 < a) as Ha by (unfold a; lia).
  destruct (shifted_canonical (a / 100) e0 Hp) as (Hf & Hpos & Hzero).
  fold E in Hf, Hpos, Hzero. set (f := Z.shiftr (a / 100) (E - e0)) in *.
  assert (f = a / (100 * 2 ^ (E - e0))) as Hfq
    by (unfold f; rewrite Z.shiftr_div_pow2, Z.div_div by lia; reflexivity).
  set (B := 100 * 2 ^ (E - e0)) in *. assert (0 < B) as HB by (unfold B; lia).
  assert (f * B <= a < (f + 1) * B) as Hbr.
  { rewrite Hfq. pose proof (Z.mul_div_le a B HB).
    pose proof (Z.mul_succ_div_gt a B HB). lia. }
  assert (-1074 <= E) as HE by lia.
  pose proof (weight_pos e0 ltac:(lia)) as Uc. pose proof (weight_pos E HE) as UE.
  pose proof (weight_pos 0 ltac:(lia)) as U0.
  assert (a * weight e0 = Zpos N * weight 0) as Hsa.
  { unfold a. rewrite <- Z.mul_assoc. f_equal.
    rewrite Z.mul_comm, <- weight_add by lia. f_equal. lia. }
  assert (B * weight e0 = 100 * weight E) as HsB.
  { unfold B. rewrite <- Z.mul_assoc. f_equal.
    rewrite Z.mul_comm, <- weight_add by lia. f_equal. lia. }
  assert (nearest (Zpos N * weight 0) (100 * weight E) m1) as Hn1.
  { rewrite <- Hsa, <- HsB. apply nearest_scale; [done|]. by apply roundHalfEven_nearest. }
  clearbody m1.
  assert (100 * (f * weight E) <= Zpos N * weight 0 < 100 * ((f + 1) * weight E)) as Hbr'.
  { rewrite <- Hsa.
    replace (100 * (f * weight E)) with (f * (100 * weight E)) by ring.
    replace (100 * ((f + 1) * weight E)) with ((f + 1) * (100 * weight E)) by ring.
    rewrite <- HsB, !Z.mul_assoc. split.
    - apply Z.mul_le_mono_nonneg_r; lia.
    - apply Z.mul_lt_mono_pos_r; lia. }
  pose proof (no_float_inside m e f E Hc Hf Hpos Hzero) as Hin.
  pose proof (cents_nearest m e He) as Hv. rewrite <- HN in Hv.
  destruct (nearest_transfer (weight 0) (weight E) (Zpos m * weight e) f m1 (Zpos N)
              U0 UE Hbr' Hn1 Hin Hv) as [Hcase Hw].
  assert (0 < m1) as Hm1.
  { destruct (Z_lt_le_dec 0 m1) as [|H0]; [done|]. exfalso.
    assert (m1 = 0) as Hz by lia. rewrite Hz in Hw. unfold nearest in Hw.
    assert (weight 0 <= Zpos N * weight 0) by nia. lia. }
  destruct (final_shift f E m1 Hf Hpos Hzero Hcase Hm1) as (p & Hsh & Hval & HE1 & Hbig).
  set (E1 := fexp prec emax (Zdigits2 m1 + E)) in *.
  rewrite Hsh.
  assert (E1 <= 971) as Hno.
  { destruct (Z_le_gt_dec E1 971) as [|Hgt]; [done|]. exfalso.
    specialize (Hbig ltac:(lia)).
    pose proof (weight_le e 971 ltac:(lia)) as Hue.
    pose proof (weight_pos 971 ltac:(lia)) as U971.
    pose proof (weight_le 0 971 ltac:(lia)) as Hu0.
    assert (Zpos m * weight e <= (2 ^ 53 - 1) * weight 971) as HV.
    { apply Z.le_trans with (Zpos m * weight 971).
      - apply Z.mul_le_mono_nonneg_l; lia.
      - apply Z.mul_le_mono_nonneg_r; lia. }
    unfold nearest in Hv, Hw. lia. }
  change (emax - prec) with 971.
  replace (E1 <=? 971) with true by (symmetry; apply Z.leb_le; done).
  exists p, E1. split; [reflexivity|].
  rewrite <- HN. apply nearest_cents; [lia|]. by rewrite Hval.
Qed.

(** ** Rendering an amount *)

(** *** Reading the digits back *)

Lemma code_digitChar d : 0 <= d < 10 -> code (digitChar d) = (48 + Z.to_nat d)%nat.
Proof. intros H. unfold code, digitChar. apply nat_ascii_embedding. lia. Qed.

Lemma digitChar_facts d :
  0 <= d < 10 ->
  isDigit (digitChar d) = true /\ isByte (digitChar d) 95 = false
  /\ isByte (digitChar d) 46 = false /\ digitVal (digitChar d) = d.
Proof.
  intros H. unfold isDigit, between, isByte, digitVal. rewrite code_digitChar by done.
  split; [apply andb_true_intro; split; apply Nat.leb_le; lia|].
  split; [apply Nat.eqb_neq; lia|].
  split; [apply Nat.eqb_neq; lia|lia].
Qed.

Lemma append_cons x (a b : string) : String x a ++ b = String x (a ++ b).
Proof. reflexivity. Qed.

Lemma append_nil (b : string) : EmptyString ++ b = b.
Proof. reflexivity. Qed.

Lemma append_assoc (a b c : string) : (a ++ b) ++ c = a ++ (b ++ c).
Proof.
  induction a as [|x a IH]; [reflexivity|]. by rewrite !append_cons, IH.
Qed.

Lemma readMantissa_fixed w : forall n rest m frac sawdot sd us,
  0 <= n ->
  readMantissa false (fixedDigits w n ++ rest) m frac sawdot sd us
  = readMantissa false rest (m * 10 ^ Z.of_nat w + n mod 10 ^ Z.of_nat w)
      (if sawdot then frac + Z.of_nat w else frac) sawdot
      (sd || (0 <? w)%nat) us.
Proof.
  induction w as [|w IH]; intros n rest m frac sawdot sd us Hn.
  - cbn [fixedDigits Z.of_nat]. rewrite append_nil, Z.pow_0_r, Z.mod_1_r, orb_false_r.
    f_equal; [lia|]. destruct sawdot; lia.
  - cbn [fixedDigits]. rewrite append_assoc, append_cons, append_nil.
    rewrite IH by (apply Z.div_pos; lia).
    destruct (digitChar_facts (n mod 10)) as (Hd & H95 & H46 & Hv);
      [apply Z.mod_pos_bound; lia|].
    cbn [readMantissa]. rewrite H95, H46, Hd, Hv.
    f_equal.
    + rewrite Nat2Z.inj_succ, Z.pow_succ_r by lia.
      rewrite (Z.rem_mul_r n 10 (10 ^ Z.of_nat w)) by
        (try lia; apply Z.pow_pos_nonneg; lia).
      ring.
    + destruct sawdot; lia.
    + by rewrite orb_true_r.
Qed.

Lemma countDigits_bound fuel : forall n,
  0 <= n < 10 * 10 ^ Z.of_nat fuel -> n < 10 ^ Z.of_nat (countDigits fuel n).
Proof.
  induction fuel as [|fuel IH]; intros n Hn; cbn [countDigits].
  - cbn in *. lia.
  - destruct (n <? 10)%Z eqn:E.
    + apply Z.ltb_lt in E. cbn. lia.
    + apply Z.ltb_ge in E. rewrite Nat2Z.inj_succ, Z.pow_succ_r by lia.
      rewrite Nat2Z.inj_succ, Z.pow_succ_r in Hn by lia.
      assert (n / 10 < 10 ^ Z.of_nat (countDigits fuel (n / 10))) as H.
      { apply IH. split; [apply Z.div_pos; lia|].
        apply Z.div_lt_upper_bound; lia. }
      pose proof (Z.mul_div_le n 10 ltac:(lia)).
      pose proof (Z.mod_pos_bound n 10 ltac:(lia)).
      pose proof (Z.div_mod n 10 ltac:(lia)). lia.
Qed.

Lemma countDigits_pos fuel n : (0 <? countDigits fuel n)%nat = true.
Proof. destruct fuel; cbn; [reflexivity|]. by destruct (n <? 10)%Z. Qed.

Lemma readMantissa_decimal n rest m frac sawdot sd us :
  0 <= n ->
  exists w,
    readMantissa false (decimal n ++ rest) m frac sawdot sd us
    = readMantissa false rest (m * 10 ^ Z.of_nat w + n)
        (if sawdot then frac + Z.of_nat w else frac) sawdot true us.
Proof.
  intros Hn. unfold decimal. set (w := countDigits _ n). exists w.
  rewrite readMantissa_fixed by done.
  assert ((0 <? w)%nat = true) as -> by apply countDigits_pos.
  rewrite orb_true_r. rewrite Z.mod_small; [reflexivity|].
  split; [done|]. apply countDigits_bound. split; [done|].
  destruct (Z.eq_dec n 0) as [->|Hz]; [cbn; lia|].
  rewrite Z2Nat.id by apply Z.log2_nonneg.
  pose proof (Z.log2_spec n ltac:(lia)) as [_ H2].
  rewrite Z.pow_succ_r in H2 by apply Z.log2_nonneg.
  pose proof (Z.pow_le_mono_l 2 10 (Z.log2 n) ltac:(lia)). lia.
Qed.

(** *** The bytes of a rendering *)

Lemma allNumeric_app a b : allNumeric (a ++ b) = allNumeric a && allNumeric b.
Proof.
  induction a as [|x a IH]; [reflexivity|].
  rewrite append_cons. cbn [allNumeric]. by rewrite IH, andb_assoc.
Qed.

Lemma headDigit_app a b : headDigit a = true -> headDigit (a ++ b) = true.
Proof. by destruct a. Qed.

Lemma fixedDigits_numeric w : forall n, 0 <= n -> allNumeric (fixedDigits w n) = true.
Proof.
  induction w as [|w IH]; intros n Hn; [reflexivity|]. cbn [fixedDigits].
  rewrite allNumeric_app, IH by (apply Z.div_pos; lia). cbn [allNumeric andb].
  destruct (digitChar_facts (n mod 10)) as (Hd & _); [apply Z.mod_pos_bound; lia|].
  unfold numeric. by rewrite Hd.
Qed.

Lemma fixedDigits_head w : forall n, 0 <= n -> headDigit (fixedDigits (S w) n) = true.
Proof.
  induction w as [|w IH]; intros n Hn.
  - cbn [fixedDigits]. rewrite append_nil. cbn [headDigit].
    by destruct (digitChar_facts (n mod 10)) as (Hd & _); [apply Z.mod_pos_bound; lia|].
  - change (fixedDigits (S (S w)) n)
      with (fixedDigits (S w) (n / 10) ++ String (digitChar (n mod 10)) EmptyString).
    apply headDigit_app, IH. apply Z.div_pos; lia.
Qed.

Lemma decimal_numeric n : 0 <= n -> allNumeric (decimal n) = true.
Proof. apply fixedDigits_numeric. Qed.

Lemma decimal_head n : 0 <= n -> headDigit (decimal n) = true.
Proof.
  intros Hn. unfold decimal.
  destruct (countDigits _ n) as [|w] eqn:E.
  - pose proof (countDigits_pos (Z.to_nat (Z.log2 n)) n) as H. by rewrite E in H.
  - by apply fixedDigits_head.
Qed.

Lemma append_empty (a : string) : a ++ EmptyString = a.
Proof. induction a as [|x a IH]; [reflexivity|]. by rewrite append_cons, IH. Qed.

(** *** Parsing a rendering *)

Lemma isDigit_code c : isDigit c = true -> (48 <= code c <= 57)%nat.
Proof.
  unfold isDigit, between. intros H. apply andb_prop in H as [H1 H2].
  apply Nat.leb_le in H1, H2. lia.
Qed.

Lemma isByte_digit c n : isDigit c = true -> (n < 48 \/ 57 < n)%nat -> isByte c n = false.
Proof. intros H Hn. apply isDigit_code in H. unfold isByte. apply Nat.eqb_neq. lia. Qed.

Lemma isByte_numeric c n :
  numeric c = true -> (n < 46 \/ n = 47 \/ 57 < n)%nat -> isByte c n = false.
Proof.
  unfold numeric. intros H Hn. apply orb_prop in H as [H|H].
  - apply isByte_digit; [done|lia].
  - unfold isByte in *. apply Nat.eqb_eq in H. apply Nat.eqb_neq. lia.
Qed.

Lemma lowerByte_digit c : isDigit c = true -> lowerByte c = c.
Proof.
  intros H. apply isDigit_code in H. unfold lowerByte, isUpper, between.
  replace (65 <=? code c)%nat with false; [reflexivity|].
  symmetry. apply Nat.leb_gt. lia.
Qed.

Lemma eqb_digit c (x : ascii) : isDigit c = true -> isDigit x = false -> Ascii.eqb c x = false.
Proof. intros Hc Hx. destruct (Ascii.eqb_spec c x) as [->|]; [congruence|reflexivity]. Qed.

Lemma special_digit s : headDigit s = true -> special s = None.
Proof.
  destruct s as [|c s]; [discriminate|]. cbn [headDigit special]. intros H.
  rewrite !(isByte_digit c) by (done || lia). reflexivity.
Qed.

Lemma special_minus s : headDigit s = true -> special ("-" ++ s) = None.
Proof.
  destruct s as [|c s]; [discriminate|]. cbn [headDigit]. intros H.
  change ("-" ++ String c s) with (String "-" (String c s)). cbn [special].
  change (isByte "-" 43) with false. change (isByte "-" 45) with true. cbv iota.
  unfold infinity. cbn [commonPrefixLenIgnoreCase].
  rewrite lowerByte_digit, eqb_digit by done. reflexivity.
Qed.

Lemma hexPrefix_numeric s :
  allNumeric s = true ->
  match s with
  | String a (String b (String d s3)) =>
      if isByte a 48 && isX b then (true, String d s3) else (false, s)
  | _ => (false, s)
  end = (false, s).
Proof.
  intros Hn. destruct s as [|a [|b [|d s3]]]; try reflexivity.
  cbn [allNumeric] in Hn. apply andb_prop in Hn as [_ Hn].
  apply andb_prop in Hn as [Hb _].
  unfold isX. rewrite !(isByte_numeric b) by (done || lia).
  by rewrite andb_false_r.
Qed.

Lemma readFloat_numeric neg body (M : Z * Z) :
  headDigit body = true -> allNumeric body = true ->
  readMantissa false body 0 0 false false false
  = {| m_val := fst M; m_frac := snd M; m_sawdigits := true;
       m_underscores := false; m_rest := EmptyString |} ->
  readFloat (signText neg ++ body)
  = Some {| n_mant := fst M; n_exp := 0 - snd M; n_neg := neg; n_hex := false;
            n_read := len (signText neg ++ body) |}.
Proof.
  intros Hh Hn Hr. destruct neg; unfold signText.
  - change ("-" ++ body) with (String "-" body). cbn [readFloat].
    change (isByte "-" 43) with false. change (isByte "-" 45) with true. cbv iota.
    rewrite (hexPrefix_numeric body Hn), Hr. cbn. reflexivity.
  - rewrite append_nil. destruct body as [|c body']; [discriminate|].
    cbn [headDigit] in Hh. cbn [readFloat].
    rewrite !(isByte_digit c) by (done || lia).
    rewrite (hexPrefix_numeric _ Hn), Hr. cbn. reflexivity.
Qed.

Lemma special_signText neg body :
  headDigit body = true -> special (signText neg ++ body) = None.
Proof.
  intros H. destruct neg; unfold signText.
  - by apply special_minus.
  - rewrite append_nil. by apply special_digit.
Qed.

Lemma twoDecimals_numeric n : 0 <= n -> allNumeric (twoDecimals n) = true.
Proof.
  intros Hn. unfold twoDecimals.
  rewrite !allNumeric_app, decimal_numeric, fixedDigits_numeric.
  - reflexivity.
  - apply Z.mod_pos_bound. lia.
  - apply Z.div_pos; lia.
Qed.

Lemma twoDecimals_head n : 0 <= n -> headDigit (twoDecimals n) = true.
Proof. intros Hn. unfold twoDecimals. apply headDigit_app, decimal_head, Z.div_pos; lia. Qed.

Lemma readMantissa_twoDecimals n :
  0 <= n ->
  readMantissa false (twoDecimals n) 0 0 false false false
  = {| m_val := n; m_frac := 2; m_sawdigits := true; m_underscores := false;
       m_rest := EmptyString |}.
Proof.
  intros Hn. unfold twoDecimals.
  destruct (readMantissa_decimal (n / 100) ("." ++ fixedDigits 2 (n mod 100))
              0 0 false false false) as [w ->]; [apply Z.div_pos; lia|].
  change ("." ++ ?x) with (String "." x).
  cbn [readMantissa]. change (isByte "." 95) with false.
  change (isByte "." 46) with true. cbv iota.
  rewrite <- (append_empty (fixedDigits _ _)).
  rewrite readMantissa_fixed by (apply Z.mod_pos_bound; lia).
  cbn [readMantissa orb].
  change (10 ^ Z.of_nat 2) with 100.
  rewrite (Z.mod_small (n mod 100)) by (apply Z.mod_pos_bound; lia).
  f_equal; try lia.
  pose proof (Z.div_mod n 100 ltac:(lia)). lia.
Qed.

Lemma ParseFloat_twoDecimals s n :
  0 <= n ->
  ParseFloat (signText s ++ twoDecimals n)
  = (decimalToFloat s n (- 2),
     if isInf (decimalToFloat s n (- 2)) then Some ErrRange else None).
Proof.
  intros Hn. unfold ParseFloat.
  rewrite special_signText by (by apply twoDecimals_head).
  rewrite (readFloat_numeric s (twoDecimals n) (n, 2))
    by (by (apply twoDecimals_head || apply twoDecimals_numeric || apply readMantissa_twoDecimals)).
  cbn [n_hex n_neg n_mant n_exp n_read fst snd].
  by rewrite Nat.eqb_refl.
Qed.

(** *** Cleaning a rendering changes nothing *)

Lemma numeric_plain c : numeric c = true -> plain c = true.
Proof.
  intros H. unfold plain.
  assert (Ascii.eqb "$" c = false) as ->
    by (destruct (Ascii.eqb_spec "$" c) as [<-|]; [discriminate H|reflexivity]).
  assert (Ascii.eqb "," c = false) as ->
    by (destruct (Ascii.eqb_spec "," c) as [<-|]; [discriminate H|reflexivity]).
  assert (46 <= code c <= 57)%nat as Hc.
  { unfold numeric in H. apply orb_prop in H as [H|H].
    - apply isDigit_code in H. lia.
    - unfold isByte in H. apply Nat.eqb_eq in H. lia. }
  unfold asciiSpace, between.
  replace (code c <? 128)%nat with true by (symmetry; apply Nat.ltb_lt; lia).
  replace (code c <=? 13)%nat with false by (symmetry; apply Nat.leb_gt; lia).
  replace (code c =? 32)%nat with false by (symmetry; apply Nat.eqb_neq; lia).
  by rewrite andb_false_r.
Qed.

Lemma allNumeric_plain s : allNumeric s = true -> allPlain s = true.
Proof.
  induction s as [|c s IH]; [reflexivity|]. cbn [allNumeric allPlain].
  intros H. apply andb_prop in H as [Hc Hs]. by rewrite numeric_plain, IH.
Qed.

Lemma allPlain_app a b : allPlain (a ++ b) = allPlain a && allPlain b.
Proof.
  induction a as [|x a IH]; [reflexivity|].
  rewrite append_cons. cbn [allPlain]. by rewrite IH, andb_assoc.
Qed.

Lemma allPlain_rev s : allPlain (rev s) = allPlain s.
Proof.
  induction s as [|c s IH]; [reflexivity|]. cbn [rev allPlain].
  rewrite allPlain_app, IH. cbn [allPlain]. by rewrite andb_true_r, andb_comm.
Qed.

Lemma rev_app a b : rev (a ++ b) = rev b ++ rev a.
Proof.
  induction a as [|x a IH].
  - by rewrite append_nil, append_empty.
  - rewrite append_cons. cbn [rev]. by rewrite IH, append_assoc.
Qed.

Lemma rev_involutive s : rev (rev s) = s.
Proof.
  induction s as [|c s IH]; [reflexivity|]. cbn [rev].
  by rewrite rev_app, IH.
Qed.

Lemma plain_code c : plain c = true -> (code c < 128)%nat /\ asciiSpace c = false.
Proof.
  unfold plain. intros H. repeat (apply andb_prop in H as [H ?]).
  apply Nat.ltb_lt in H. split; [done|]. by apply negb_true_iff.
Qed.

Lemma space2_plain a b : (code a < 128)%nat -> space2 a b = false.
Proof.
  intros H. unfold space2.
  replace (code a =? 194)%nat with false by (symmetry; apply Nat.eqb_neq; lia).
  reflexivity.
Qed.

Lemma space3_plain a b c : (code a < 128)%nat -> space3 a b c = false.
Proof.
  intros H. unfold space3.
  replace (code a =? 225)%nat with false by (symmetry; apply Nat.eqb_neq; lia).
  replace (code a =? 226)%nat with false by (symmetry; apply Nat.eqb_neq; lia).
  replace (code a =? 227)%nat with false by (symmetry; apply Nat.eqb_neq; lia).
  reflexivity.
Qed.

Lemma trimLeft_plain s : allPlain s = true -> trimLeft s = s.
Proof.
  destruct s as [|a s1]; [reflexivity|]. cbn [allPlain trimLeft]. intros H.
  apply andb_prop in H as [Ha _]. apply plain_code in Ha as [Ha ->].
  destruct s1 as [|b s2]; [reflexivity|]. rewrite space2_plain by done.
  destruct s2 as [|c s3]; [reflexivity|]. by rewrite space3_plain.
Qed.

Lemma trimLeftRev_plain s : allPlain s = true -> trimLeftRev s = s.
Proof.
  destruct s as [|a s1]; [reflexivity|]. cbn [allPlain trimLeftRev]. intros H.
  apply andb_prop in H as [Ha H1]. apply plain_code in Ha as [Ha ->].
  destruct s1 as [|b s2]; [reflexivity|]. cbn [allPlain] in H1.
  apply andb_prop in H1 as [Hb H2]. apply plain_code in Hb as [Hb _].
  rewrite space2_plain by done.
  destruct s2 as [|c s3]; [reflexivity|]. cbn [allPlain] in H2.
  apply andb_prop in H2 as [Hc _]. apply plain_code in Hc as [Hc _].
  by rewrite space3_plain.
Qed.

Lemma TrimSpace_plain s : allPlain s = true -> TrimSpace s = s.
Proof.
  intros H. unfold TrimSpace, trimRight. rewrite trimLeft_plain by done.
  rewrite trimLeftRev_plain by (by rewrite allPlain_rev). apply rev_involutive.
Qed.

Lemma TrimPrefix_plain s : allPlain s = true -> TrimPrefix s "$" = s.
Proof.
  intros H. unfold TrimPrefix. destruct s as [|c s]; [reflexivity|].
  cbn [allPlain] in H. apply andb_prop in H as [H _]. unfold plain in H.
  repeat (apply andb_prop in H as [H ?]).
  cbn [HasPrefix]. by destruct (Ascii.eqb "$" c).
Qed.

Lemma replaceFrom_plain s :
  allPlain s = true -> replaceFrom "," EmptyString 0 s = s.
Proof.
  induction s as [|c s IH]; [reflexivity|]. cbn [allPlain]. intros H.
  apply andb_prop in H as [Hc Hs]. unfold plain in Hc.
  repeat (apply andb_prop in Hc as [Hc ?]).
  cbn [replaceFrom HasPrefix]. destruct (Ascii.eqb "," c); [discriminate|].
  cbn [andb]. by rewrite IH.
Qed.

Lemma cleanedToken_plain s : allPlain s = true -> cleanedToken s = s.
Proof.
  intros H. unfold cleanedToken.
  rewrite TrimSpace_plain, TrimPrefix_plain by done. by apply replaceFrom_plain.
Qed.

Lemma twoDecimals_plain s n : 0 <= n -> allPlain (signText s ++ twoDecimals n) = true.
Proof.
  intros Hn. rewrite allPlain_app, (allNumeric_plain _ (twoDecimals_numeric n Hn)).
  by destruct s.
Qed.

Lemma NormalizePrice_twoDecimals s n :
  0 <= n -> isInf (decimalToFloat s n (- 2)) = false ->
  Receipt.NormalizePrice (signText s ++ twoDecimals n) = decimalToFloat s n (- 2).
Proof.
  intros Hn Hi. unfold Receipt.NormalizePrice.
  fold (cleanedToken (signText s ++ twoDecimals n)).
  rewrite cleanedToken_plain by (by apply twoDecimals_plain).
  by rewrite ParseFloat_twoDecimals, Hi.
Qed.

Lemma cents_nonneg m e : 0 <= cents m e.
Proof.
  unfold cents. destruct (0 <=? e) eqn:E.
  - apply Z.leb_le in E. pose proof (Z.pow_nonneg 2 e ltac:(lia)). nia.
  - apply Z.leb_gt in E.
    assert (0 < 2 ^ (- e)) as Hp by (apply Z.pow_pos_nonneg; lia).
    unfold roundHalfEven.
    assert (0 <= 100 * Zpos m / 2 ^ (- e)) by (apply Z.div_pos; lia).
    destruct (_ ?= _); [destruct (Z.even _)| |]; lia.
Qed.

(** The amount of a rendering renders the same. *)
Lemma toString_fixed v :
  valid_binary prec emax v = true -> isNaN v = false ->
  toString (Receipt.NormalizePrice (toString v)) = toString v
  /\ isNaN (Receipt.NormalizePrice (toString v)) = false.
Proof.
  intros Hv Hn. destruct v as [[]|[]| |s m e].
  1-4: vm_compute; done.
  1: discriminate.
  cbn [valid_binary] in Hv. cbn [toString].
  pose proof (cents_nonneg m e) as H0.
  destruct (cents m e) as [|N|N] eqn:EN; [|clear H0|lia].
  - rewrite NormalizePrice_twoDecimals by done. by destruct s.
  - destruct (div_cents s m e N Hv ltac:(done)) as (mw & ew & Hd & Hc).
    assert (decimalToFloat s (Zpos N) (- 2) = S754_finite s mw ew) as Hdec by exact Hd.
    rewrite NormalizePrice_twoDecimals by (by rewrite ?Hdec).
    rewrite Hdec. cbn [toString isNaN]. by rewrite Hc, EN.
Qed.

Lemma feq_refl v : isNaN v = false -> feq v v = true.
Proof. intros H. by apply feq_rank. Qed.

Lemma feq_same a b :
  feq a b = true -> a = b \/ exists s s', a = S754_zero s /\ b = S754_zero s'.
Proof.
  unfold feq, SFeqb. destruct a as [s|[]| |[] m e], b as [s'|[]| |[] m' e'];
    cbn [SFcompare]; try discriminate; try (by left); try (by destruct s);
    try (by destruct s').
  - right. by exists s, s'.
  - destruct (Z.compare_spec e e') as [->| |]; try discriminate.
    intros H. left. destruct (Pos.compare_cont Eq m m') eqn:C; try discriminate.
    apply Pos.compare_eq in C. by subst.
  - destruct (Z.compare_spec e e') as [->| |]; try discriminate.
    intros H. left. destruct (Pos.compare_cont Eq m m') eqn:C; try discriminate.
    apply Pos.compare_eq in C. by subst.
Qed.

(** C7, as the code has it, with the two-decimal rendering of the spec.
    The equation holds for an input exactly when its normalized amount is
    the amount of an already-canonical amount string, that is of the
    rendering of an amount other than NaN: then the normalized amount
    renders as that string, and normalizing the rendering gives the same
    amount again, bit for bit and for the comparison [==]; and an input
    for which the equation holds has such an amount. *)
Theorem normalize_price_idempotent (x : string) :
  (forall v : float64,
     valid_binary prec emax v = true -> isNaN v = false ->
     Receipt.NormalizePrice x = Receipt.NormalizePrice (toString v) ->
     toString (Receipt.NormalizePrice x) = toString v
     /\ Receipt.NormalizePrice (toString (Receipt.NormalizePrice x))
        = Receipt.NormalizePrice x
     /\ feq (Receipt.NormalizePrice (toString (Receipt.NormalizePrice x)))
            (Receipt.NormalizePrice x) = true)
  /\ (feq (Receipt.NormalizePrice (toString (Receipt.NormalizePrice x)))
          (Receipt.NormalizePrice x) = true ->
      exists v : float64,
        valid_binary prec emax v = true /\ isNaN v = false
        /\ Receipt.NormalizePrice x = Receipt.NormalizePrice (toString v)).
Proof.
  split.
  - intros v Hv Hn Hx. destruct (toString_fixed v Hv Hn) as [Hfix Hnan].
    rewrite Hx, Hfix. split; [reflexivity|]. split; [reflexivity|].
    by apply feq_refl.
  - intros H. exists (Receipt.NormalizePrice x).
    split; [apply NormalizePrice_valid|].
    assert (isNaN (Receipt.NormalizePrice x) = false) as Hn.
    { destruct (Receipt.NormalizePrice x); try reflexivity.
      by destruct (Receipt.NormalizePrice (toString S754_nan)) as [[]|[]| |[] ? ?]. }
    split; [done|].
    destruct (feq_same _ _ H) as [E|(s & s' & _ & E)]; [done|].
    rewrite E. by destruct s'.
Qed.

Lemma normalize_price_idempotent_witness :
  toString (Receipt.NormalizePrice "  $1,234.56  ") = "1234.56"
  /\ Receipt.NormalizePrice (toString (Receipt.NormalizePrice "  $1,234.56  "))
     = Receipt.NormalizePrice "  $1,234.56  "
  /\ feq (Receipt.NormalizePrice (toString (Receipt.NormalizePrice "  $1,234.56  ")))
         (Receipt.NormalizePrice "  $1,234.56  ") = true.
Proof.
  apply (proj1 (normalize_price_idempotent "  $1,234.56  ")
           (Receipt.NormalizePrice "1234.5649"));
    vm_compute; reflexivity.
Defined.

(** C7 as stated fails.  An amount with more than two decimals is not the
    amount of its rendering: "0.001" normalizes to 0.001, which is
    rendered as "0.00" and normalized to 0; "1.005" is rendered as "1.00".
    And ParseFloat accepts the token "NaN", so its normalized amount is
    NaN, which is rendered as "NaN" and normalized to NaN again; NaN is
    not equal to itself, whatever the rendering is. *)
Lemma normalize_price_not_idempotent :
  (toString (Receipt.NormalizePrice "0.001") = "0.00"
   /\ feq (Receipt.NormalizePrice (toString (Receipt.NormalizePrice "0.001")))
          (Receipt.NormalizePrice "0.001") = false)
  /\ (toString (Receipt.NormalizePrice "1.005") = "1.00"
      /\ feq (Receipt.NormalizePrice (toString (Receipt.NormalizePrice "1.005")))
             (Receipt.NormalizePrice "1.005") = false)
  /\ (Receipt.NormalizePrice "NaN" = S754_nan
      /\ toString (Receipt.NormalizePrice "NaN") = "NaN"
      /\ feq (Receipt.NormalizePrice (toString (Receipt.NormalizePrice "NaN")))
             (Receipt.NormalizePrice "NaN") = false
      /\ (forall render : float64 -> string,
            feq (Receipt.NormalizePrice (render (Receipt.NormalizePrice "NaN")))
                (Receipt.NormalizePrice "NaN") = false)).
Proof.
  split; [split; vm_compute; reflexivity|].
  split; [split; vm_compute; reflexivity|].
  split; [vm_compute; reflexivity|].
  split; [vm_compute; reflexivity|].
  split; [vm_compute; reflexivity|].
  intros render. change (Receipt.NormalizePrice "NaN") with S754_nan.
  by destruct (Receipt.NormalizePrice (render S754_nan)) as [[]|[]| |[] ? ?].
Qed.

(** Some renderings. *)
Example toString_examples :
  toString (f64 "1234.5") = "1234.50"
  /\ toString (f64 "3.50") = "3.50"
  /\ toString (f64 "-5") = "-5.00"
  /\ toString (f64 "4.99") = "4.99"
  /\ toString (f64 "2.675") = "2.67"
  /\ toString (f64 "0.125") = "0.12"
  /\ toString (f64 "0.375") = "0.38"
  /\ toString (f64 "0.005") = "0.01"
  /\ toString (f64 "-0.001") = "-0.00"
  /\ toString (f64 "1e22") = "10000000000000000000000.00".
Proof. vm_compute. repeat split. Qed.

Local Close Scope Z_scope.

(** * The code beyond the claims *)

(** ** The matcher and the words of a pattern *)

Lemma len_app a b : len (a ++ b) = (len a + len b)%nat.
Proof. unfold len. induction a as [|c a IH]; [reflexivity|]. rewrite append_cons. cbn. by rewrite IH. Qed.

Lemma rep_sound {A} k s : forall lo hi i cap (kt : cont A) x,
  rep k lo hi s i cap kt = Some x ->
  exists w s', s = w ++ s' /\ lang (RRep k lo hi) w /\ kt s' (i + len w)%nat cap = Some x.
Proof.
  induction s as [|c s IH]; intros lo hi i cap kt x; cbn [rep].
  - destruct (lo =? 0)%nat eqn:E; [|discriminate]. apply Nat.eqb_eq in E. subst lo.
    intros H. exists EmptyString, EmptyString. rewrite Nat.add_0_r.
    repeat split; [cbn; lia | by destruct hi; cbn; lia | done].
  - assert (stop : (if (lo =? 0)%nat then kt (String c s) i cap else None) = Some x ->
      exists w s', String c s = w ++ s' /\ lang (RRep k lo hi) w
                   /\ kt s' (i + len w)%nat cap = Some x).
    { destruct (lo =? 0)%nat eqn:E; [|discriminate]. apply Nat.eqb_eq in E. subst lo.
      intros H. exists EmptyString, (String c s). rewrite Nat.add_0_r.
      repeat split; [cbn; lia | by destruct hi; cbn; lia | done]. }
    destruct (mayTake hi && inCls k c) eqn:T; [|exact stop].
    destruct (rep k (Nat.pred lo) (decHi hi) s (S i) cap kt) as [y|] eqn:R; [|exact stop].
    intros H. simplify_eq. apply IH in R as (w & s' & -> & (Hall & Hlo & Hhi) & Hk).
    apply andb_prop in T as [Tm Tc].
    exists (String c w), s'. rewrite append_cons. split; [done|]. split.
    + cbn [lang allBytes len String.length] in *. rewrite Tc, Hall. unfold len in *.
      repeat split; [lia|]. destruct hi as [[|h]|]; cbn in *; try done. lia.
    + cbn [len String.length]. unfold len in Hk. by replace (i + S (String.length w))%nat with (S i + String.length w)%nat by lia.
Qed.

Lemma rep_complete {A} k w : forall lo hi s' i cap (kt : cont A),
  lang (RRep k lo hi) w ->
  kt s' (i + len w)%nat cap <> None ->
  rep k lo hi (w ++ s') i cap kt <> None.
Proof.
  induction w as [|c w IH]; intros lo hi s' i cap kt (Hall & Hlo & Hhi) Hk.
  - rewrite append_nil. cbn in Hlo. assert (lo = 0)%nat as -> by lia.
    cbn [len String.length] in Hk. rewrite Nat.add_0_r in Hk.
    destruct s' as [|c s']; cbn [rep Nat.eqb]; [done|].
    destruct (mayTake hi && inCls k c); [|done].
    by destruct (rep k _ _ _ _ _ _).
  - rewrite append_cons. cbn [rep]. cbn [allBytes] in Hall.
    apply andb_prop in Hall as [Hc Hall]. rewrite Hc, andb_true_r.
    cbn [len String.length] in Hlo, Hhi, Hk.
    assert (mayTake hi = true) as -> by (destruct hi as [[|h]|]; cbn in *; done || lia).
    assert (rep k (Nat.pred lo) (decHi hi) (w ++ s') (S i) cap kt <> None) as Hr.
    { apply IH.
      - repeat split; [done|unfold len; lia|]. destruct hi as [h|]; cbn in *; [unfold len; lia|done].
      - unfold len in *. by replace (S i + String.length w)%nat with (i + S (String.length w))%nat by lia. }
    by destruct (rep k _ _ _ _ _ _).
Qed.

Lemma exec_sound {A} r : forall s i cap (kt : cont A) x,
  exec r s i cap kt = Some x ->
  exists w s' cap', s = w ++ s' /\ lang r w /\ kt s' (i + len w)%nat cap' = Some x.
Proof.
  induction r as [k lo hi|r1 IH1 r2 IH2|r1 IH1 r2 IH2|r1 IH1]; intros s i cap kt x; cbn [exec].
  - intros H. apply rep_sound in H as (w & s' & ? & ? & ?). by exists w, s', cap.
  - intros H. apply IH1 in H as (a & s1 & cap1 & -> & Ha & H).
    apply IH2 in H as (b & s2 & cap2 & -> & Hb & H).
    exists (a ++ b), s2, cap2. rewrite append_assoc, len_app, Nat.add_assoc.
    split; [done|]. split; [|done]. by exists a, b.
  - destruct (exec r1 s i cap kt) as [y|] eqn:E.
    + intros H. simplify_eq. apply IH1 in E as (w & s' & cap' & ? & ? & ?).
      exists w, s', cap'. cbn [lang]. auto.
    + intros H. apply IH2 in H as (w & s' & cap' & ? & ? & ?).
      exists w, s', cap'. cbn [lang]. auto.
  - intros H. apply IH1 in H as (w & s' & cap' & ? & ? & ?).
    by exists w, s', (Some (i, (i + len w)%nat)).
Qed.

Lemma exec_complete {A} r : forall w s' i cap (kt : cont A),
  lang r w ->
  (forall cap', kt s' (i + len w)%nat cap' <> None) ->
  exec r (w ++ s') i cap kt <> None.
Proof.
  induction r as [k lo hi|r1 IH1 r2 IH2|r1 IH1 r2 IH2|r1 IH1]; intros w s' i cap kt Hw Hk; cbn [exec].
  - by apply rep_complete.
  - destruct Hw as (a & b & -> & Ha & Hb). rewrite append_assoc.
    apply IH1; [done|]. intros cap'. apply IH2; [done|]. intros cap''.
    rewrite len_app, Nat.add_assoc in Hk. apply Hk.
  - destruct Hw as [Hw|Hw].
    + pose proof (IH1 w s' i cap kt Hw Hk). by destruct (exec r1 _ _ _ _).
    + pose proof (IH2 w s' i cap kt Hw Hk). by destruct (exec r1 _ _ _ _).
  - apply IH1; [done|]. intros cap'. apply Hk.
Qed.

Lemma matchAt_sound r s i j cap :
  matchAt r s i = Some (j, cap) ->
  exists w s', s = w ++ s' /\ lang r w /\ j = (i + len w)%nat.
Proof.
  unfold matchAt. intros H. apply exec_sound in H as (w & s' & cap' & -> & Hw & H).
  exists w, s'. by simplify_eq.
Qed.

Lemma matchAt_complete r w s' i : lang r w -> matchAt r (w ++ s') i <> None.
Proof. intros Hw. unfold matchAt. by apply exec_complete. Qed.

Lemma search_sound r s : forall i i' j cap,
  search r s i = Some (i', j, cap) ->
  exists a w b, s = a ++ w ++ b /\ lang r w /\ i' = (i + len a)%nat /\ j = (i' + len w)%nat
                /\ matchAt r (w ++ b) i' = Some (j, cap).
Proof.
  induction s as [|c s IH]; intros i i' j cap; cbn [search].
  - destruct (matchAt r EmptyString i) as [[j0 cap0]|] eqn:E; [|discriminate].
    intros H. simplify_eq. pose proof E as E'.
    apply matchAt_sound in E as (w & s' & Hs & Hw & ->).
    exists EmptyString, w, s'. rewrite append_nil, <- Hs, Nat.add_0_r. done.
  - destruct (matchAt r (String c s) i) as [[j0 cap0]|] eqn:E.
    + intros H. simplify_eq. pose proof E as E'.
      apply matchAt_sound in E as (w & s' & Hs & Hw & ->).
      exists EmptyString, w, s'. rewrite append_nil, <- Hs, Nat.add_0_r. done.
    + intros H. apply IH in H as (a & w & b & -> & Hw & -> & -> & Hm).
      exists (String c a), w, b. rewrite append_cons. cbn [len String.length].
      unfold len in *. replace (i + S (String.length a))%nat with (S i + String.length a)%nat by lia.
      done.
Qed.

Lemma search_complete r a : forall w b i,
  lang r w -> search r (a ++ w ++ b) i <> None.
Proof.
  induction a as [|c a IH]; intros w b i Hw.
  - rewrite append_nil. pose proof (matchAt_complete r w b i Hw) as H.
    destruct (w ++ b); cbn [search]; destruct (matchAt r _ i) as [[? ?]|]; done.
  - rewrite append_cons. cbn [search].
    destruct (matchAt r _ i) as [[? ?]|]; [done|]. by apply IH.
Qed.

Lemma MatchString_lang r s :
  MatchString r s = true <-> exists a w b, s = a ++ w ++ b /\ lang r w.
Proof.
  unfold MatchString. split.
  - destruct (search r s 0) as [[[i j] cap]|] eqn:E; [|discriminate]. intros _.
    apply search_sound in E as (a & w & b & ? & ? & _). by exists a, w, b.
  - intros (a & w & b & -> & Hw). pose proof (search_complete r a w b 0 Hw).
    by destruct (search r _ 0).
Qed.

(** ** Numbers read by ParseFloat *)

Local Open Scope Z_scope.

Lemma binary_round_aux_number s m e l :
  precise m e -> isNaN (binary_round_aux prec emax s m e l) = false.
Proof.
  intros Hp. rewrite binary_round_aux_unfold by done. cbv zeta.
  set (E := fexp prec emax (Zdigits2 m + e)).
  set (m1 := round_nearest_even _ _).
  assert (precise m1 E) as Hp1 by (apply rounded_precise; done).
  destruct (shifted_canonical m1 E Hp1) as (H0 & _ & _).
  set (E1 := fexp prec emax (Zdigits2 m1 + E)) in *.
  destruct (Z.shiftr m1 (E1 - E)) as [|p|p] eqn:Es; try reflexivity; [|lia].
  by destruct (E1 <=? emax - prec).
Qed.

Lemma binary_round_number s p e : isNaN (binary_round prec emax s p e) = false.
Proof.
  unfold binary_round, shl_align.
  set (E := fexp prec emax (Zpos (digits2_pos p) + e)).
  destruct (E - e) as [|d|d] eqn:Ed; apply binary_round_aux_number; split; try lia.
  - change (Zdigits2 (Zpos p)) with (Zpos (digits2_pos p)). fold E. lia.
  - change (Zdigits2 (Zpos p)) with (Zpos (digits2_pos p)). fold E. lia.
  - rewrite iter_xO, Zdigits2_mul_pow2 by lia.
    change (Zdigits2 (Zpos p)) with (Zpos (digits2_pos p)).
    replace (Zpos (digits2_pos p) + Zpos d + E) with (Zpos (digits2_pos p) + e) by lia.
    fold E. lia.
Qed.

Lemma decimalToFloat_number s m e : isNaN (decimalToFloat s m e) = false.
Proof.
  unfold decimalToFloat. destruct m; try reflexivity.
  destruct (0 <=? e); [apply binary_round_number|].
  unfold SFdiv. rewrite div_core_unfold.
  apply binary_round_aux_number, div_core_precise.
Qed.

Lemma hexToFloat_number s m e : isNaN (hexToFloat s m e) = false.
Proof. unfold hexToFloat. destruct m; try reflexivity. apply binary_round_number. Qed.

Local Close Scope Z_scope.

(** A successful parse that is not of a special value gives a finite number. *)
Lemma ParseFloat_finite s v :
  special s = None -> ParseFloat s = (v, None) -> isNaN v = false /\ isInf v = false.
Proof.
  unfold ParseFloat. intros ->.
  destruct (readFloat s) as [nb|]; [|discriminate].
  destruct (negb _); [discriminate|].
  set (f := if n_hex nb then _ else _).
  assert (isNaN f = false) as Hn
    by (unfold f; destruct (n_hex nb); [apply hexToFloat_number|apply decimalToFloat_number]).
  destruct (isInf f) eqn:Hi; [discriminate|]. intros H. by simplify_eq.
Qed.

(** ** Bytes of strings *)

Lemma allBytes_app p a b : allBytes p (a ++ b) = allBytes p a && allBytes p b.
Proof.
  induction a as [|c a IH]; [reflexivity|]. rewrite append_cons. cbn [allBytes].
  by rewrite IH, andb_assoc.
Qed.

Lemma someByte_app p a b : someByte p (a ++ b) = someByte p a || someByte p b.
Proof.
  induction a as [|c a IH]; [reflexivity|]. rewrite append_cons. cbn [someByte].
  by rewrite IH, orb_assoc.
Qed.

Lemma allBytes_rev p s : allBytes p (rev s) = allBytes p s.
Proof.
  induction s as [|c s IH]; [reflexivity|]. cbn [rev allBytes].
  rewrite allBytes_app, IH. cbn [allBytes]. rewrite andb_true_r. apply andb_comm.
Qed.

Lemma allBytes_impl (p q : ascii -> bool) s :
  (forall c, p c = true -> q c = true) -> allBytes p s = true -> allBytes q s = true.
Proof.
  intros Hpq. induction s as [|c s IH]; [done|]. cbn [allBytes]. intros H.
  apply andb_prop in H as [Hc Hs]. by rewrite (Hpq c Hc), IH.
Qed.

Lemma someByte_impl (p q : ascii -> bool) s :
  (forall c, p c = true -> q c = true) -> someByte p s = true -> someByte q s = true.
Proof.
  intros Hpq. induction s as [|c s IH]; [done|]. cbn [someByte]. intros H.
  apply orb_prop in H as [Hc|Hs]; [by rewrite (Hpq c Hc)|]. rewrite IH by done. apply orb_true_r.
Qed.

Lemma someByte_or (p q : ascii -> bool) s :
  someByte (fun c => p c || q c) s = someByte p s || someByte q s.
Proof.
  induction s as [|c s IH]; [reflexivity|]. cbn [someByte]. rewrite IH.
  destruct (p c), (q c), (someByte p s), (someByte q s); reflexivity.
Qed.

Lemma allBytes_some p s : allBytes p s = true -> (1 <= len s)%nat -> someByte p s = true.
Proof.
  destruct s as [|c s]; cbn; [lia|]. intros H _. apply andb_prop in H as [-> _]. reflexivity.
Qed.

Lemma someByte_split p s :
  someByte p s = true -> exists a c b, s = a ++ String c b /\ p c = true.
Proof.
  induction s as [|c s IH]; [discriminate|]. cbn [someByte].
  destruct (p c) eqn:Hc.
  - intros _. exists EmptyString, c, s. by rewrite append_nil.
  - cbn [orb]. intros H. apply IH in H as (a & x & b & -> & Hx).
    exists (String c a), x, b. by rewrite append_cons.
Qed.

Lemma allBytes_none p s :
  allBytes (fun c => negb (p c)) s = negb (someByte p s).
Proof.
  induction s as [|c s IH]; [reflexivity|]. cbn [allBytes someByte]. rewrite IH.
  by destruct (p c), (someByte p s).
Qed.

Lemma Contains_byte c s : Contains s (String c EmptyString) = someByte (Ascii.eqb c) s.
Proof.
  induction s as [|b s IH]; [reflexivity|]. cbn [Contains HasPrefix someByte].
  rewrite IH. destruct s; by rewrite andb_true_r.
Qed.

(** ** The price pattern *)

Lemma lang_priceGroup g :
  lang (RCat (plus (COr CDigit (CByte ","))) (RCat (opt (CByte ".")) (star CDigit))) g ->
  exists x y, g = x ++ y /\ allBytes priceByte x = true /\ (1 <= len x)%nat
              /\ allBytes numeric y = true.
Proof.
  cbn [lang plus opt star]. intros (x & y & -> & (Hx & Hlo & _) & (p & d & -> & (Hp & _) & (Hd & _))).
  exists x, (p ++ d). repeat split; [done|done|].
  rewrite allBytes_app. apply andb_true_intro. split.
  - revert Hp. apply allBytes_impl. intros c H. cbn [inCls] in H. unfold numeric, isByte.
    apply Ascii.eqb_eq in H. subst c. reflexivity.
  - revert Hd. apply allBytes_impl. intros c H. cbn [inCls] in H. unfold numeric. by rewrite H.
Qed.

Lemma lang_priceRegex w :
  lang priceRegex w <->
  exists d g, w = d ++ g /\ (d = EmptyString \/ d = "$")
    /\ lang (RCat (plus (COr CDigit (CByte ","))) (RCat (opt (CByte ".")) (star CDigit))) g.
Proof.
  unfold priceRegex. cbn [lang]. split.
  - intros (d & g & -> & (Hd & _ & Hl) & Hg). exists d, g.
    split; [done|]. split; [|done].
    destruct d as [|c [|c' d]]; cbn [within len String.length] in Hl; [by left| |lia].
    right. cbn [allBytes inCls] in Hd. rewrite andb_true_r in Hd. apply Ascii.eqb_eq in Hd. by subst.
  - intros (d & g & -> & Hd & Hg). exists d, g.
    split; [done|]. split; [|done].
    destruct Hd as [-> | ->]; repeat split; cbn; lia.
Qed.

Lemma MatchString_priceRegex s : MatchString priceRegex s = someByte priceByte s.
Proof.
  apply eq_true_iff_eq. rewrite MatchString_lang. split.
  - intros (a & w & b & -> & Hw). apply lang_priceRegex in Hw as (d & g & -> & _ & Hg).
    apply lang_priceGroup in Hg as (x & y & -> & Hx & Hl & _).
    rewrite !someByte_app, (allBytes_some _ _ Hx Hl).
    by rewrite !orb_true_r.
  - intros H. apply someByte_split in H as (a & c & b & -> & Hc).
    exists a, (String c EmptyString), b. split; [by rewrite append_cons, append_nil|].
    apply lang_priceRegex. exists EmptyString, (String c EmptyString).
    split; [done|]. split; [by left|]. cbn [lang plus opt star].
    exists (String c EmptyString), EmptyString. repeat split; try (cbn; lia).
    + cbn [allBytes inCls]. unfold priceByte in Hc. by rewrite Hc.
    + exists EmptyString, EmptyString. repeat split; cbn; lia.
Qed.

Lemma containsPrice_marks s :
  containsPrice s = someByte dollar s || someByte priceByte s.
Proof. unfold containsPrice. by rewrite Contains_byte, MatchString_priceRegex. Qed.

(** ** Dates carry digits *)

Lemma lang_digits_some lo hi w :
  lang (Receipt.digits (S lo) hi) w -> exists c w', w = String c w' /\ isDigit c = true.
Proof.
  unfold Receipt.digits. cbn [lang]. intros (Hall & Hlo & _).
  destruct w as [|c w]; [cbn in Hlo; lia|]. cbn [allBytes inCls] in Hall.
  apply andb_prop in Hall as [Hc _]. by exists c, w.
Qed.

Lemma lang_dateRegex_digit w : lang dateRegex w -> someByte isDigit w = true.
Proof.
  unfold dateRegex. cbn [lang]. intros [H|H];
    destruct H as (a & b & -> & Ha & _);
    apply lang_digits_some in Ha as (c & a' & -> & Hc);
    rewrite append_cons; cbn [someByte]; by rewrite Hc.
Qed.

(** ** The group of a match *)

Lemma substring_app a g r : String.substring (len a) (len g) (a ++ g ++ r) = g.
Proof.
  induction a as [|c a IH].
  - rewrite append_nil. unfold len. cbn [String.length]. induction g as [|c g IH].
    + by destruct r.
    + rewrite append_cons. cbn [String.length String.substring]. by rewrite IH.
  - rewrite append_cons. unfold len in *. cbn [String.length String.substring]. apply IH.
Qed.

Lemma substring_prefix g r : String.substring 0 (len g) (g ++ r) = g.
Proof. apply (substring_app EmptyString g r). Qed.

Lemma exec_cat {A} r1 r2 s i cap (kt : cont A) :
  exec (RCat r1 r2) s i cap kt
  = exec r1 s i cap (fun s' i' cap' => exec r2 s' i' cap' kt).
Proof. reflexivity. Qed.

Lemma exec_cap {A} r s i cap (kt : cont A) :
  exec (RCap r) s i cap kt = exec r s i cap (fun s' i' _ => kt s' i' (Some (i, i'))).
Proof. reflexivity. Qed.

Lemma FindStringSubmatch_priceRegex s l :
  FindStringSubmatch priceRegex s = l ->
  l = [] \/ exists a d g r, s = a ++ d ++ g ++ r /\ l = [d ++ g; g]
      /\ lang (RCat (plus (COr CDigit (CByte ","))) (RCat (opt (CByte ".")) (star CDigit))) g.
Proof.
  unfold FindStringSubmatch. destruct (search priceRegex s 0) as [[[i j] cap]|] eqn:E; [|by left].
  intros <-. right.
  apply search_sound in E as (a & w & b & -> & _ & -> & -> & Hm).
  unfold matchAt, priceRegex in Hm. rewrite exec_cat in Hm.
  apply exec_sound in Hm as (d & s1 & cap1 & Hs1' & Hd & Hm).
  rewrite exec_cap in Hm.
  apply exec_sound in Hm as (g & r & cap' & -> & Hg & Hm).
  simplify_eq. exists a, d, g, r.
  split; [by rewrite Hs1'|]. split; [|done].
  unfold slice. cbn [fst snd]. rewrite Hs1'.
  assert (len w = len d + len g)%nat as Hw by lia.
  f_equal; [|f_equal].
  - rewrite <- (append_assoc d g r).
    replace (0 + len a + len w - (0 + len a))%nat with (len (d ++ g)) by (rewrite len_app; lia).
    apply substring_app.
  - rewrite <- (append_assoc a d (g ++ r)).
    replace (0 + len a + len d)%nat with (len (a ++ d)) by (rewrite len_app; lia).
    replace (len (a ++ d) + len g - len (a ++ d))%nat with (len g) by lia.
    apply substring_app.
Qed.

(** ** Dropping a byte *)

Lemma replaceFrom_byte_keeps (p : ascii -> bool) c s :
  allBytes p s = true ->
  allBytes (fun b => p b && negb (Ascii.eqb c b))
    (replaceFrom (String c EmptyString) EmptyString 0 s) = true.
Proof.
  induction s as [|b s IH]; [done|]. cbn [allBytes]. intros H.
  apply andb_prop in H as [Hb Hs]. cbn [replaceFrom HasPrefix len String.length Nat.sub].
  destruct (Ascii.eqb c b) eqn:E.
  - destruct s; cbn [andb]; rewrite append_nil; by apply IH.
  - cbn [andb allBytes]. by rewrite Hb, E, IH.
Qed.

Lemma ReplaceAll_byte_keeps (p : ascii -> bool) c s :
  allBytes p s = true ->
  allBytes (fun b => p b && negb (Ascii.eqb c b))
    (ReplaceAll s (String c EmptyString) EmptyString) = true.
Proof. apply replaceFrom_byte_keeps. Qed.

Lemma allNumeric_bytes s : allNumeric s = allBytes numeric s.
Proof. induction s as [|c s IH]; [reflexivity|]. cbn. by rewrite IH. Qed.

(** ** Parsing digits and points *)

Lemma special_numeric s : allNumeric s = true -> special s = None.
Proof.
  destruct s as [|c s]; [reflexivity|]. cbn [allNumeric special]. intros H.
  apply andb_prop in H as [H _].
  rewrite !(isByte_numeric c) by (done || lia). reflexivity.
Qed.

Lemma HasPrefix_minus_numeric s : allNumeric s = true -> HasPrefix s "-" = false.
Proof.
  destruct s as [|c s]; [reflexivity|]. cbn [allNumeric HasPrefix]. intros H.
  apply andb_prop in H as [H _].
  pose proof (isByte_numeric c 45 H ltac:(lia)) as Hm.
  rewrite (isByte_eqb c 45) in Hm by lia. change (ascii_of_nat 45) with "-"%char in Hm.
  by rewrite Hm.
Qed.

Lemma signed_number_nonneg v : signed false v -> isNaN v = false -> SFleb zero v = true.
Proof. intros H Hn. destruct (signed_false_nonneg v H); congruence. Qed.

(** The amount read from digits and points: zero when they do not parse,
    and a finite value that is not negative when they do. *)
Lemma ParseFloat_numeric s :
  allNumeric s = true ->
  let v := match ParseFloat s with (_, Some _) => zero | (val, None) => val end in
  SFleb zero v = true /\ isInf v = false.
Proof.
  intros Hs. cbv zeta.
  pose proof (ParseFloat_signed s (HasPrefix_minus_numeric s Hs)) as Hsg.
  pose proof (ParseFloat_finite s) as Hf.
  destruct (ParseFloat s) as [v [e|]]; [done|]. cbn [fst] in Hsg.
  destruct (Hf v (special_numeric s Hs) eq_refl) as [Hn Hi].
  split; [by apply signed_number_nonneg|done].
Qed.

Lemma readMantissa_points s : forall m frac sawdot us,
  allBytes (fun c => isByte c 46) s = true ->
  m_sawdigits (readMantissa false s m frac sawdot false us) = false.
Proof.
  induction s as [|c s IH]; intros m frac sawdot us; [done|]. cbn [allBytes]. intros H.
  apply andb_prop in H as [Hc Hs]. cbn [readMantissa].
  assert (isByte c 95 = false) as ->.
  { unfold isByte in *. apply Nat.eqb_eq in Hc. apply Nat.eqb_neq. lia. }
  rewrite Hc. destruct sawdot; [reflexivity|]. by apply IH.
Qed.

Lemma ParseFloat_points s :
  allBytes (fun c => isByte c 46) s = true -> snd (ParseFloat s) <> None.
Proof.
  intros Hs. unfold ParseFloat.
  assert (allNumeric s = true) as Hn.
  { rewrite allNumeric_bytes. revert Hs. apply allBytes_impl. intros c H.
    unfold numeric. by rewrite H, orb_true_r. }
  rewrite (special_numeric s Hn).
  assert (readFloat s = None) as ->; [|done].
  destruct s as [|c s]; [reflexivity|]. cbn [readFloat].
  pose proof Hs as Hs'. cbn [allBytes] in Hs'. apply andb_prop in Hs' as [Hc _].
  assert (forall n, n <> 46%nat -> isByte c n = false) as Hne.
  { intros n Hn'. unfold isByte in *. apply Nat.eqb_eq in Hc. apply Nat.eqb_neq. lia. }
  rewrite (Hne 43%nat), (Hne 45%nat) by lia.
  rewrite (hexPrefix_numeric _ Hn).
  by rewrite (readMantissa_points _ 0%Z 0%Z false false Hs).
Qed.

(** ** extractPrice *)

Lemma priceGroup_cleaned g :
  lang (RCat (plus (COr CDigit (CByte ","))) (RCat (opt (CByte ".")) (star CDigit))) g ->
  allNumeric (ReplaceAll g "," EmptyString) = true.
Proof.
  intros Hg. apply lang_priceGroup in Hg as (x & y & -> & Hx & _ & Hy).
  rewrite allNumeric_bytes.
  apply (allBytes_impl (fun b => (priceByte b || numeric b) && negb (Ascii.eqb "," b))).
  - intros c H. apply andb_prop in H as [H Hc]. unfold priceByte in H.
    destruct (Ascii.eqb "," c); [discriminate|]. rewrite orb_false_r in H.
    unfold numeric in *. destruct (isDigit c); [reflexivity|exact H].
  - apply ReplaceAll_byte_keeps. rewrite allBytes_app. apply andb_true_intro. split.
    + revert Hx. apply allBytes_impl. by intros c ->.
    + revert Hy. apply allBytes_impl. intros c ->. apply orb_true_r.
Qed.

(** The amount of the group that the price pattern finds. *)
Lemma extractPrice_group s :
  extractPrice s = zero
  \/ exists a d g r,
       s = a ++ d ++ g ++ r
       /\ allNumeric (ReplaceAll g "," EmptyString) = true
       /\ extractPrice s
          = match ParseFloat (ReplaceAll g "," EmptyString) with
            | (_, Some _) => zero
            | (price, None) => price
            end.
Proof.
  unfold extractPrice.
  destruct (FindStringSubmatch_priceRegex s _ eq_refl) as [-> | (a & d & g & r & Hs & -> & Hg)];
    [by left|].
  right. exists a, d, g, r. split; [done|]. split; [|done]. by apply priceGroup_cleaned.
Qed.

Lemma extractPrice_amount s :
  SFleb zero (extractPrice s) = true /\ isInf (extractPrice s) = false.
Proof.
  destruct (extractPrice_group s) as [-> | (a & d & g & r & _ & Hn & ->)]; [done|].
  apply (ParseFloat_numeric _ Hn).
Qed.

(** Digits and points without a digit are points. *)
Lemma points_of_numeric t :
  allNumeric t = true -> someByte isDigit t = false ->
  allBytes (fun c => isByte c 46) t = true.
Proof.
  induction t as [|c t IH]; [done|]. cbn [allNumeric someByte allBytes].
  intros Hn Hd. apply andb_prop in Hn as [Hc Hn]. apply orb_false_elim in Hd as [Hc' Hd].
  unfold numeric in Hc. rewrite Hc' in Hc. cbn [orb] in Hc. by rewrite Hc, IH.
Qed.

Lemma extractPrice_digitless s : someByte isDigit s = false -> extractPrice s = zero.
Proof.
  intros Hd. destruct (extractPrice_group s) as [-> | (a & d & g & r & -> & Hn & ->)]; [done|].
  assert (snd (ParseFloat (ReplaceAll g "," EmptyString)) <> None) as He.
  { apply ParseFloat_points, points_of_numeric; [done|].
    rewrite !someByte_app in Hd.
    apply orb_false_elim in Hd as [_ Hd]. apply orb_false_elim in Hd as [_ Hd].
    apply orb_false_elim in Hd as [Hd _].
    assert (allBytes (fun c => negb (isDigit c)) (ReplaceAll g "," EmptyString) = true) as Hnd.
    { apply (allBytes_impl (fun b => negb (isDigit b) && negb (Ascii.eqb "," b))).
      - intros c H. by apply andb_prop in H as [H _].
      - apply ReplaceAll_byte_keeps. rewrite allBytes_none. by rewrite Hd. }
    rewrite allBytes_none in Hnd. by apply negb_true_iff in Hnd. }
  by destruct (ParseFloat _) as [v [e|]].
Qed.

(** ** White space *)

Lemma trimLeft_spec n : forall s, (len s <= n)%nat ->
  (exists a, s = a ++ trimLeft s) /\ leadSpace (trimLeft s) = false.
Proof.
  induction n as [|n IH]; intros s Hn.
  - destruct s; [|cbn in Hn; lia]. split; [by exists EmptyString|done].
  - destruct s as [|a s1]; [split; [by exists EmptyString|done]|].
    cbn [len String.length] in Hn. cbn [trimLeft].
    destruct (asciiSpace a) eqn:Ha.
    { destruct (IH s1 ltac:(unfold len; lia)) as [[x Hx] Hl]. split; [|done].
      exists (String a x). rewrite append_cons. by rewrite <- Hx. }
    destruct s1 as [|b s2].
    { split; [by exists EmptyString|]. cbn [leadSpace]. by rewrite Ha. }
    destruct (space2 a b) eqn:Hb.
    { cbn [String.length] in Hn.
      destruct (IH s2 ltac:(unfold len; lia)) as [[x Hx] Hl]. split; [|done].
      exists (String a (String b x)). rewrite !append_cons. by rewrite <- Hx. }
    destruct s2 as [|c s3].
    { split; [by exists EmptyString|]. cbn [leadSpace]. by rewrite Ha, Hb. }
    destruct (space3 a b c) eqn:Hc.
    { cbn [String.length] in Hn.
      destruct (IH s3 ltac:(unfold len; lia)) as [[x Hx] Hl]. split; [|done].
      exists (String a (String b (String c x))). rewrite !append_cons. by rewrite <- Hx. }
    split; [by exists EmptyString|]. cbn [leadSpace]. by rewrite Ha, Hb, Hc.
Qed.

Lemma trimLeft_suffix s : exists a, s = a ++ trimLeft s.
Proof. apply (trimLeft_spec (len s) s). lia. Qed.

Lemma trimLeft_lead s : leadSpace (trimLeft s) = false.
Proof. apply (trimLeft_spec (len s) s). lia. Qed.

Lemma trimLeft_id s : leadSpace s = false -> trimLeft s = s.
Proof.
  destruct s as [|a [|b [|c s3]]]; cbn [leadSpace trimLeft]; intros H.
  - done.
  - rewrite orb_false_r in H. by rewrite H.
  - apply orb_false_elim in H as [-> H]. rewrite orb_false_r in H. by rewrite H.
  - apply orb_false_elim in H as [-> H]. apply orb_false_elim in H as [-> ->]. done.
Qed.

Lemma trimLeftRev_spec n : forall s, (len s <= n)%nat ->
  (exists a, s = a ++ trimLeftRev s) /\ trailSpace (rev (trimLeftRev s)) = false.
Proof.
  unfold trailSpace. induction n as [|n IH]; intros s Hn.
  - destruct s; [|cbn in Hn; lia]. split; [by exists EmptyString|done].
  - destruct s as [|a s1]; [split; [by exists EmptyString|done]|].
    cbn [len String.length] in Hn. cbn [trimLeftRev].
    destruct (asciiSpace a) eqn:Ha.
    { destruct (IH s1 ltac:(unfold len; lia)) as [[x Hx] Hl]. split; [|done].
      exists (String a x). rewrite append_cons. by rewrite <- Hx. }
    destruct s1 as [|b s2].
    { split; [by exists EmptyString|]. rewrite rev_involutive. by rewrite Ha. }
    destruct (space2 b a) eqn:Hb.
    { cbn [String.length] in Hn.
      destruct (IH s2 ltac:(unfold len; lia)) as [[x Hx] Hl]. split; [|done].
      exists (String a (String b x)). rewrite !append_cons. by rewrite <- Hx. }
    destruct s2 as [|c s3].
    { split; [by exists EmptyString|]. rewrite rev_involutive. by rewrite Ha, Hb. }
    destruct (space3 c b a) eqn:Hc.
    { cbn [String.length] in Hn.
      destruct (IH s3 ltac:(unfold len; lia)) as [[x Hx] Hl]. split; [|done].
      exists (String a (String b (String c x))). rewrite !append_cons. by rewrite <- Hx. }
    split; [by exists EmptyString|]. rewrite rev_involutive. by rewrite Ha, Hb, Hc.
Qed.

Lemma trimLeftRev_suffix s : exists a, s = a ++ trimLeftRev s.
Proof. apply (trimLeftRev_spec (len s) s). lia. Qed.

Lemma trimLeftRev_id s : trailSpace (rev s) = false -> trimLeftRev s = s.
Proof.
  unfold trailSpace. rewrite rev_involutive.
  destruct s as [|a [|b [|c s3]]]; cbn [trimLeftRev]; intros H.
  - done.
  - rewrite orb_false_r in H. by rewrite H.
  - apply orb_false_elim in H as [-> H]. rewrite orb_false_r in H. by rewrite H.
  - apply orb_false_elim in H as [-> H]. apply orb_false_elim in H as [-> ->]. done.
Qed.

Lemma trimRight_prefix s : exists a, s = trimRight s ++ a.
Proof.
  unfold trimRight. destruct (trimLeftRev_suffix (rev s)) as [a Ha].
  exists (rev a). rewrite <- rev_app, <- Ha. by rewrite rev_involutive.
Qed.

Lemma trimRight_trail s : trailSpace (trimRight s) = false.
Proof. unfold trimRight. apply (trimLeftRev_spec (len (rev s)) (rev s)). lia. Qed.

Lemma trimRight_id s : trailSpace s = false -> trimRight s = s.
Proof.
  intros H. unfold trimRight. rewrite trimLeftRev_id, rev_involutive; [done|].
  by rewrite rev_involutive.
Qed.

Lemma leadSpace_prefix u w : leadSpace (u ++ w) = false -> leadSpace u = false.
Proof.
  destruct u as [|a [|b [|c u3]]]; rewrite ?append_cons; cbn [leadSpace]; try done.
  - intros H. apply orb_false_elim in H as [-> _]. done.
  - intros H. apply orb_false_elim in H as [-> H]. rewrite append_nil in H.
    destruct w; [done|]. apply orb_false_elim in H as [-> _]. done.
Qed.

(** What TrimSpace returns neither starts nor ends with white space, and a
    string of that kind is returned as it is. *)
Lemma TrimSpace_trimmed s :
  leadSpace (TrimSpace s) = false /\ trailSpace (TrimSpace s) = false.
Proof.
  unfold TrimSpace. split; [|apply trimRight_trail].
  destruct (trimRight_prefix (trimLeft s)) as [a Ha].
  apply (leadSpace_prefix _ a). rewrite <- Ha. apply trimLeft_lead.
Qed.

Lemma TrimSpace_id s : leadSpace s = false -> trailSpace s = false -> TrimSpace s = s.
Proof. intros Hl Ht. unfold TrimSpace. by rewrite (trimLeft_id s Hl), trimRight_id. Qed.

Lemma TrimSpace_idempotent s : TrimSpace (TrimSpace s) = TrimSpace s.
Proof. destruct (TrimSpace_trimmed s). by apply TrimSpace_id. Qed.

Lemma TrimSpace_infix s : exists a b, s = a ++ TrimSpace s ++ b.
Proof.
  unfold TrimSpace. destruct (trimLeft_suffix s) as [a Ha].
  destruct (trimRight_prefix (trimLeft s)) as [b Hb].
  exists a, b. by rewrite <- Hb.
Qed.

Lemma TrimSpace_bytes p s : allBytes p s = true -> allBytes p (TrimSpace s) = true.
Proof.
  destruct (TrimSpace_infix s) as (a & b & Hs). intros H. rewrite Hs in H.
  rewrite !allBytes_app in H. apply andb_prop in H as [_ H]. by apply andb_prop in H as [H _].
Qed.

(** ** What is left of a line without its prices *)

Lemma lang_priceRegex_len w : lang priceRegex w -> (1 <= len w)%nat.
Proof.
  intros H. apply lang_priceRegex in H as (d & g & -> & _ & Hg).
  apply lang_priceGroup in Hg as (x & y & -> & _ & Hl & _).
  rewrite !len_app. lia.
Qed.

Lemma matchAt_priceByte c s i :
  priceByte c = true ->
  exists j cap, matchAt priceRegex (String c s) i = Some (j, cap) /\ (i < j)%nat.
Proof.
  intros Hc.
  assert (lang priceRegex (String c EmptyString)) as Hw.
  { apply lang_priceRegex. exists EmptyString, (String c EmptyString).
    split; [done|]. split; [by left|]. cbn [lang plus opt star].
    exists (String c EmptyString), EmptyString. repeat split; try (cbn; lia).
    - cbn [allBytes inCls]. unfold priceByte in Hc. by rewrite Hc.
    - exists EmptyString, EmptyString. repeat split; cbn; lia. }
  pose proof (matchAt_complete priceRegex _ s i Hw) as Hm.
  rewrite append_cons, append_nil in Hm.
  destruct (matchAt priceRegex (String c s) i) as [[j cap]|] eqn:E; [|done].
  exists j, cap. split; [done|].
  apply matchAt_sound in E as (w & s' & _ & Hl & ->).
  apply lang_priceRegex_len in Hl. lia.
Qed.

Lemma removeFrom_priceRegex s : forall skip i,
  someByte priceByte (removeFrom priceRegex skip s i) = false.
Proof.
  induction s as [|c s IH]; intros skip i; [done|]. cbn [removeFrom].
  destruct skip as [|k]; [|apply IH].
  destruct (priceByte c) eqn:Hc.
  - destruct (matchAt_priceByte c s i Hc) as (j & cap & -> & Hj).
    apply Nat.ltb_lt in Hj. rewrite Hj. apply IH.
  - destruct (matchAt priceRegex (String c s) i) as [[j cap]|].
    + destruct (i <? j)%nat; [apply IH|]. cbn [someByte]. by rewrite Hc, IH.
    + cbn [someByte]. by rewrite Hc, IH.
Qed.

Lemma removeFrom_bytes (p : ascii -> bool) r s : forall skip i,
  allBytes p s = true -> allBytes p (removeFrom r skip s i) = true.
Proof.
  induction s as [|c s IH]; intros skip i; [done|]. cbn [removeFrom allBytes]. intros H.
  apply andb_prop in H as [Hc Hs].
  destruct skip as [|k]; [|by apply IH].
  destruct (matchAt r (String c s) i) as [[j cap]|].
  - destruct (i <? j)%nat; [by apply IH|]. cbn [allBytes]. by rewrite Hc, IH.
  - cbn [allBytes]. by rewrite Hc, IH.
Qed.

(** The name before its length is looked at. *)
Lemma trimmedName_facts s :
  let name := TrimSpace (ReplaceAll (RemoveAllString priceRegex s) "$" EmptyString) in
  someByte priceMark name = false
  /\ leadSpace name = false /\ trailSpace name = false
  /\ (forall p : ascii -> bool, allBytes p s = true -> allBytes p name = true).
Proof.
  cbv zeta. set (stripped := RemoveAllString priceRegex s).
  set (name := TrimSpace (ReplaceAll stripped "$" EmptyString)).
  assert (allBytes (fun c => negb (priceMark c)) name = true) as Hclean.
  { apply TrimSpace_bytes.
    apply (allBytes_impl (fun b => negb (priceByte b) && negb (Ascii.eqb "$" b))).
    - intros c H. apply andb_prop in H as [H1 H2]. unfold priceMark, dollar.
      by destruct (priceByte c), (Ascii.eqb "$" c).
    - apply ReplaceAll_byte_keeps. rewrite allBytes_none.
      unfold stripped, RemoveAllString. by rewrite removeFrom_priceRegex. }
  rewrite allBytes_none in Hclean. apply negb_true_iff in Hclean.
  destruct (TrimSpace_trimmed (ReplaceAll stripped "$" EmptyString)) as [Hl Ht].
  fold name in Hl, Ht. repeat split; try done.
  intros p Hp. apply TrimSpace_bytes.
  apply (allBytes_impl (fun b => p b && negb (Ascii.eqb "$" b))).
  - intros c H. by apply andb_prop in H as [H _].
  - apply ReplaceAll_byte_keeps. by apply removeFrom_bytes.
Qed.

(** ** Matches and words *)

Lemma MatchWhole_lang r s : MatchWhole r s = true <-> lang r s.
Proof.
  unfold MatchWhole. split.
  - destruct (exec r s 0 None _) as [x|] eqn:E; [|discriminate]. intros _.
    apply exec_sound in E as (w & s' & cap' & -> & Hw & H).
    destruct s'; [|discriminate]. by rewrite append_empty.
  - intros Hw.
    pose proof (exec_complete r s EmptyString 0 None
      (fun rest _ _ => match rest with EmptyString => Some tt | _ => None end) Hw) as H.
    rewrite append_empty in H. by destruct (exec r s 0 None _); [|destruct H].
Qed.

Lemma FindString_word r s :
  (MatchString r s = false /\ FindString r s = EmptyString)
  \/ (MatchString r s = true /\ occursIn (FindString r s) s /\ lang r (FindString r s)).
Proof.
  unfold MatchString, FindString.
  destruct (search r s 0) as [[[i j] cap]|] eqn:E; [right|by left].
  apply search_sound in E as (a & w & b & -> & Hw & -> & -> & _).
  unfold slice. cbn [fst snd].
  replace (0 + len a + len w - (0 + len a))%nat with (len w) by lia.
  change (0 + len a)%nat with (len a). rewrite substring_app.
  split; [done|]. split; [by exists a, b|done].
Qed.

Lemma isEmpty_len s : isEmpty s = true <-> len s = 0%nat.
Proof. destruct s; cbn; split; congruence. Qed.

Lemma lang_minLen r : forall w, lang r w -> (minLen r <= len w)%nat.
Proof.
  induction r as [k lo hi|r1 IH1 r2 IH2|r1 IH1 r2 IH2|r1 IH1]; intros w; cbn [lang minLen].
  - intros (_ & H & _). done.
  - intros (a & b & -> & Ha & Hb). rewrite len_app.
    specialize (IH1 a Ha). specialize (IH2 b Hb). lia.
  - intros [H|H]; [specialize (IH1 w H)|specialize (IH2 w H)]; lia.
  - apply IH1.
Qed.

Lemma FindString_empty r s :
  (1 <= minLen r)%nat -> isEmpty (FindString r s) = negb (MatchString r s).
Proof.
  intros Hr. destruct (FindString_word r s) as [[-> ->]|(-> & _ & Hw)]; [reflexivity|].
  apply lang_minLen in Hw. destruct (FindString r s); [cbn in Hw; lia|reflexivity].
Qed.

(** The first pattern that matches decides. *)
Lemma firstMatch_first ps s :
  Forall (fun p => (1 <= minLen p)%nat) ps ->
  (Receipt.firstMatch ps s = EmptyString /\ Forall (fun p => MatchString p s = false) ps)
  \/ (exists ps1 p ps2, ps = (ps1 ++ p :: ps2)%list
        /\ Forall (fun p => MatchString p s = false) ps1
        /\ MatchString p s = true /\ Receipt.firstMatch ps s = FindString p s).
Proof.
  induction 1 as [|p ps Hp Hps IH]; [by left|]. cbn [Receipt.firstMatch].
  fold (isEmpty (FindString p s)). rewrite (FindString_empty p s Hp), negb_involutive.
  destruct (MatchString p s) eqn:E.
  - right. exists [], p, ps. by repeat split.
  - destruct IH as [[H1 H2]|(ps1 & q & ps2 & -> & H1 & H2 & H3)].
    + left. split; [done|]. by constructor.
    + right. exists (p :: ps1), q, ps2. repeat split; try done. by constructor.
Qed.

Lemma firstMatch_none ps s :
  Forall (fun p => (1 <= minLen p)%nat) ps ->
  Receipt.firstMatch ps s = EmptyString -> Forall (fun p => MatchString p s = false) ps.
Proof.
  intros Hps H0.
  destruct (firstMatch_first ps s Hps) as [[_ H]|(ps1 & p & ps2 & -> & _ & Hp & E)]; [done|].
  destruct (FindString_word p s) as [[Hn _]|(_ & _ & Hw)]; [congruence|].
  apply lang_minLen in Hw. rewrite <- E, H0 in Hw.
  apply Forall_app in Hps as [_ Hps]. apply Forall_cons in Hps as [Hp1 _].
  cbn in Hw. lia.
Qed.

Lemma datePatterns_minLen : Forall (fun p => (1 <= minLen p)%nat) Receipt.datePatterns.
Proof. repeat constructor; cbn; lia. Qed.

Lemma datePatterns_list :
  Receipt.datePatterns = [slashDate; dashDate; isoDate; monthDate; dayMonthDate].
Proof. reflexivity. Qed.

Lemma dateRegex_alt : dateRegex = RAlt slashDate isoDate.
Proof. reflexivity. Qed.

(** ** The shape Y-M-D *)

Lemma lang_lit c w : lang (lit c) w -> w = String c EmptyString.
Proof.
  unfold lit, one. cbn [lang within]. intros (Hall & Hlo & Hhi).
  destruct w as [|x [|y w]]; cbn [len String.length] in *; try lia.
  cbn [allBytes inCls] in Hall. rewrite andb_true_r in Hall.
  apply Ascii.eqb_eq in Hall. by subst.
Qed.

Lemma lit_lang c : lang (lit c) (String c EmptyString).
Proof.
  unfold lit, one. cbn [lang within allBytes inCls len String.length].
  rewrite Ascii.eqb_refl. repeat split; lia.
Qed.

Ltac explode_digits H :=
  let Hall := fresh "Hall" in let Hlo := fresh "Hlo" in let Hhi := fresh "Hhi" in
  unfold Receipt.digits in H; cbn [lang within] in H; destruct H as (Hall & Hlo & Hhi);
  unfold len in Hlo, Hhi;
  repeat match type of Hhi with
         | context [String.length ?a] =>
             is_var a; destruct a as [|? a]; cbn [String.length] in Hlo, Hhi; try lia;
             cbn [allBytes inCls] in Hall;
             try (let Hd := fresh "Hd" in apply andb_prop in Hall as [Hd Hall])
         end.

Lemma lang_isoDate w :
  lang isoDate w ->
  exists d1 d2 d3 d4 d5 d6 d7 d8,
    w = String d1 (String d2 (String d3 (String d4 (String "-"
          (String d5 (String d6 (String "-" (String d7 (String d8 EmptyString)))))))))
    /\ isDigit d1 = true /\ isDigit d2 = true /\ isDigit d3 = true /\ isDigit d4 = true
    /\ isDigit d5 = true /\ isDigit d6 = true /\ isDigit d7 = true /\ isDigit d8 = true.
Proof.
  unfold isoDate. cbn [lang].
  intros (y & r1 & -> & Hy & (x1 & r2 & -> & Hx1 & (m & r3 & -> & Hm & (x2 & d & -> & Hx2 & Hd)))).
  apply lang_lit in Hx1, Hx2. subst x1 x2.
  explode_digits Hy. explode_digits Hm. explode_digits Hd.
  rewrite ?append_cons, ?append_nil. eexists _, _, _, _, _, _, _, _. split; [reflexivity|].
  repeat split; assumption.
Qed.

Lemma isoDate_dashDate s : MatchString isoDate s = true -> MatchString dashDate s = true.
Proof.
  rewrite !MatchString_lang. intros (a & w & b & -> & Hw).
  apply lang_isoDate in Hw
    as (d1 & d2 & d3 & d4 & d5 & d6 & d7 & d8 & -> & H1 & H2 & H3 & H4 & H5 & H6 & H7 & H8).
  exists (a ++ String d1 (String d2 EmptyString)),
    (String d3 (String d4 (String "-" (String d5 (String d6 (String "-"
       (String d7 (String d8 EmptyString)))))))), b.
  split; [by rewrite ?append_assoc, ?append_cons, ?append_nil|].
  unfold dashDate. cbn [lang].
  exists (String d3 (String d4 EmptyString)), (String "-" (String d5 (String d6 (String "-"
       (String d7 (String d8 EmptyString)))))).
  split; [done|]. split.
  { unfold Receipt.digits. cbn [lang within allBytes inCls len String.length].
    rewrite H3, H4. repeat split; lia. }
  exists (String "-" EmptyString), (String d5 (String d6 (String "-"
       (String d7 (String d8 EmptyString))))).
  split; [done|]. split; [apply lit_lang|].
  exists (String d5 (String d6 EmptyString)), (String "-" (String d7 (String d8 EmptyString))).
  split; [done|]. split.
  { unfold Receipt.digits. cbn [lang within allBytes inCls len String.length].
    rewrite H5, H6. repeat split; lia. }
  exists (String "-" EmptyString), (String d7 (String d8 EmptyString)).
  split; [done|]. split; [apply lit_lang|].
  unfold Receipt.digits. cbn [lang within allBytes inCls len String.length].
  rewrite H7, H8. repeat split; lia.
Qed.

Lemma space_not_digit c : inCls CSpace c = true -> isDigit c = false.
Proof.
  cbn [inCls]. unfold isDigit, between. intros H.
  repeat (apply orb_prop in H as [H|H]); apply Nat.eqb_eq in H; rewrite H; reflexivity.
Qed.

Lemma lang_spaces w : lang (plus CSpace) w -> exists c w', w = String c w' /\ isDigit c = false.
Proof.
  unfold plus. cbn [lang]. intros (Hall & Hlo & _).
  destruct w as [|c w]; [cbn in Hlo; lia|]. cbn [allBytes] in Hall.
  apply andb_prop in Hall as [Hc _]. exists c, w. split; [done|]. by apply space_not_digit.
Qed.

Ltac clash :=
  simplify_eq;
  match goal with
  | H : isDigit "/" = true |- _ => discriminate H
  | H : isDigit "-" = true |- _ => discriminate H
  | H1 : isDigit ?c = true, H2 : isDigit ?c = false |- _ => congruence
  end.

Lemma isoDate_apart w :
  lang isoDate w ->
  ~ (lang slashDate w \/ lang dashDate w \/ lang monthDate w \/ lang dayMonthDate w).
Proof.
  intros Hw. apply lang_isoDate in Hw
    as (d1 & d2 & d3 & d4 & d5 & d6 & d7 & d8 & -> & H1 & H2 & H3 & H4 & H5 & H6 & H7 & H8).
  intros [H|[H|[H|H]]].
  - unfold slashDate in H. cbn [lang] in H.
    destruct H as (a & r1 & E & Ha & (x & r2 & -> & Hx & _)).
    apply lang_lit in Hx. subst x. explode_digits Ha;
      rewrite ?append_cons, ?append_nil in E; clash.
  - unfold dashDate in H. cbn [lang] in H.
    destruct H as (a & r1 & E & Ha & (x & r2 & -> & Hx & _)).
    apply lang_lit in Hx. subst x. explode_digits Ha;
      rewrite ?append_cons, ?append_nil in E; clash.
  - unfold monthDate in H. cbn [lang] in H.
    destruct H as (a & r1 & E & (_ & Hlo & Hhi) & (x & r2 & -> & Hx & _)).
    apply lang_spaces in Hx as (c & x' & -> & Hc).
    destruct a as [|c1 [|c2 [|c3 [|c4 a]]]]; cbn [within len String.length] in Hlo, Hhi; try lia.
    rewrite ?append_cons, ?append_nil in E. clash.
  - unfold dayMonthDate in H. cbn [lang] in H.
    destruct H as (a & r1 & E & Ha & (x & r2 & -> & Hx & _)).
    apply lang_spaces in Hx as (c & x' & -> & Hc).
    explode_digits Ha; rewrite ?append_cons, ?append_nil in E; clash.
Qed.

(** ** Subtotal and items *)

Lemma body_subtotal i line st :
  subtotal (body i line st)
  = if subtotalLine line then extractPrice (Text line) else subtotal st.
Proof.
  unfold body, subtotalLine. cbn zeta.
  destruct (containsPrice (Text line)),
    (Contains (ToLower (Text line)) "subtotal"); cbn [andb negb];
  split_ifs; reflexivity.
Qed.

Lemma loop_subtotal lines :
  subtotal (loop 0 lines initLocals) = amountOf (findLast subtotalLine lines).
Proof.
  induction lines as [|x l IH] using rev_ind; [reflexivity|].
  rewrite loop_snoc, body_subtotal, findLast_snoc, IH.
  by destruct (subtotalLine x).
Qed.

Lemma receipt_lookup_subtotal t :
  parseTextractToReceipt t !! "subtotal"
  = Some (AFloat (subtotal (loop 0 (Lines t) initLocals))).
Proof. reflexivity. Qed.

Lemma receipt_lookup_items t :
  parseTextractToReceipt t !! "items" = Some (AMaps (items (loop 0 (Lines t) initLocals))).
Proof. reflexivity. Qed.

Lemma body_items i line st :
  items (body i line st)
  = (items st ++ if itemLine line then [itemOf line] else [])%list.
Proof.
  unfold body, itemLine, itemOf. cbn zeta.
  destruct (containsPrice (Text line)),
    (Contains (ToLower (Text line)) "subtotal"),
    (Contains (ToLower (Text line)) "tax"),
    (Contains (ToLower (Text line)) "total"),
    (flt zero (extractPrice (Text line))); cbn [andb negb];
  try (split_ifs; cbn [items setVendor setDate setSubtotal setTax setTotal];
       by rewrite ?app_nil_r).
  destruct (extractItemName (Text line)) as [|c [|c' n]] eqn:En; cbn [isEmpty String.eqb negb andb len String.length Nat.ltb Nat.leb];
  split_ifs; cbn [items setVendor setDate appendItem]; by rewrite ?app_nil_r.
Qed.

Lemma loop_items lines : forall i st,
  items (loop i lines st) = (items st ++ map itemOf (List.filter itemLine lines))%list.
Proof.
  induction lines as [|x l IH]; intros i st; cbn [loop List.filter map].
  - by rewrite app_nil_r.
  - rewrite IH, body_items. destruct (itemLine x); cbn [map].
    + by rewrite <- app_assoc.
    + by rewrite app_nil_r.
Qed.

(** ** The comparison of lines *)

Lemma flt_irrefl x : flt x x = false.
Proof.
  unfold flt, SFltb.
  destruct x as [s|s| |s m e]; cbn [SFcompare]; [done|by destruct s|done|].
  destruct s; rewrite Z.compare_refl, Pos.compare_cont_refl; reflexivity.
Qed.

Lemma less_irrefl a : less a a = false.
Proof. unfold less. destruct (fne (Top a) (Top a)); apply flt_irrefl. Qed.

Lemma keyLt_trans a b c : keyLt a b -> keyLt b c -> keyLt a c.
Proof. unfold keyLt. ranks. lia. Qed.

Lemma sorted_unique {A} (R : A -> A -> Prop) (l : list A) : forall l',
  StronglySorted R l -> StronglySorted R l' -> Permutation l l' ->
  (forall a b, In a l -> In b l -> R a b -> R b a -> a = b) ->
  l = l'.
Proof.
  induction l as [|x xs IH]; intros l' Hs Hs' Hp Hanti.
  - apply Permutation_nil in Hp. by subst.
  - destruct l' as [|y ys]; [by apply Permutation_sym, Permutation_nil_cons in Hp|].
    apply StronglySorted_inv in Hs as [Hs Hx]. apply StronglySorted_inv in Hs' as [Hs' Hy].
    rewrite List.Forall_forall in Hx, Hy.
    assert (x = y) as ->.
    { assert (In x (y :: ys)) as Hxin
        by (apply (Permutation_in _ Hp); by left).
      assert (In y (x :: xs)) as Hyin
        by (apply (Permutation_in _ (Permutation_sym Hp)); by left).
      destruct Hxin as [->|Hxin]; [done|]. destruct Hyin as [->|Hyin]; [done|].
      apply Hanti; [by left|by right|by apply Hx|by apply Hy]. }
    f_equal. apply IH; [done|done|by apply Permutation_cons_inv in Hp|].
    intros a b Ha Hb. apply Hanti; by right.
Qed.

Lemma sortLines_sorted lines :
  Forall positioned lines -> StronglySorted (fun a b => notLess b a) (sortLines lines).
Proof.
  intros Hp. unfold sortLines.
  apply sorted_rev, fold_insert_sorted; [done|constructor|constructor].
Qed.

(** ** The blocks that become lines *)

Lemma extractLines_filter blocks : forall lines,
  Textract.extractLines blocks lines
  = (lines ++ map Textract.lineOf (List.filter Textract.isLine blocks))%list.
Proof.
  induction blocks as [|b blocks IH]; intros lines; cbn [Textract.extractLines List.filter map].
  - by rewrite app_nil_r.
  - rewrite IH. destruct (Textract.isLine b); [|done]. by rewrite <- app_assoc.
Qed.

(** ** Quantities in range *)

Local Open Scope Z_scope.

Lemma Atoi_range s v : Atoi s = (v, None) -> - 2 ^ 63 <= v <= 2 ^ 63 - 1.
Proof.
  unfold Atoi.
  destruct (match s with
            | EmptyString => (false, s)
            | String c s' =>
                if isByte c 43 then (false, s')
                else if isByte c 45 then (true, s') else (false, s)
            end) as [neg body].
  destruct body as [|c body]; [discriminate|].
  destruct (readDigits (String c body) 0) as [x|]; [|discriminate].
  destruct (_ <? - 2 ^ 63) eqn:E1; [discriminate|].
  destruct (2 ^ 63 - 1 <? _) eqn:E2; [discriminate|].
  intros H. simplify_eq. apply Z.ltb_ge in E1, E2. lia.
Qed.

Lemma readDigits_fixed w : forall n rest acc,
  0 <= n ->
  readDigits (fixedDigits w n ++ rest) acc
  = readDigits rest (acc * 10 ^ Z.of_nat w + n mod 10 ^ Z.of_nat w).
Proof.
  induction w as [|w IH]; intros n rest acc Hn.
  - cbn [fixedDigits Z.of_nat]. rewrite append_nil, Z.pow_0_r, Z.mod_1_r. f_equal. lia.
  - cbn [fixedDigits]. rewrite append_assoc, append_cons, append_nil.
    rewrite IH by (apply Z.div_pos; lia).
    destruct (digitChar_facts (n mod 10)) as (Hd & _ & _ & Hv);
      [apply Z.mod_pos_bound; lia|].
    cbn [readDigits]. rewrite Hd, Hv. f_equal.
    rewrite Nat2Z.inj_succ, Z.pow_succ_r by lia.
    rewrite (Z.rem_mul_r n 10 (10 ^ Z.of_nat w)) by
      (try lia; apply Z.pow_pos_nonneg; lia).
    ring.
Qed.

Lemma readDigits_decimal n : 0 <= n -> readDigits (decimal n) 0 = Some n.
Proof.
  intros Hn. rewrite <- (append_empty (decimal n)). unfold decimal.
  rewrite readDigits_fixed by done. cbn [readDigits]. f_equal.
  rewrite Z.mod_small; [lia|].
  split; [done|]. apply countDigits_bound. split; [done|].
  destruct (Z.eq_dec n 0) as [->|Hz]; [cbn; lia|].
  rewrite Z2Nat.id by apply Z.log2_nonneg.
  pose proof (Z.log2_spec n ltac:(lia)) as [_ H2].
  rewrite Z.pow_succ_r in H2 by apply Z.log2_nonneg.
  pose proof (Z.pow_le_mono_l 2 10 (Z.log2 n) ltac:(lia)). lia.
Qed.

Lemma Atoi_decimal n :
  0 <= n ->
  Atoi (decimal n)
  = if 2 ^ 63 - 1 <? n then (2 ^ 63 - 1, Some ErrRange) else (n, None).
Proof.
  intros Hn. pose proof (decimal_head n Hn) as Hh. pose proof (readDigits_decimal n Hn) as Hr.
  unfold Atoi. destruct (decimal n) as [|c body]; [discriminate|].
  cbn [headDigit] in Hh. rewrite !(isByte_digit c) by (done || lia).
  rewrite Hr. replace (n <? - 2 ^ 63) with false by (symmetry; apply Z.ltb_ge; lia).
  reflexivity.
Qed.

Local Close Scope Z_scope.

(** ** Tokens that IsPrice accepts *)

Lemma substring_all s : String.substring 0 (len s) s = s.
Proof. rewrite <- (append_empty s) at 2. apply substring_prefix. Qed.

Lemma priceByte_not_dollar c : priceByte c = true -> Ascii.eqb "$" c = false.
Proof.
  unfold priceByte. intros H. destruct (Ascii.eqb_spec "$" c) as [<-|]; [|done].
  discriminate H.
Qed.

Lemma lang_pricePattern w : lang Receipt.pricePattern w <-> lang priceRegex w.
Proof. reflexivity. Qed.

(** A token of the price shape, without its dollar sign. *)
Lemma TrimPrefix_price w :
  lang priceRegex w ->
  lang (RCat (plus (COr CDigit (CByte ","))) (RCat (opt (CByte ".")) (star CDigit)))
    (TrimPrefix w "$").
Proof.
  intros Hw. apply lang_priceRegex in Hw as (d & g & -> & [-> | ->] & Hg).
  - rewrite append_nil. pose proof Hg as Hg'.
    apply lang_priceGroup in Hg' as (x & y & -> & Hx & Hl & _).
    destruct x as [|c x]; [cbn in Hl; lia|]. cbn [allBytes] in Hx.
    apply andb_prop in Hx as [Hc _]. unfold TrimPrefix.
    rewrite append_cons in *. cbn [HasPrefix]. by rewrite (priceByte_not_dollar c Hc).
  - change ("$" ++ g) with (String "$" g). unfold TrimPrefix.
    cbn [HasPrefix]. rewrite Ascii.eqb_refl. cbn [andb].
    assert (HasPrefix g EmptyString = true) as -> by by destruct g.
    cbn [len String.length Nat.sub String.substring].
    rewrite Nat.sub_0_r. fold (len g). by rewrite substring_all.
Qed.

(** ** Names *)

Lemma space_last a b c :
  (code a < 128)%nat -> space2 b a = false /\ space3 c b a = false.
Proof.
  intros Ha. unfold space2, space3, between.
  assert (forall n, (128 <= n)%nat -> (code a =? n)%nat = false) as Hne
    by (intros n Hn; apply Nat.eqb_neq; lia).
  rewrite !Hne by lia.
  replace (128 <=? code a)%nat with false by (symmetry; apply Nat.leb_gt; lia).
  by rewrite ?andb_false_r.
Qed.

Lemma asterisk_code : (code "*" < 128)%nat.
Proof. change (code "*") with 42%nat. lia. Qed.

(** ** The first number of a line *)

Lemma take_drop p s : s = takeWhile p s ++ dropWhile p s.
Proof.
  induction s as [|c s IH]; [reflexivity|]. cbn [takeWhile dropWhile].
  destruct (p c); [|by rewrite append_nil]. by rewrite append_cons, <- IH.
Qed.

Lemma rep_star_total {A} k s : forall lo i cap (kt : cont A),
  (forall s' i' cap', kt s' i' cap' <> None) ->
  rep k lo None s i cap kt
  = if (lo <=? len (takeWhile (inCls k) s))%nat
    then kt (dropWhile (inCls k) s) (i + len (takeWhile (inCls k) s))%nat cap
    else None.
Proof.
  induction s as [|c s IH]; intros lo i cap kt Hk.
  - cbn [rep takeWhile dropWhile len String.length]. rewrite Nat.add_0_r.
    by destruct lo.
  - cbn [rep takeWhile dropWhile mayTake andb decHi].
    destruct (inCls k c) eqn:Hc.
    + rewrite IH by done. cbn [len String.length]. fold (len (takeWhile (inCls k) s)).
      destruct (Nat.pred lo <=? len (takeWhile (inCls k) s))%nat eqn:E.
      * apply Nat.leb_le in E.
        replace (lo <=? S (len (takeWhile (inCls k) s)))%nat with true
          by (symmetry; apply Nat.leb_le; lia).
        replace (S i + len (takeWhile (inCls k) s))%nat
          with (i + S (len (takeWhile (inCls k) s)))%nat by lia.
        specialize (Hk (dropWhile (inCls k) s) (i + S (len (takeWhile (inCls k) s)))%nat cap).
        by destruct (kt _ _ _).
      * apply Nat.leb_gt in E.
        replace (lo <=? S (len (takeWhile (inCls k) s)))%nat with false
          by (symmetry; apply Nat.leb_gt; lia).
        destruct lo; [lia|reflexivity].
    + cbn [len String.length]. rewrite Nat.add_0_r. by destruct lo.
Qed.

Lemma rep_opt {A} k s i cap (kt : cont A) :
  rep k 0 (Some 1) s i cap kt
  = match s with
    | String c s' =>
        if inCls k c then
          match kt s' (S i) cap with Some x => Some x | None => kt s i cap end
        else kt s i cap
    | EmptyString => kt s i cap
    end.
Proof.
  destruct s as [|c s']; [reflexivity|]. cbn [rep mayTake andb decHi Nat.pred Nat.eqb].
  destruct (inCls k c); [|reflexivity]. by destruct s'.
Qed.

Lemma dropWhile_head p s : headIs p (dropWhile p s) = false.
Proof.
  induction s as [|x s IH]; [done|]. cbn [dropWhile].
  destruct (p x) eqn:E; [done|]. cbn [headIs]. done.
Qed.

Ltac same_end :=
  change (inCls CDigit) with isDigit;
  match goal with
  | |- Some (?a, Some (?i, _)) = Some (?c, Some (?i, _)) =>
      replace a with c by lia; reflexivity
  end.

(** The group of the price pattern, matched at the start of [s]. *)
Lemma exec_group s i cap :
  exec (RCat (plus (COr CDigit (CByte ","))) (RCat (opt (CByte ".")) (star CDigit)))
    s i cap (fun _ j _ => Some (j, Some (i, j)))
  = if headIs priceByte s
    then Some ((i + len (number s))%nat, Some (i, (i + len (number s))%nat))
    else None.
Proof.
  unfold plus, opt, star. cbn [exec].
  rewrite rep_star_total.
  2:{ intros s' i' cap'. rewrite rep_opt.
      assert (forall s2 i2 c2,
        rep CDigit 0 None s2 i2 c2 (fun _ j _ => Some (j, Some (i, j))) <> None) as Hk
        by (intros s2 i2 c2; by rewrite rep_star_total).
      destruct s' as [|c s']; [apply Hk|]. destruct (inCls (CByte ".") c); [|apply Hk].
      pose proof (Hk s' (S i') cap'). by destruct (rep CDigit 0 None s' _ _ _). }
  change (inCls (COr CDigit (CByte ","))) with priceByte.
  destruct s as [|c s]; [reflexivity|]. cbn [headIs takeWhile dropWhile].
  unfold number. cbn [takeWhile dropWhile].
  destruct (priceByte c) eqn:Hc; [|reflexivity].
  cbn [len String.length Nat.leb]. rewrite rep_opt.
  rewrite len_app. unfold len. cbn [String.length].
  set (t := takeWhile priceByte s).
  pose proof (dropWhile_head priceByte s) as Hh.
  unfold fraction. destruct (dropWhile priceByte s) as [|d r'].
  - rewrite rep_star_total by done. cbn [takeWhile dropWhile len String.length Nat.leb].
    unfold len; same_end.
  - cbn [inCls]. destruct (Ascii.eqb "." d) eqn:Hd.
    + rewrite rep_star_total by done. cbn [Nat.leb len String.length].
      unfold len; same_end.
    + rewrite rep_star_total by done.
      cbn [headIs] in Hh. unfold priceByte in Hh. apply orb_false_elim in Hh as [Hnd _].
      cbn [takeWhile dropWhile inCls]. rewrite Hnd. cbn [Nat.leb len String.length].
      unfold len; same_end.
Qed.

Lemma exec_rep {A} k lo hi s i cap (kt : cont A) :
  exec (RRep k lo hi) s i cap kt = rep k lo hi s i cap kt.
Proof. reflexivity. Qed.

Lemma matchAt_priceRegex s i :
  matchAt priceRegex s i
  = match s with
    | String c s' =>
        if Ascii.eqb "$" c then
          if headIs priceByte s'
          then Some ((S i + len (number s'))%nat, Some (S i, (S i + len (number s'))%nat))
          else None
        else if priceByte c
          then Some ((i + len (number s))%nat, Some (i, (i + len (number s))%nat))
          else None
    | EmptyString => None
    end.
Proof.
  unfold matchAt, priceRegex. rewrite exec_cat. unfold opt at 1. rewrite exec_rep.
  rewrite rep_opt. destruct s as [|c s']; [by rewrite exec_cap, exec_group|].
  rewrite !exec_cap. cbv beta.
  cbn [inCls]. destruct (Ascii.eqb "$" c) eqn:Hc.
  - rewrite !exec_group. cbn [headIs].
    apply Ascii.eqb_eq in Hc. subst c. change (priceByte "$") with false.
    by destruct (headIs priceByte s').
  - by rewrite exec_group.
Qed.

Lemma number_prefix s : exists r, s = number s ++ r.
Proof.
  unfold number. pose proof (take_drop priceByte s) as Hs.
  set (t := takeWhile priceByte s) in *. destruct (dropWhile priceByte s) as [|d r].
  - exists EmptyString. etransitivity; [exact Hs|]. cbn [fraction]. by rewrite !append_empty.
  - cbn [fraction]. destruct (Ascii.eqb "." d).
    + exists (dropWhile isDigit r). etransitivity; [exact Hs|].
      rewrite append_assoc, append_cons. do 2 f_equal. apply take_drop.
    + exists (String d r). etransitivity; [exact Hs|]. by rewrite append_empty.
Qed.

Lemma firstNumber_head s : headIs priceByte s = true -> firstNumber s = number s.
Proof. destruct s as [|c s]; [done|]. cbn [headIs firstNumber]. by intros ->. Qed.

Lemma search_priceRegex s : forall pre i j cap,
  search priceRegex s (len pre) = Some (i, j, cap) ->
  exists sp, cap = Some sp /\ slice (pre ++ s) sp = firstNumber s.
Proof.
  induction s as [|c s IH]; intros pre i j cap; cbn [search]; rewrite matchAt_priceRegex.
  - discriminate.
  - destruct (Ascii.eqb "$" c) eqn:Hd.
    + apply Ascii.eqb_eq in Hd. subst c. cbn [firstNumber]. change (priceByte "$") with false.
      cbv iota. destruct (headIs priceByte s) eqn:Hh.
      * intros H. simplify_eq. eexists. split; [reflexivity|].
        rewrite (firstNumber_head s Hh). unfold slice. cbn [fst snd].
        destruct (number_prefix s) as [r Hr].
        assert (pre ++ String "$" s = (pre ++ "$") ++ number s ++ r) as ->
          by (rewrite append_assoc, append_cons, append_nil; by rewrite <- Hr).
        replace (S (len pre)) with (len (pre ++ "$")) by (rewrite len_app; cbn; lia).
        replace (len (pre ++ "$") + len (number s) - len (pre ++ "$"))%nat
          with (len (number s)) by lia.
        apply substring_app.
      * intros H. replace (S (len pre)) with (len (pre ++ "$")) in H
          by (rewrite len_app; cbn; lia).
        apply IH in H as (sp & -> & H). exists sp. split; [done|].
        by rewrite append_assoc in H.
    + cbn [firstNumber]. destruct (priceByte c) eqn:Hc.
      * intros H. simplify_eq. eexists. split; [reflexivity|].
        unfold slice. cbn [fst snd].
        destruct (number_prefix (String c s)) as [r Hr].
        assert (pre ++ String c s = pre ++ number (String c s) ++ r) as ->
          by (by rewrite <- Hr).
        replace (len pre + len (number (String c s)) - len pre)%nat
          with (len (number (String c s))) by lia.
        apply substring_app.
      * intros H. replace (S (len pre)) with (len (pre ++ String c EmptyString)) in H
          by (rewrite len_app; cbn; lia).
        apply IH in H as (sp & -> & H). exists sp. split; [done|].
        by rewrite append_assoc in H.
Qed.

Lemma search_priceRegex_none s : forall i,
  search priceRegex s i = None -> firstNumber s = EmptyString.
Proof.
  induction s as [|c s IH]; intros i; cbn [search]; rewrite matchAt_priceRegex; [done|].
  cbn [firstNumber]. destruct (Ascii.eqb "$" c) eqn:Hd.
  - apply Ascii.eqb_eq in Hd. subst c. change (priceByte "$") with false. cbv iota.
    destruct (headIs priceByte s); [discriminate|]. apply IH.
  - destruct (priceByte c); [discriminate|]. apply IH.
Qed.

(** The amount that the cleaning of extractPrice reads in a token. *)
Lemma FindStringSubmatch_number s :
  match FindStringSubmatch priceRegex s with
  | _ :: group :: _ => group
  | _ => EmptyString
  end = firstNumber s.
Proof.
  unfold FindStringSubmatch. destruct (search priceRegex s 0) as [[[i j] cap]|] eqn:E.
  - apply (search_priceRegex s EmptyString) in E as (sp & -> & H). by rewrite append_nil in H.
  - symmetry. by apply (search_priceRegex_none s 0).
Qed.

Lemma TrimSpace_visible s : allBytes visible s = true -> TrimSpace s = s.
Proof.
  intros Hs. apply TrimSpace_id.
  - destruct s as [|a s1]; [done|]. cbn [allBytes] in Hs. apply andb_prop in Hs as [Ha _].
    unfold visible in Ha. apply andb_prop in Ha as [Hc Ha]. apply Nat.ltb_lt in Hc.
    apply negb_true_iff in Ha. cbn [leadSpace]. rewrite Ha. cbn [orb].
    destruct s1 as [|b [|c s3]]; [done| |].
    + by rewrite space2_plain.
    + by rewrite space2_plain, space3_plain.
  - unfold trailSpace. rewrite <- (allBytes_rev visible s) in Hs.
    destruct (rev s) as [|a s1]; [done|]. cbn [allBytes] in Hs. apply andb_prop in Hs as [Ha _].
    unfold visible in Ha. apply andb_prop in Ha as [Hc Ha]. apply Nat.ltb_lt in Hc.
    apply negb_true_iff in Ha. rewrite Ha. cbn [orb].
    destruct s1 as [|b [|c s3]]; [done| |].
    + by destruct (space_last a b b Hc) as [-> _].
    + by destruct (space_last a b c Hc) as [-> ->].
Qed.

Lemma priceMark_visible c : priceMark c || numeric c = true -> visible c = true.
Proof.
  unfold priceMark, dollar, priceByte, numeric, isByte, visible, asciiSpace, between.
  intros H.
  assert (code c = 36 \/ code c = 44 \/ code c = 46 \/ 48 <= code c <= 57)%nat as Hc.
  { repeat (apply orb_prop in H as [H|H]).
    - apply Ascii.eqb_eq in H. subst c. auto.
    - apply isDigit_code in H. lia.
    - apply Ascii.eqb_eq in H. subst c. auto.
    - apply isDigit_code in H. lia.
    - apply Nat.eqb_eq in H. lia. }
  apply andb_true_intro. split; [apply Nat.ltb_lt; lia|].
  apply negb_true_iff. apply orb_false_intro; [apply andb_false_intro2|];
    [apply Nat.leb_gt|apply Nat.eqb_neq]; lia.
Qed.

Lemma takeWhile_bytes p s : allBytes p (takeWhile p s) = true.
Proof. induction s as [|c s IH]; [done|]. cbn [takeWhile]. destruct (p c) eqn:E; [|done]. cbn [allBytes]. by rewrite E. Qed.

Lemma number_bytes s : allBytes (fun c => priceMark c || numeric c) (number s) = true.
Proof.
  unfold number. rewrite allBytes_app. apply andb_true_intro. split.
  - apply (allBytes_impl priceByte); [|apply takeWhile_bytes].
    intros c H. unfold priceMark. by rewrite H, orb_true_r.
  - destruct (dropWhile priceByte s) as [|d r]; [done|]. cbn [fraction].
    destruct (Ascii.eqb "." d) eqn:Hd; [|done]. cbn [allBytes].
    apply Ascii.eqb_eq in Hd. subst d. apply andb_true_intro. split; [reflexivity|].
    apply (allBytes_impl isDigit); [|apply takeWhile_bytes].
    intros c H. unfold numeric. by rewrite H, orb_true_r.
Qed.

Lemma firstNumber_number s :
  firstNumber s = EmptyString
  \/ exists c t, firstNumber s = number (String c t) /\ priceByte c = true.
Proof.
  induction s as [|c s IH]; [by left|]. cbn [firstNumber].
  destruct (priceByte c) eqn:Hc; [|done]. right. by exists c, s.
Qed.

Lemma number_head c t : priceByte c = true -> exists r, number (String c t) = String c r.
Proof.
  intros Hc. unfold number. cbn [takeWhile dropWhile]. rewrite Hc.
  rewrite append_cons. by eexists.
Qed.

(** The cleaning of NormalizePrice leaves the first number to ParseFloat
    as extractPrice does. *)
Lemma firstNumber_token s :
  TrimPrefix (TrimSpace (firstNumber s)) "$" = firstNumber s.
Proof.
  destruct (firstNumber_number s) as [->|(c & t & -> & Hc)]; [reflexivity|].
  rewrite TrimSpace_visible
    by (apply (allBytes_impl _ _ _ priceMark_visible), number_bytes).
  destruct (number_head c t Hc) as [r ->]. unfold TrimPrefix. cbn [HasPrefix].
  by rewrite (priceByte_not_dollar c Hc).
Qed.

(** extractPrice reads the first number. *)
Lemma extractPrice_token s :
  extractPrice s
  = match ParseFloat (ReplaceAll (firstNumber s) "," EmptyString) with
    | (_, Some _) => zero
    | (price, None) => price
    end.
Proof.
  unfold extractPrice. rewrite <- (FindStringSubmatch_number s).
  unfold FindStringSubmatch. by destruct (search priceRegex s 0) as [[[i j] cap]|].
Qed.

Lemma takeWhile_app p x r :
  allBytes p x = true -> takeWhile p (x ++ r) = x ++ takeWhile p r.
Proof.
  induction x as [|c x IH]; [done|]. cbn [allBytes]. intros H.
  apply andb_prop in H as [Hc Hx]. rewrite !append_cons. cbn [takeWhile].
  by rewrite Hc, IH.
Qed.

Lemma dropWhile_app p x r :
  allBytes p x = true -> dropWhile p (x ++ r) = dropWhile p r.
Proof.
  induction x as [|c x IH]; [done|]. cbn [allBytes]. intros H.
  apply andb_prop in H as [Hc Hx]. rewrite !append_cons. cbn [dropWhile].
  by rewrite Hc, IH.
Qed.

Lemma takeWhile_all p s : allBytes p s = true -> takeWhile p s = s.
Proof.
  intros H. rewrite <- (append_empty s) at 1. rewrite takeWhile_app by done.
  apply append_empty.
Qed.

Lemma dropWhile_all p s : allBytes p s = true -> dropWhile p s = EmptyString.
Proof. intros H. rewrite <- (append_empty s). by rewrite dropWhile_app. Qed.

(** A word of the group is its own number. *)
Lemma number_group g :
  lang (RCat (plus (COr CDigit (CByte ","))) (RCat (opt (CByte ".")) (star CDigit))) g ->
  number g = g /\ headIs priceByte g = true.
Proof.
  cbn [lang plus opt star].
  intros (x & r & -> & (Hx & Hlo & _) & (p & y & -> & (Hp & _ & Hhi) & (Hy & _))).
  change (inCls (COr CDigit (CByte ","))) with priceByte in Hx.
  change (inCls CDigit) with isDigit in Hy.
  split.
  2:{ destruct x as [|c x]; [cbn in Hlo; lia|]. cbn [allBytes] in Hx.
      apply andb_prop in Hx as [Hc _]. by rewrite append_cons. }
  unfold number. rewrite takeWhile_app, dropWhile_app by done.
  destruct p as [|d [|d' p]]; cbn [within len String.length] in Hhi; [| |lia].
  - rewrite append_nil.
    assert (allBytes priceByte y = true) as Hy'.
    { revert Hy. apply allBytes_impl. intros c H. unfold priceByte. by rewrite H. }
    rewrite takeWhile_all, dropWhile_all by done. cbn [fraction]. by rewrite append_empty.
  - cbn [allBytes inCls] in Hp. rewrite andb_true_r in Hp. apply Ascii.eqb_eq in Hp. subst d.
    rewrite append_cons, append_nil. cbn [takeWhile dropWhile].
    change (priceByte ".") with false. cbv iota. cbn [fraction].
    change (Ascii.eqb "." ".") with true. cbv iota.
    by rewrite takeWhile_all, append_empty.
Qed.

(** ** The amounts of a receipt *)

Lemma amountOf_ok o : amountOk (amountOf o).
Proof.
  destruct o as [l|]; [|by split]. cbn [amountOf].
  apply extractPrice_amount.
Qed.

(** ** The text handed to the JSON parser *)

(** *** Cutting a string at a byte *)

Lemma split_left (q : ascii -> bool) x a : forall pre r t,
  pre ++ String x r = a ++ t -> allBytes q a = true -> q x = false ->
  exists pre1, pre = a ++ pre1 /\ t = pre1 ++ String x r.
Proof.
  induction a as [|c a IH]; intros pre r t E Ha Hx.
  - exists pre. by rewrite append_nil in *.
  - cbn [allBytes] in Ha. apply andb_prop in Ha as [Hc Ha].
    destruct pre as [|b pre].
    + rewrite append_nil, append_cons in E. simplify_eq. congruence.
    + rewrite !append_cons in E. simplify_eq.
      destruct (IH pre r t ltac:(done) Ha Hx) as (pre1 & -> & ->).
      exists pre1. by rewrite append_cons.
Qed.

Lemma rev_cons x s : rev (String x s) = rev s ++ String x EmptyString.
Proof. reflexivity. Qed.

Lemma split_right (q : ascii -> bool) x l post t p :
  l ++ String x post = t ++ p -> allBytes q p = true -> q x = false ->
  exists post1, post = post1 ++ p /\ t = l ++ String x post1.
Proof.
  intros E Hp Hx. apply (f_equal rev) in E.
  rewrite !rev_app, rev_cons, append_assoc, append_cons, append_nil in E.
  destruct (split_left q x (rev p) (rev post) (rev l) (rev t) E) as (pre1 & E1 & E2);
    [by rewrite allBytes_rev|done|].
  exists (rev pre1). split.
  - rewrite <- (rev_involutive post), E1, rev_app. by rewrite rev_involutive.
  - rewrite <- (rev_involutive t), E2, rev_app, rev_cons, rev_involutive.
    by rewrite append_assoc, append_cons, append_nil.
Qed.

(** *** What the trimming takes away *)

Lemma plain_alone x : spaceByte x = false ->
  forall b c, space2 x b = false /\ space2 b x = false
    /\ space3 x b c = false /\ space3 b x c = false /\ space3 b c x = false.
Proof.
  unfold spaceByte. intros H. apply orb_false_elim in H as [_ H].
  apply Nat.leb_gt in H. intros b c. unfold space2, space3, between.
  assert (forall n, (128 <= n)%nat -> (code x =? n)%nat = false) as Hne
    by (intros n Hn; apply Nat.eqb_neq; lia).
  rewrite !Hne by lia.
  replace (128 <=? code x)%nat with false by (symmetry; apply Nat.leb_gt; lia).
  repeat rewrite ?andb_false_r, ?andb_false_l, ?orb_false_r, ?orb_false_l.
  done.
Qed.

Lemma space2_bytes a b : space2 a b = true -> spaceByte a = true /\ spaceByte b = true.
Proof.
  intros H. split.
  - destruct (spaceByte a) eqn:E; [done|].
    destruct (plain_alone a E b b) as (H1 & _). congruence.
  - destruct (spaceByte b) eqn:E; [done|].
    destruct (plain_alone b E a a) as (_ & H1 & _). congruence.
Qed.

Lemma space3_bytes a b c :
  space3 a b c = true -> spaceByte a = true /\ spaceByte b = true /\ spaceByte c = true.
Proof.
  intros H. split; [|split].
  - destruct (spaceByte a) eqn:E; [done|].
    destruct (plain_alone a E b c) as (_ & _ & H1 & _). congruence.
  - destruct (spaceByte b) eqn:E; [done|].
    destruct (plain_alone b E a c) as (_ & _ & _ & H1 & _). congruence.
  - destruct (spaceByte c) eqn:E; [done|].
    destruct (plain_alone c E a b) as (_ & _ & _ & _ & H1). congruence.
Qed.

Lemma trimLeft_removed n : forall s, (len s <= n)%nat ->
  exists a, s = a ++ trimLeft s /\ allBytes spaceByte a = true.
Proof.
  induction n as [|n IH]; intros s Hn.
  - destruct s; [|cbn in Hn; lia]. by exists EmptyString.
  - destruct s as [|a s1]; [by exists EmptyString|].
    cbn [len String.length] in Hn. cbn [trimLeft].
    destruct (asciiSpace a) eqn:Ha.
    { destruct (IH s1 ltac:(unfold len; lia)) as (x & Hx & Hs).
      exists (String a x). rewrite append_cons, <- Hx. split; [done|].
      cbn [allBytes]. unfold spaceByte at 1. by rewrite Ha, Hs. }
    destruct s1 as [|b s2]; [by exists EmptyString|].
    destruct (space2 a b) eqn:Hb.
    { cbn [String.length] in Hn.
      destruct (IH s2 ltac:(unfold len; lia)) as (x & Hx & Hs).
      apply space2_bytes in Hb as [Sa Sb].
      exists (String a (String b x)). rewrite !append_cons, <- Hx. split; [done|].
      cbn [allBytes]. by rewrite Sa, Sb, Hs. }
    destruct s2 as [|c s3]; [by exists EmptyString|].
    destruct (space3 a b c) eqn:Hc; [|by exists EmptyString].
    cbn [String.length] in Hn.
    destruct (IH s3 ltac:(unfold len; lia)) as (x & Hx & Hs).
    apply space3_bytes in Hc as (Sa & Sb & Sc).
    exists (String a (String b (String c x))). rewrite !append_cons, <- Hx. split; [done|].
    cbn [allBytes]. by rewrite Sa, Sb, Sc, Hs.
Qed.

Lemma trimLeftRev_removed n : forall s, (len s <= n)%nat ->
  exists a, s = a ++ trimLeftRev s /\ allBytes spaceByte a = true.
Proof.
  induction n as [|n IH]; intros s Hn.
  - destruct s; [|cbn in Hn; lia]. by exists EmptyString.
  - destruct s as [|a s1]; [by exists EmptyString|].
    cbn [len String.length] in Hn. cbn [trimLeftRev].
    destruct (asciiSpace a) eqn:Ha.
    { destruct (IH s1 ltac:(unfold len; lia)) as (x & Hx & Hs).
      exists (String a x). rewrite append_cons, <- Hx. split; [done|].
      cbn [allBytes]. unfold spaceByte at 1. by rewrite Ha, Hs. }
    destruct s1 as [|b s2]; [by exists EmptyString|].
    destruct (space2 b a) eqn:Hb.
    { cbn [String.length] in Hn.
      destruct (IH s2 ltac:(unfold len; lia)) as (x & Hx & Hs).
      apply space2_bytes in Hb as [Sb Sa].
      exists (String a (String b x)). rewrite !append_cons, <- Hx. split; [done|].
      cbn [allBytes]. by rewrite Sa, Sb, Hs. }
    destruct s2 as [|c s3]; [by exists EmptyString|].
    destruct (space3 c b a) eqn:Hc; [|by exists EmptyString].
    cbn [String.length] in Hn.
    destruct (IH s3 ltac:(unfold len; lia)) as (x & Hx & Hs).
    apply space3_bytes in Hc as (Sc & Sb & Sa).
    exists (String a (String b (String c x))). rewrite !append_cons, <- Hx. split; [done|].
    cbn [allBytes]. by rewrite Sa, Sb, Sc, Hs.
Qed.

Lemma trimRight_removed s :
  exists b, s = trimRight s ++ b /\ allBytes spaceByte b = true.
Proof.
  unfold trimRight.
  destruct (trimLeftRev_removed (len (rev s)) (rev s) ltac:(lia)) as (a & Ha & Hs).
  exists (rev a). rewrite <- rev_app, <- Ha, rev_involutive. split; [done|].
  by rewrite allBytes_rev.
Qed.

(** *** The prefix and the suffix that go *)

Lemma HasPrefix_split p : forall s, HasPrefix s p = true -> exists t, s = p ++ t.
Proof.
  induction p as [|a p IH]; intros s H.
  - by exists s.
  - destruct s as [|b s]; [done|]. cbn [HasPrefix] in H.
    apply andb_prop in H as [Hab H]. apply Ascii.eqb_eq in Hab as ->.
    destruct (IH s H) as [t ->]. by exists t.
Qed.

Lemma substring_suffix a g : String.substring (len a) (len g) (a ++ g) = g.
Proof. pose proof (substring_app a g EmptyString) as H. by rewrite append_empty in H. Qed.

Lemma TrimPrefix_cases s p : TrimPrefix s p = s \/ s = p ++ TrimPrefix s p.
Proof.
  unfold TrimPrefix. destruct (HasPrefix s p) eqn:H; [right|by left].
  apply HasPrefix_split in H as [t ->].
  rewrite len_app. replace (len p + len t - len p)%nat with (len t) by lia.
  by rewrite substring_suffix.
Qed.

Lemma len_rev s : len (rev s) = len s.
Proof.
  induction s as [|c s IH]; [done|]. rewrite rev_cons, len_app, IH. cbn [len String.length]. unfold len. lia.
Qed.

Lemma TrimSuffix_cases s p : TrimSuffix s p = s \/ s = TrimSuffix s p ++ p.
Proof.
  unfold TrimSuffix, HasSuffix. destruct (HasPrefix (rev s) (rev p)) eqn:H; [right|by left].
  apply HasPrefix_split in H as [t H].
  assert (s = rev t ++ p) as ->.
  { rewrite <- (rev_involutive s), H, rev_app. by rewrite rev_involutive. }
  rewrite len_app. replace (len (rev t) + len p - len p)%nat with (len (rev t)) by lia.
  by rewrite substring_prefix.
Qed.

(** *** The object survives the cleaning *)

Lemma object_left body Q : object body ++ Q = String "{" (body ++ String "}" Q).
Proof. unfold object. by rewrite !append_assoc, !append_cons, !append_nil. Qed.

Lemma object_right P body Q :
  P ++ object body ++ Q = (P ++ String "{" body) ++ String "}" Q.
Proof. by rewrite object_left, append_assoc, append_cons. Qed.

Lemma holds_cut_left body t t' a q :
  holds body t -> t = a ++ t' -> allBytes q a = true -> q "{"%char = false ->
  holds body t'.
Proof.
  intros (P & Q & -> & HP & HQ) E Ha Hq. rewrite object_left in E.
  destruct (split_left q _ a P _ t' E Ha Hq) as (P1 & -> & ->).
  rewrite someByte_app in HP. apply orb_false_elim in HP as [_ HP].
  exists P1, Q. by rewrite object_left.
Qed.

Lemma holds_cut_right body t t' b q :
  holds body t -> t = t' ++ b -> allBytes q b = true -> q "}"%char = false ->
  holds body t'.
Proof.
  intros (P & Q & -> & HP & HQ) E Hb Hq. rewrite object_right in E.
  destruct (split_right q _ _ Q t' b E Hb Hq) as (Q1 & -> & ->).
  rewrite someByte_app in HQ. apply orb_false_elim in HQ as [HQ _].
  exists P, Q1. by rewrite object_right.
Qed.

Lemma holds_TrimSpace body t : holds body t -> holds body (TrimSpace t).
Proof.
  intros H. unfold TrimSpace.
  destruct (trimLeft_removed (len t) t ltac:(lia)) as (a & Ea & Ha).
  destruct (trimRight_removed (trimLeft t)) as (b & Eb & Hb).
  apply (holds_cut_right body (trimLeft t) _ b spaceByte); [|done..].
  by apply (holds_cut_left body t _ a spaceByte).
Qed.

Lemma holds_TrimPrefix body t p :
  allBytes (fun c => negb (Ascii.eqb "{" c)) p = true ->
  holds body t -> holds body (TrimPrefix t p).
Proof.
  intros Hp H. destruct (TrimPrefix_cases t p) as [->|E]; [done|].
  by apply (holds_cut_left body t _ p (fun c => negb (Ascii.eqb "{" c))).
Qed.

Lemma holds_TrimSuffix body t p :
  allBytes (fun c => negb (Ascii.eqb "}" c)) p = true ->
  holds body t -> holds body (TrimSuffix t p).
Proof.
  intros Hp H. destruct (TrimSuffix_cases t p) as [->|E]; [done|].
  by apply (holds_cut_right body t _ p (fun c => negb (Ascii.eqb "}" c))).
Qed.

(** *** The two offsets *)

Lemma HasPrefix_empty s : HasPrefix s EmptyString = true.
Proof. by destruct s. Qed.

Lemma HasPrefix_byte c b s : HasPrefix (String b s) (String c EmptyString) = Ascii.eqb c b.
Proof. cbn [HasPrefix]. by rewrite HasPrefix_empty, andb_true_r. Qed.

Lemma indexFrom_skip c P r : forall i, someByte (Ascii.eqb c) P = false ->
  LLM.indexFrom (P ++ String c r) (String c EmptyString) i = (i + Z.of_nat (len P))%Z.
Proof.
  induction P as [|b P IH]; intros i H.
  - rewrite append_nil. cbn [LLM.indexFrom]. rewrite HasPrefix_byte, Ascii.eqb_refl.
    cbn [len String.length]. lia.
  - cbn [someByte] in H. apply orb_false_elim in H as [Hb H].
    rewrite append_cons. cbn [LLM.indexFrom]. rewrite HasPrefix_byte, Hb, IH by done.
    cbn [len String.length]. unfold len. lia.
Qed.

Lemma lastIndexFrom_none c Q : forall i, someByte (Ascii.eqb c) Q = false ->
  LLM.lastIndexFrom Q (String c EmptyString) i = (-1)%Z.
Proof.
  induction Q as [|b Q IH]; intros i H; [done|].
  cbn [someByte] in H. apply orb_false_elim in H as [Hb H].
  cbn [LLM.lastIndexFrom]. rewrite IH by done. cbv zeta.
  by rewrite HasPrefix_byte, Hb.
Qed.

Lemma lastIndexFrom_last c l Q : forall i, (0 <= i)%Z -> someByte (Ascii.eqb c) Q = false ->
  LLM.lastIndexFrom (l ++ String c Q) (String c EmptyString) i = (i + Z.of_nat (len l))%Z.
Proof.
  induction l as [|b l IH]; intros i Hi H.
  - rewrite append_nil. cbn [LLM.lastIndexFrom]. rewrite lastIndexFrom_none by done.
    cbv zeta. rewrite HasPrefix_byte, Ascii.eqb_refl. cbn [len String.length Z.leb Z.compare]. lia.
  - rewrite append_cons. cbn [LLM.lastIndexFrom]. rewrite IH by (done || lia). cbv zeta.
    replace (0 <=? i + 1 + Z.of_nat (len l))%Z with true by (symmetry; apply Z.leb_le; lia).
    cbn [len String.length]. unfold len. lia.
Qed.

Lemma lastIndexFrom_bound c s : forall i, (0 <= i)%Z ->
  (LLM.lastIndexFrom s (String c EmptyString) i < i + Z.of_nat (len s))%Z.
Proof.
  induction s as [|b s IH]; intros i Hi.
  - cbn. lia.
  - cbn [LLM.lastIndexFrom]. cbv zeta. specialize (IH (i + 1)%Z ltac:(lia)).
    cbn [len String.length]. unfold len in *.
    destruct (0 <=? _)%Z; [lia|]. destruct (HasPrefix _ _); lia.
Qed.

(** *** Slices *)

Lemma cut_at n : forall s, (n <= len s)%nat -> exists a b, s = a ++ b /\ len a = n.
Proof.
  induction n as [|n IH]; intros s H.
  - by exists EmptyString, s.
  - destruct s as [|c s]; [cbn in H; lia|]. cbn [len String.length] in H.
    destruct (IH s ltac:(unfold len; lia)) as (a & b & -> & Ha).
    exists (String c a), b. cbn [len String.length]. unfold len in *. by rewrite Ha.
Qed.

Lemma substring_occurs s i n :
  (i + n <= len s)%nat -> occursIn (String.substring i n s) s.
Proof.
  intros H. destruct (cut_at i s ltac:(lia)) as (a & r & -> & Ha).
  rewrite len_app in H.
  destruct (cut_at n r ltac:(lia)) as (g & b & -> & Hg).
  exists a, b. subst i n. by rewrite substring_app.
Qed.

Lemma occursIn_trans a b c : occursIn a b -> occursIn b c -> occursIn a c.
Proof.
  intros (x & y & ->) (u & v & ->). exists (u ++ x), (y ++ v).
  by rewrite !append_assoc.
Qed.

Lemma occursIn_refl a : occursIn a a.
Proof. exists EmptyString, EmptyString. by rewrite append_nil, append_empty. Qed.

Lemma TrimPrefix_occurs s p : occursIn (TrimPrefix s p) s.
Proof.
  destruct (TrimPrefix_cases s p) as [->|E]; [apply occursIn_refl|].
  exists p, EmptyString. by rewrite append_empty.
Qed.

Lemma TrimSuffix_occurs s p : occursIn (TrimSuffix s p) s.
Proof.
  destruct (TrimSuffix_cases s p) as [->|E]; [apply occursIn_refl|].
  exists EmptyString, p. by rewrite append_nil.
Qed.

Lemma jsonText_cleaned_occurs text :
  occursIn (TrimSpace (TrimSuffix (TrimPrefix (TrimPrefix (TrimSpace text) "```json") "```") "```")) text.
Proof.
  eapply occursIn_trans; [apply TrimSpace_infix|].
  eapply occursIn_trans; [apply TrimSuffix_occurs|].
  eapply occursIn_trans; [apply TrimPrefix_occurs|].
  eapply occursIn_trans; [apply TrimPrefix_occurs|].
  apply TrimSpace_infix.
Qed.

(** * Further properties *)

(** ** parseTextractToReceipt *)

(** X1: the last match wins for the subtotal as well.  The subtotal of the
    receipt is the amount of the last price-bearing line whose lower-cased
    text contains the word subtotal, and zero when there is no such line. *)
Theorem subtotal_last_match (t : LoadTextractOutput) :
  parseTextractToReceipt t !! "subtotal"
  = Some (AFloat (amountOf (findLast subtotalLine (Lines t)))).
Proof.
  rewrite receipt_lookup_subtotal, loop_subtotal.
  reflexivity.
Qed.

(** X2: the items of the receipt are the item lines in reading order.  A
    line is an item line when it bears a price, its lower-cased text
    contains none of the words subtotal, tax and total, its amount is above
    zero and the name left of it has more than one byte; each such line
    gives one item, whatever its index, its confidence and the lines
    before it. *)
Theorem items_in_reading_order (t : LoadTextractOutput) :
  parseTextractToReceipt t !! "items"
  = Some (AMaps (map itemOf (List.filter itemLine (Lines t)))).
Proof.
  rewrite receipt_lookup_items, loop_items.
  reflexivity.
Qed.

(** X3: every item of a receipt has the three keys name, qty and price,
    with the quantity 1; its name has at least two bytes, contains no
    digit, no comma and no dollar sign, and neither starts nor ends with
    white space; its price is finite and above zero.  There are at most as
    many items as lines. *)
Theorem items_wellformed (t : LoadTextractOutput) :
  exists its,
    parseTextractToReceipt t !! "items" = Some (AMaps its)
    /\ (length its <= length (Lines t))%nat
    /\ Forall itemOk its.
Proof.
  exists (map itemOf (List.filter itemLine (Lines t))).
  split; [by rewrite receipt_lookup_items, loop_items|]. split.
  - rewrite length_map. apply List.filter_length_le.
  - apply List.Forall_map. apply List.Forall_forall. intros l Hl.
    apply List.filter_In in Hl as [_ Hl]. unfold itemLine in Hl.
    apply andb_prop in Hl as [Hl Hn]. apply andb_prop in Hl as [_ Hp].
    apply Nat.ltb_lt in Hn.
    destruct (trimmedName_facts (Text l)) as (Hm & Hls & Hts & _).
    destruct (extractPrice_amount (Text l)) as [_ Hi].
    assert (extractItemName (Text l)
            = TrimSpace (ReplaceAll (RemoveAllString priceRegex (Text l)) "$" EmptyString))
      as En.
    { unfold extractItemName in Hn |- *. cbv zeta in Hn |- *.
      destruct (len _ <? 2)%nat; [|done]. unfold len in Hn. cbn [String.length] in Hn. lia. }
    rewrite <- En in Hm, Hls, Hts.
    exists (extractItemName (Text l)), (extractPrice (Text l)).
    repeat split; done || lia.
Qed.

(** X4: the subtotal, the tax and the total of a receipt are finite
    numbers that are not negative, whatever the lines are: never NaN, never
    an infinity, never below zero. *)
Theorem receipt_amounts_ok (t : LoadTextractOutput) :
  exists s x tt,
    parseTextractToReceipt t !! "subtotal" = Some (AFloat s)
    /\ parseTextractToReceipt t !! "tax" = Some (AFloat x)
    /\ parseTextractToReceipt t !! "total" = Some (AFloat tt)
    /\ amountOk s /\ amountOk x /\ amountOk tt.
Proof.
  exists (subtotal (loop 0 (Lines t) initLocals)), (tax (loop 0 (Lines t) initLocals)),
    (total (loop 0 (Lines t) initLocals)).
  split; [reflexivity|]. split; [reflexivity|]. split; [reflexivity|].
  rewrite loop_subtotal, loop_tax, loop_total. repeat split; apply amountOf_ok.
Qed.

(** X5: a line that bears a price only by a dollar sign or a comma, with
    no digit in it, has the amount zero: when its text names the subtotal,
    the tax or the total, that field is set to zero, whatever it held
    before, and the line never becomes an item. *)
Theorem keyword_line_without_digit (i : nat) (line : TextractLine) (st : locals) :
  containsPrice (Text line) = true -> someByte isDigit (Text line) = false ->
  (subtotalLine line = true -> subtotal (body i line st) = zero)
  /\ (taxLine line = true -> tax (body i line st) = zero)
  /\ (totalLine line = true -> total (body i line st) = zero)
  /\ items (body i line st) = items st.
Proof.
  intros Hp Hd. pose proof (extractPrice_digitless (Text line) Hd) as Hz.
  rewrite body_subtotal, body_tax, body_total, body_items.
  repeat split.
  - by intros ->.
  - by intros ->.
  - by intros ->.
  - unfold itemLine. rewrite Hz. change (flt zero zero) with false.
    by rewrite andb_false_r, app_nil_r.
Qed.

(** After the line Tax $0.40, the line Total, incl. tax sets the tax back
    to zero. *)
Lemma keyword_line_without_digit_witness :
  let line := fragment "Total, incl. tax" "96" "0.70" "0.1" in
  let st := loop 0 [fragment "Tax $0.40" "96" "0.55" "0.1"] initLocals in
  tax st = f64 "0.40" /\ tax (body 1 line st) = zero.
Proof.
  split; [vm_compute; reflexivity|].
  refine (proj1 (proj2 (keyword_line_without_digit 1
            (fragment "Total, incl. tax" "96" "0.70" "0.1")
            (loop 0 [fragment "Tax $0.40" "96" "0.55" "0.1"] initLocals) _ _)) _);
    vm_compute; reflexivity.
Defined.

(** ** The parse helpers of package server *)

(** X6: containsPrice holds exactly for the strings that contain a dollar
    sign, a digit or a comma; the rest of the price pattern adds nothing to
    the test. *)
Theorem contains_price_bytes (s : string) : containsPrice s = someByte priceMark s.
Proof.
  unfold priceMark. rewrite someByte_or.
  apply containsPrice_marks.
Qed.

(** X7: a string that contains a date also bears a price, so every line
    the date rule looks at goes through the amount rules as well. *)
Theorem date_line_is_price_line (s : string) :
  containsDate s = true -> containsPrice s = true.
Proof.
  unfold containsDate. rewrite MatchString_lang, containsPrice_marks.
  intros (a & w & b & -> & Hw). apply lang_dateRegex_digit in Hw.
  assert (someByte priceByte w = true) as Hm.
  { revert Hw. apply someByte_impl. intros c Hc. unfold priceByte. by rewrite Hc. }
  by rewrite !someByte_app, Hm, !orb_true_r.
Qed.

Lemma date_line_is_price_line_witness : containsPrice "Date: 03/15/2024" = true.
Proof. apply (date_line_is_price_line "Date: 03/15/2024"). vm_compute. reflexivity. Defined.

(** X8: extractPrice returns a finite number that is not negative, for
    every string: never NaN, never an infinity, never below zero; and it
    returns zero for a string without a digit. *)
Theorem extract_price_range (s : string) :
  SFleb zero (extractPrice s) = true /\ isInf (extractPrice s) = false
  /\ (someByte isDigit s = false -> extractPrice s = zero).
Proof.
  destruct (extractPrice_amount s) as [Hle Hfin].
  split; [exact Hle|]. split; [exact Hfin|].
  apply extractPrice_digitless.
Qed.

Lemma extract_price_range_witness : extractPrice "Total, incl. tax" = zero.
Proof.
  apply (proj2 (proj2 (extract_price_range "Total, incl. tax"))).
  vm_compute. reflexivity.
Defined.

(** X9: the amount of a line is the normalized price of the first number
    in it.  The first number starts at the first digit or comma of the
    line: the digits and commas from there, then a point and the digits
    after it when a point follows; a dollar sign before it plays no role.
    extractPrice returns what NormalizePrice returns for that token, and
    zero when the line has no digit and no comma. *)
Theorem extract_price_first_number (s : string) :
  extractPrice s = Receipt.NormalizePrice (firstNumber s).
Proof.
  unfold Receipt.NormalizePrice. cbv zeta.
  rewrite firstNumber_token.
  apply extractPrice_token.
Qed.

(** X10: what extractItemName returns contains no digit, no comma and no
    dollar sign; it is empty or has at least two bytes; it neither starts
    nor ends with white space; and it is made of bytes of the line: a
    property that holds for every byte of the line holds for every byte of
    the name. *)
Theorem extract_item_name_clean (s : string) :
  someByte priceMark (extractItemName s) = false
  /\ (extractItemName s = EmptyString \/ (2 <= len (extractItemName s))%nat)
  /\ leadSpace (extractItemName s) = false /\ trailSpace (extractItemName s) = false
  /\ (forall p : ascii -> bool, allBytes p s = true -> allBytes p (extractItemName s) = true).
Proof.
  destruct (trimmedName_facts s) as (Hm & Hl & Ht & Hkeep).
  unfold extractItemName. cbv zeta.
  destruct (len _ <? 2)%nat eqn:E.
  - repeat split; try done. by left.
  - apply Nat.ltb_ge in E. repeat split; try done. by right.
Qed.

Lemma extract_item_name_clean_witness :
  allBytes (fun c => (code c <? 128)%nat) (extractItemName "Milk $4.99") = true.
Proof.
  apply (proj2 (proj2 (proj2 (proj2 (extract_item_name_clean "Milk $4.99"))))).
  vm_compute. reflexivity.
Defined.

(** ** The normalizers of package receipt *)

(** X11: the two price readers agree on a price.  For a token that IsPrice
    accepts, extractPrice applied to the trimmed token returns the amount
    that NormalizePrice returns. *)
Theorem price_parsers_agree (s : string) :
  Receipt.IsPrice s = true -> extractPrice (TrimSpace s) = Receipt.NormalizePrice s.
Proof.
  unfold Receipt.IsPrice. cbv zeta. rewrite MatchWhole_lang, lang_pricePattern.
  intros Hw. rewrite extractPrice_token.
  unfold Receipt.NormalizePrice. cbv zeta.
  do 3 f_equal.
  pose proof (TrimPrefix_price _ Hw) as Hg. apply number_group in Hg as [Hn Hh].
  apply lang_priceRegex in Hw as (d & g & E & [-> | ->] & Hg); rewrite E in *.
  - rewrite append_nil in *.
    apply number_group in Hg as [Hn' Hh']. rewrite firstNumber_head by done.
    rewrite Hn'. symmetry. destruct g as [|c g]; [done|]. cbn [headIs] in Hh'.
    unfold TrimPrefix. cbn [HasPrefix]. by rewrite (priceByte_not_dollar c Hh').
  - change ("$" ++ g) with (String "$" g) in *. cbn [firstNumber].
    change (priceByte "$") with false. cbv iota.
    apply number_group in Hg as [Hn' Hh']. rewrite firstNumber_head by done.
    rewrite Hn'. symmetry. unfold TrimPrefix. cbn [HasPrefix]. rewrite Ascii.eqb_refl.
    cbn [andb]. assert (HasPrefix g EmptyString = true) as -> by by destruct g.
    cbn [len String.length Nat.sub String.substring].
    rewrite Nat.sub_0_r. fold (len g). by rewrite substring_all.
Qed.

Lemma price_parsers_agree_witness :
  extractPrice (TrimSpace " $1,234.56 ") = Receipt.NormalizePrice " $1,234.56 ".
Proof. apply (price_parsers_agree " $1,234.56 "). vm_compute. reflexivity. Defined.

(** X12: for a token that IsPrice accepts, NormalizePrice returns a finite
    number that is not negative. *)
Theorem is_price_normalizes (s : string) :
  Receipt.IsPrice s = true ->
  SFleb zero (Receipt.NormalizePrice s) = true /\ isInf (Receipt.NormalizePrice s) = false.
Proof.
  unfold Receipt.IsPrice, Receipt.NormalizePrice. cbv zeta.
  rewrite MatchWhole_lang, lang_pricePattern. intros Hw.
  apply TrimPrefix_price, priceGroup_cleaned in Hw.
  apply (ParseFloat_numeric _ Hw).
Qed.

Lemma is_price_normalizes_witness :
  SFleb zero (Receipt.NormalizePrice " $1,234.56 ") = true
  /\ isInf (Receipt.NormalizePrice " $1,234.56 ") = false.
Proof. apply (is_price_normalizes " $1,234.56 "). vm_compute. reflexivity. Defined.

(** X13: ExtractDate returns the empty string exactly when none of the
    five date patterns matches the text; what it returns occurs in the
    text, and when it is not empty it is a word of one of the five
    patterns. *)
Theorem extract_date_shape (s : string) :
  (Receipt.ExtractDate s = EmptyString
   <-> Forall (fun p => MatchString p s = false) Receipt.datePatterns)
  /\ occursIn (Receipt.ExtractDate s) s
  /\ (Receipt.ExtractDate s <> EmptyString ->
      Exists (fun p => lang p (Receipt.ExtractDate s)) Receipt.datePatterns).
Proof.
  unfold Receipt.ExtractDate.
  destruct (firstMatch_first Receipt.datePatterns s datePatterns_minLen)
    as [[E Hall]|(ps1 & p & ps2 & Hps & Hno & Hp & E)].
  - rewrite E. split; [done|]. split; [|done]. exists EmptyString, s. by rewrite !append_nil.
  - rewrite E. destruct (FindString_word p s) as [[Hn _]|(_ & Hocc & Hw)]; [congruence|].
    assert (In p Receipt.datePatterns) as Hin by (rewrite Hps; apply in_elt).
    pose proof datePatterns_minLen as Hmin. rewrite List.Forall_forall in Hmin.
    pose proof (lang_minLen p _ Hw) as Hlen. specialize (Hmin p Hin).
    split; [|split; [done|]].
    + split.
      * intros H0. rewrite H0 in Hlen. cbn in Hlen. lia.
      * intros Hall. rewrite List.Forall_forall in Hall. specialize (Hall p Hin). congruence.
    + intros _. apply List.Exists_exists. by exists p.
Qed.

Lemma extract_date_shape_witness :
  Exists (fun p => lang p (Receipt.ExtractDate "Date: 03/15/2024")) Receipt.datePatterns.
Proof.
  apply (proj2 (proj2 (extract_date_shape "Date: 03/15/2024"))).
  vm_compute. discriminate.
Defined.

(** X14: whenever containsDate finds a date in a text, ExtractDate returns
    a date for it: the date rule of the server never fires on a text in
    which the normalizer finds nothing. *)
Theorem contains_date_extract_date (s : string) :
  containsDate s = true -> Receipt.ExtractDate s <> EmptyString.
Proof.
  unfold containsDate. rewrite dateRegex_alt, MatchString_lang.
  intros (a & w & b & Hs & Hw) H0.
  apply (firstMatch_none _ _ datePatterns_minLen) in H0. rewrite datePatterns_list in H0.
  rewrite List.Forall_forall in H0.
  destruct Hw as [Hw|Hw].
  - assert (MatchString slashDate s = true) as Hm by (apply MatchString_lang; by exists a, w, b).
    rewrite (H0 slashDate) in Hm; [done|cbn; auto].
  - assert (MatchString isoDate s = true) as Hm by (apply MatchString_lang; by exists a, w, b).
    rewrite (H0 isoDate) in Hm; [done|cbn; auto].
Qed.

Lemma contains_date_extract_date_witness :
  Receipt.ExtractDate "Date: 2024-03-15" <> EmptyString.
Proof. apply (contains_date_extract_date "Date: 2024-03-15"). vm_compute. reflexivity. Defined.

(** X15: the third date pattern, four digits, two digits and two digits
    with dashes between, never decides.  A text that it matches is matched
    by the second pattern too, which comes first; so ExtractDate returns
    what the four other patterns give, and never a string of the shape
    year-month-day. *)
Theorem extract_date_never_iso (s : string) :
  (MatchString isoDate s = true -> MatchString dashDate s = true)
  /\ Receipt.ExtractDate s
     = Receipt.firstMatch [slashDate; dashDate; monthDate; dayMonthDate] s
  /\ ~ lang isoDate (Receipt.ExtractDate s).
Proof.
  split; [apply isoDate_dashDate|].
  assert (Receipt.ExtractDate s
          = Receipt.firstMatch [slashDate; dashDate; monthDate; dayMonthDate] s) as E.
  { unfold Receipt.ExtractDate. rewrite datePatterns_list. cbn [Receipt.firstMatch].
    fold (isEmpty (FindString slashDate s)). fold (isEmpty (FindString dashDate s)).
    fold (isEmpty (FindString isoDate s)).
    rewrite !FindString_empty, !negb_involutive by (cbn; lia).
    destruct (MatchString slashDate s); [done|].
    destruct (MatchString dashDate s) eqn:Ed; [done|].
    destruct (MatchString isoDate s) eqn:Ei; [|done].
    apply isoDate_dashDate in Ei. congruence. }
  split; [done|]. rewrite E. intros Hiso.
  assert (Forall (fun p => (1 <= minLen p)%nat) [slashDate; dashDate; monthDate; dayMonthDate])
    as Hmin by (repeat constructor; cbn; lia).
  destruct (firstMatch_first _ s Hmin) as [[E0 _]|(ps1 & p & ps2 & Hps & _ & Hp & Ef)].
  - rewrite E0 in Hiso. apply lang_minLen in Hiso. cbn in Hiso. lia.
  - destruct (FindString_word p s) as [[Hn _]|(_ & _ & Hw)]; [congruence|].
    rewrite <- Ef in Hw. apply (isoDate_apart _ Hiso).
    assert (In p [slashDate; dashDate; monthDate; dayMonthDate]) as Hin
      by (rewrite Hps; apply in_elt).
    cbn [In] in Hin. destruct Hin as [<-|[<-|[<-|[<-|[]]]]]; auto.
Qed.

Lemma extract_date_never_iso_witness : MatchString dashDate "2024-03-15" = true.
Proof.
  apply (proj1 (extract_date_never_iso "2024-03-15")). vm_compute. reflexivity.
Defined.

(** X16: NormalizeVendorName is idempotent; what it returns neither starts
    nor ends with a white-space rune, and occurs in its argument. *)
Theorem vendor_name_trimmed (s : string) :
  Receipt.NormalizeVendorName (Receipt.NormalizeVendorName s) = Receipt.NormalizeVendorName s
  /\ leadSpace (Receipt.NormalizeVendorName s) = false
  /\ trailSpace (Receipt.NormalizeVendorName s) = false
  /\ occursIn (Receipt.NormalizeVendorName s) s.
Proof.
  unfold Receipt.NormalizeVendorName. split; [apply TrimSpace_idempotent|].
  destruct (TrimSpace_trimmed s) as [Hl Ht]. split; [done|]. split; [done|].
  apply TrimSpace_infix.
Qed.

(** X17: NormalizeItemName takes one asterisk off each end: a name put
    between two asterisks comes back as it was, whatever it is, white
    space and further asterisks included. *)
Theorem item_name_markers (n : string) :
  Receipt.NormalizeItemName ("*" ++ n ++ "*") = n.
Proof.
  unfold Receipt.NormalizeItemName. cbv zeta.
  assert (TrimSpace ("*" ++ n ++ "*") = "*" ++ n ++ "*") as ->.
  { apply TrimSpace_id.
    - change ("*" ++ n ++ "*") with (String "*" (n ++ "*")). cbn [leadSpace].
      change (asciiSpace "*") with false. cbn [orb].
      destruct (n ++ "*") as [|b [|c r]]; [done| |].
      + by rewrite space2_plain by apply asterisk_code.
      + by rewrite space2_plain, space3_plain by apply asterisk_code.
    - unfold trailSpace. rewrite !rev_app.
      change (rev "*") with "*". change ("*" ++ rev n) with (String "*" (rev n)).
      rewrite append_cons. change (asciiSpace "*") with false. cbn [orb].
      destruct (rev n ++ "*") as [|b [|c r]]; [done| |].
      + by destruct (space_last "*" b b asterisk_code) as [-> _].
      + by destruct (space_last "*" b c asterisk_code) as [-> ->]. }
  assert (TrimPrefix ("*" ++ n ++ "*") "*" = n ++ "*") as ->.
  { change ("*" ++ n ++ "*") with (String "*" (n ++ "*")). unfold TrimPrefix.
    cbn [HasPrefix]. rewrite Ascii.eqb_refl. cbn [andb].
    assert (HasPrefix (n ++ "*") EmptyString = true) as -> by by destruct (n ++ "*").
    cbn [len String.length Nat.sub String.substring].
    rewrite Nat.sub_0_r. fold (len (n ++ "*")). by rewrite substring_all. }
  unfold TrimSuffix, HasSuffix. rewrite rev_app.
  change (rev "*") with "*". change ("*" ++ rev n) with (String "*" (rev n)).
  cbn [HasPrefix]. rewrite Ascii.eqb_refl. cbn [andb].
  assert (HasPrefix (rev n) EmptyString = true) as -> by by destruct (rev n).
  rewrite len_app. change (len "*") with 1%nat.
  replace (len n + 1 - 1)%nat with (len n) by lia. apply substring_prefix.
Qed.

Local Open Scope Z_scope.

(** X18: a quantity is at least 1 and at most the largest 64-bit int,
    whatever the token. *)
Theorem parse_quantity_range (s : string) :
  (1 <= Receipt.ParseQuantity s <= 2 ^ 63 - 1)%Z.
Proof.
  unfold Receipt.ParseQuantity.
  destruct (Atoi (TrimSpace s)) as [qty [e|]] eqn:E; [lia|].
  apply Atoi_range in E. destruct (qty <? 1) eqn:Hq; [lia|].
  apply Z.ltb_ge in Hq. lia.
Qed.

(** X19: ParseQuantity reads a decimal numeral back: the numeral of a
    number from 1 to the largest 64-bit int has that number as quantity,
    and the numeral of zero or of a greater number has the quantity 1. *)
Theorem parse_quantity_numeral (n : Z) :
  (0 <= n)%Z ->
  Receipt.ParseQuantity (decimal n)
  = if ((1 <=? n) && (n <=? 2 ^ 63 - 1))%Z then n else 1%Z.
Proof.
  intros Hn. unfold Receipt.ParseQuantity.
  rewrite TrimSpace_plain by (apply allNumeric_plain, decimal_numeric; done).
  rewrite Atoi_decimal by done.
  destruct (2 ^ 63 - 1 <? n) eqn:E1.
  - apply Z.ltb_lt in E1. replace (n <=? 2 ^ 63 - 1) with false by (symmetry; apply Z.leb_gt; lia).
    by rewrite andb_false_r.
  - apply Z.ltb_ge in E1. replace (n <=? 2 ^ 63 - 1) with true by (symmetry; apply Z.leb_le; lia).
    rewrite andb_true_r. destruct (n <? 1) eqn:E2.
    + apply Z.ltb_lt in E2. by replace (1 <=? n) with false by (symmetry; apply Z.leb_gt; lia).
    + apply Z.ltb_ge in E2. by replace (1 <=? n) with true by (symmetry; apply Z.leb_le; lia).
Qed.

Lemma parse_quantity_numeral_witness :
  Receipt.ParseQuantity (decimal 12) = 12%Z
  /\ Receipt.ParseQuantity (decimal (2 ^ 63)) = 1%Z.
Proof.
  split.
  - apply (parse_quantity_numeral 12). lia.
  - apply (parse_quantity_numeral (2 ^ 63)). lia.
Defined.

Local Close Scope Z_scope.

(** ** HandleLoadTextract *)

(** X20: the comparison handed to sort.Slice is a strict weak order on
    lines whose coordinates are numbers: no line is less than itself, and
    for such lines less is asymmetric and transitive, and so is not being
    less. *)
Theorem less_strict_weak_order :
  (forall a, less a a = false)
  /\ (forall a b c, positioned a -> positioned b -> positioned c ->
        (less a b = true -> less b a = false)
        /\ (less a b = true -> less b c = true -> less a c = true)
        /\ (less a b = false -> less b c = false -> less a c = false)).
Proof.
  split; [apply less_irrefl|]. intros a b c Ha Hb Hc. split; [|split].
  - intros H. by apply less_notLess.
  - intros H1 H2. apply (less_keyLt _ _ Ha Hb) in H1. apply (less_keyLt _ _ Hb Hc) in H2.
    apply (less_keyLt _ _ Ha Hc). by apply (keyLt_trans a b c).
  - apply notLess_trans; done.
Qed.

Lemma less_strict_weak_order_witness :
  let a := fragment "Milk $4.99" "95" "0.30" "0.1" in
  let b := fragment "Tax $0.40" "96" "0.55" "0.1" in
  let c := fragment "Total $5.39" "97" "0.60" "0.1" in
  less b a = false /\ less a c = true.
Proof.
  pose proof (proj2 less_strict_weak_order
                (fragment "Milk $4.99" "95" "0.30" "0.1")
                (fragment "Tax $0.40" "96" "0.55" "0.1")
                (fragment "Total $5.39" "97" "0.60" "0.1")
                ltac:(split; vm_compute; reflexivity)
                ltac:(split; vm_compute; reflexivity)
                ltac:(split; vm_compute; reflexivity)) as (H1 & H2 & _).
  split; [apply H1|apply H2]; vm_compute; reflexivity.
Defined.

(** X21: the order of the blocks does not matter when no two different
    lines have the same key.  For lines whose coordinates are numbers, two
    inputs that are permutations of each other are ordered to the same
    sequence, ordering an ordered sequence changes nothing, and the
    receipts built from the two inputs are the same. *)
Theorem ordering_independent (l1 l2 : list TextractLine) (pages : Z) (path : string) :
  Forall positioned l1 -> sameKeySameLine l1 -> Permutation l1 l2 ->
  sortLines l1 = sortLines l2
  /\ sortLines (sortLines l1) = sortLines l1
  /\ parseTextractToReceipt (loadOutput pages path l1)
     = parseTextractToReceipt (loadOutput pages path l2).
Proof.
  intros Hpos Hkey Hperm.
  assert (forall l, Permutation l1 l -> sortLines l1 = sortLines l) as Huniq.
  { intros l Hl. apply (sorted_unique (fun a b => notLess b a)).
    - by apply sortLines_sorted.
    - apply sortLines_sorted. by rewrite <- Hl.
    - by rewrite <- !sortLines_perm.
    - intros a b Ha Hb Hab Hba. apply Hkey; try done.
      + apply (Permutation_in _ (Permutation_sym (sortLines_perm l1))). done.
      + apply (Permutation_in _ (Permutation_sym (sortLines_perm l1))). done. }
  split; [by apply Huniq|]. split.
  - symmetry. apply Huniq, sortLines_perm.
  - unfold parseTextractToReceipt, loadOutput. cbn [Lines]. by rewrite (Huniq l2 Hperm).
Qed.

Lemma ordering_independent_witness :
  let l1 := [fragment "Tax $0.40" "96" "0.55" "0.1"; fragment "Milk $4.99" "95" "0.30" "0.1"] in
  let l2 := [fragment "Milk $4.99" "95" "0.30" "0.1"; fragment "Tax $0.40" "96" "0.55" "0.1"] in
  sortLines l1 = sortLines l2
  /\ sortLines (sortLines l1) = sortLines l1
  /\ parseTextractToReceipt (loadOutput 1 "receipt.json" l1)
     = parseTextractToReceipt (loadOutput 1 "receipt.json" l2).
Proof.
  apply ordering_independent.
  - repeat constructor.
  - intros a b Ha Hb. cbn [In] in Ha, Hb.
    destruct Ha as [<-|[<-|[]]], Hb as [<-|[<-|[]]]; vm_compute; congruence.
  - apply perm_swap.
Defined.

(** X22: what HandleLoadTextract returns.  Without a path it fails before
    anything is read; whenever it fails the output is the empty one.  When
    the file is read and parsed, the lines are, up to their order, the
    blocks of type LINE with a text that is not empty, each with the text
    and the confidence of its block; total_lines is their number, the page
    count is the one of the document and the path is the one given.  A
    block without geometry, or without bounding box, is placed at top 0
    and left 0. *)
Theorem load_textract_result
    (readFile : string -> string + string)
    (unmarshal : string -> Textract.TextractDocument + string) (path : string) :
  let result := Textract.HandleLoadTextract readFile unmarshal path in
  (path = EmptyString -> result = (Textract.noOutput, Some Textract.PathRequired))
  /\ (snd result <> None -> fst result = Textract.noOutput)
  /\ (forall data doc,
        path <> EmptyString -> readFile path = inl data -> unmarshal data = inl doc ->
        let kept := List.filter Textract.isLine (Textract.Blocks doc) in
        snd result = None
        /\ Permutation (Lines (fst result)) (map Textract.lineOf kept)
        /\ TotalLines (fst result) = Z.of_nat (length kept)
        /\ TotalLines (fst result) = Z.of_nat (length (Lines (fst result)))
        /\ Forall (fun l => Text l <> EmptyString) (Lines (fst result))
        /\ PageCount (fst result) = Textract.Pages (Textract.DocumentMetadata doc)
        /\ FilePath (fst result) = path)
  /\ (forall block,
        Textract.Geometry block = None
        \/ Textract.Geometry block = Some {| Textract.Box := None |} ->
        Top (Textract.lineOf block) = zero /\ Left (Textract.lineOf block) = zero).
Proof.
  cbv zeta. unfold Textract.HandleLoadTextract. split; [by intros ->|]. split.
  { destruct (String.eqb path EmptyString); [done|].
    destruct (readFile path) as [data|err]; [|done].
    by destruct (unmarshal data) as [doc|err]. }
  split.
  - intros data doc Hpath Hread Hjson.
    apply String.eqb_neq in Hpath. rewrite Hpath, Hread, Hjson. cbn [fst snd].
    unfold loadOutput. cbn [Lines TotalLines PageCount FilePath].
    rewrite extractLines_filter. cbn [app].
    set (kept := List.filter Textract.isLine (Textract.Blocks doc)).
    pose proof (sortLines_perm (map Textract.lineOf kept)) as Hperm.
    split; [done|]. split; [by symmetry|]. split.
    { by rewrite <- (Permutation_length Hperm), length_map. }
    split; [done|]. split; [|done].
    rewrite <- Hperm. apply List.Forall_map, List.Forall_forall. intros b Hb.
    apply List.filter_In in Hb as [_ Hb]. unfold Textract.isLine in Hb.
    apply andb_prop in Hb as [_ Hb]. apply negb_true_iff, String.eqb_neq in Hb.
    unfold Textract.lineOf. destruct (Textract.Geometry b) as [g|]; [|done].
    by destruct (Textract.Box g).
  - intros block [H|H]; unfold Textract.lineOf; rewrite H; done.
Qed.

Lemma load_textract_result_witness :
  let block := {| Textract.BlockType := "LINE"; Textract.Confidence := f64 "97";
                  Textract.Text := "STORE NAME"; Textract.ID := "1";
                  Textract.Geometry := None; Textract.Relationships := [] |} in
  let page := {| Textract.BlockType := "PAGE"; Textract.Confidence := zero;
                 Textract.Text := EmptyString; Textract.ID := "0";
                 Textract.Geometry := None; Textract.Relationships := [] |} in
  let doc := {| Textract.DocumentMetadata := {| Textract.Pages := 1 |};
                Textract.Blocks := [page; block] |} in
  let result := Textract.HandleLoadTextract (fun _ => inl "{}") (fun _ => inl doc)
                  "receipt.json" in
  snd result = None
  /\ Permutation (Lines (fst result)) [Textract.lineOf block]
  /\ TotalLines (fst result) = 1%Z
  /\ TotalLines (fst result) = Z.of_nat (length (Lines (fst result)))
  /\ Forall (fun l => Text l <> EmptyString) (Lines (fst result))
  /\ PageCount (fst result) = 1%Z
  /\ FilePath (fst result) = "receipt.json".
Proof.
  intros block page doc.
  apply (proj1 (proj2 (proj2
           (load_textract_result (fun _ => inl "{}") (fun _ => inl doc) "receipt.json")))
           "{}" doc); [discriminate|reflexivity|reflexivity].
Defined.

(** ** The reply that ParseReceiptWithLLM parses *)

(** X23.  A reply that holds one object, with no opening brace before it
    and no closing brace after it, is cut down to that object: the code
    fences, the white space and the words around it go, and what is
    inside the object is kept as it is. *)
Theorem llm_json_text_object (pre body post : string) :
  someByte (Ascii.eqb "{") pre = false ->
  someByte (Ascii.eqb "}") post = false ->
  LLM.jsonText (pre ++ "{" ++ body ++ "}" ++ post) = Some ("{" ++ body ++ "}").
Proof.
  intros HP HQ.
  assert (holds body (pre ++ "{" ++ body ++ "}" ++ post)) as H.
  { exists pre, post. split; [|done]. unfold object. by rewrite !append_assoc. }
  apply holds_TrimSpace, (holds_TrimPrefix _ _ "```json"), (holds_TrimPrefix _ _ "```"),
    (holds_TrimSuffix _ _ "```"), holds_TrimSpace in H; [|done..].
  unfold LLM.jsonText. cbv zeta.
  destruct H as (P & Q & -> & HP' & HQ'). fold (object body).
  set (t := P ++ object body ++ Q).
  assert (Contains t "{" = true) as ->.
  { unfold t. rewrite Contains_byte, object_left, someByte_app. cbn [someByte].
    by rewrite Ascii.eqb_refl, orb_true_r. }
  assert (Contains t "}" = true) as ->.
  { unfold t. rewrite Contains_byte, object_right, someByte_app. cbn [someByte].
    by rewrite Ascii.eqb_refl, orb_true_r. }
  assert (LLM.Index t "{" = Z.of_nat (len P)) as ->.
  { unfold t, LLM.Index. rewrite object_left, indexFrom_skip by done. lia. }
  assert (LLM.LastIndex t "}" = Z.of_nat (len P) + 1 + Z.of_nat (len body))%Z as ->.
  { unfold t, LLM.LastIndex. rewrite object_right, lastIndexFrom_last by done.
    rewrite len_app. cbn [len String.length]. unfold len. lia. }
  assert (len (object body) = S (S (len body))) as Ho.
  { unfold object. rewrite append_cons, append_nil. cbn [len String.length].
    fold (len (body ++ "}")). rewrite len_app. cbn [len String.length]. lia. }
  assert (len t = len P + S (S (len body)) + len Q)%nat as Ht.
  { unfold t. rewrite !len_app, Ho. lia. }
  cbn [andb].
  replace (0 <=? Z.of_nat (len P))%Z with true by (symmetry; apply Z.leb_le; lia).
  replace (Z.of_nat (len P) <? Z.of_nat (len P) + 1 + Z.of_nat (len body) + 1)%Z
    with true by (symmetry; apply Z.ltb_lt; lia).
  cbn [andb]. unfold LLM.sliced.
  replace (0 <=? Z.of_nat (len P))%Z with true by (symmetry; apply Z.leb_le; lia).
  replace (Z.of_nat (len P) <=? Z.of_nat (len P) + 1 + Z.of_nat (len body) + 1)%Z
    with true by (symmetry; apply Z.leb_le; lia).
  replace (Z.of_nat (len P) + 1 + Z.of_nat (len body) + 1 <=? Z.of_nat (len t))%Z
    with true by (symmetry; apply Z.leb_le; lia).
  cbn [andb]. f_equal.
  replace (Z.to_nat (Z.of_nat (len P))) with (len P) by lia.
  replace (Z.to_nat (Z.of_nat (len P) + 1 + Z.of_nat (len body) + 1 - Z.of_nat (len P)))
    with (len (object body)) by lia.
  unfold t. apply substring_app.
Qed.

Lemma llm_json_text_object_witness :
  LLM.jsonText "```json { items: [{name: milk}] } ``` " = Some "{ items: [{name: milk}] }".
Proof.
  apply (llm_json_text_object "```json " " items: [{name: milk}] " " ``` "); reflexivity.
Defined.

(** X24.  The cleaning of a reply never slices out of range, whatever the
    text is, and what it hands to the parser is a part of the reply. *)
Theorem llm_json_text_total (text : string) :
  exists out, LLM.jsonText text = Some out /\ occursIn out text.
Proof.
  pose proof (jsonText_cleaned_occurs text) as Ht.
  unfold LLM.jsonText. cbv zeta.
  set (t := TrimSpace (TrimSuffix _ _)) in *.
  destruct (Contains t "{" && Contains t "}"); [|by exists t].
  destruct ((0 <=? LLM.Index t "{")%Z && (LLM.Index t "{" <? LLM.LastIndex t "}" + 1)%Z) eqn:G;
    [|by exists t].
  apply andb_prop in G as [G1 G2]. apply Z.leb_le in G1. apply Z.ltb_lt in G2.
  pose proof (lastIndexFrom_bound "}" t 0%Z ltac:(lia)) as Hb. fold (LLM.LastIndex t "}") in Hb.
  unfold LLM.sliced.
  replace (0 <=? LLM.Index t "{")%Z with true by (symmetry; apply Z.leb_le; lia).
  replace (LLM.Index t "{" <=? LLM.LastIndex t "}" + 1)%Z with true
    by (symmetry; apply Z.leb_le; lia).
  replace (LLM.LastIndex t "}" + 1 <=? Z.of_nat (len t))%Z with true
    by (symmetry; apply Z.leb_le; lia).
  cbn [andb]. eexists. split; [reflexivity|].
  eapply occursIn_trans; [|exact Ht]. apply substring_occurs. lia.
Qed.
